(** * Harmony Compiler intermediate tapes: the decoder and the tweaker

    A shallow embedding of [verify/decodehcint.c] and [tweak/tweak.c]:
    the frame reader [rpb], the frame writer [ppb], the end-around-carry
    checksum, the NOTES and BARS section loops and the voice loop of both
    programs, and of the conversions and the dump of
    [hc_binmaker/src/ascii2fiodec.c], followed by the properties proved
    about them.

    Conventions.
    - [uint32_t] and [uint8_t] values are [Z] with the wrap-around written
      out ([u32], [u8]); octal literals of the C source are written in
      hexadecimal, the octal form is recalled in comments and checked by
      [octal_literals].
    - An input [FILE*] is the list of frames that have not been read yet;
      [fgetc] takes the head, [ftell]/[fseek(SEEK_SET)] save and restore
      that list. The output [FILE*] is the list of bytes written so far.
    - [exit(1)] is the outcome [Exit], an integer division by zero or an
      access outside the notes buffer is the outcome [Fault].
    - Out-parameters ([uint32_t *word], ...) are returned in a tuple. *)

From Stdlib Require Import ZArith List Lia Bool String.
From coqutil Require Import Byte.
From stdpp Require Import base list.
Import ListNotations.
Local Open Scope string_scope.
Local Open Scope Z_scope.

(** ** Machine integers *)

Definition u32 (z : Z) : Z := z mod 2 ^ 32.
Definition u8 (z : Z) : Z := z mod 2 ^ 8.

(** [EOF] of <stdio.h>; converted to [uint32_t] it is [u32 EOF]. *)
Definition EOF : Z := -1.

(** Reads a decimal numeral as the octal literal with the same digits. *)
Fixpoint octal_digits (fuel : nat) (d : Z) : Z :=
  match fuel with
  | O => 0
  | S fuel' => if d =? 0 then 0 else d mod 10 + 8 * octal_digits fuel' (d / 10)
  end.

Definition octal (d : Z) : Z := octal_digits 12 d.

(** C integer division; [None] is the division by zero. *)
Definition c_div (a b : Z) : option Z :=
  if b =? 0 then None else Some (Z.quot a b).

(** ** Outcomes, the world and the monad of both programs *)

(** The diagnostics after which the programs call [exit(1)]. *)
Inductive error : Type :=
| InnerDropoutError (inner_frames word_index : Z)
| ChecksumMismatchError (expected calculated : Z)
| MissingGapError
| InvalidArticulationError (articulation : Z)
| EndOfBarsError
| NoteIndexError (word : Z).

(** Undefined behaviour of the C program. *)
Inductive fault : Type :=
| DivisionByZero
| OutOfBounds (index : Z).

Inductive outcome (A : Type) : Type :=
| Ret (a : A)
| Exit (e : error)
| Fault (f : fault)
| OutOfFuel.

Arguments Ret {A} a.
Arguments Exit {A} e.
Arguments Fault {A} f.
Arguments OutOfFuel {A}.

(** An argument of [printf]. *)
Inductive arg : Type :=
| I (z : Z)
| T (s : string).

Record world : Type := World {
  fp : list byte;                       (* input frames still to be read *)
  fp_out : list byte;                   (* bytes written to the output file *)
  stdout : list (string * list arg)     (* calls of printf and puts, in order *)
}.

Definition M (A : Type) : Type := world -> outcome A * world.

Definition ret {A : Type} (a : A) : M A := fun w => (Ret a, w).

Definition bind {A B : Type} (m : M A) (k : A -> M B) : M B :=
  fun w =>
    match m w with
    | (Ret a, w') => k a w'
    | (Exit e, w') => (Exit e, w')
    | (Fault f, w') => (Fault f, w')
    | (OutOfFuel, w') => (OutOfFuel, w')
    end.

Declare Scope prog_scope.
Delimit Scope prog_scope with prog.
Notation "x <- m ;; k" := (bind m (fun x => k))
  (at level 100, m at next level, right associativity) : prog_scope.
Notation "m ;; k" := (bind m (fun _ => k))
  (at level 100, right associativity) : prog_scope.
Local Open Scope prog_scope.

Definition exit {A : Type} (e : error) : M A := fun w => (Exit e, w).
Definition crash {A : Type} (f : fault) : M A := fun w => (Fault f, w).

Definition printf (fmt : string) (args : list arg) : M unit :=
  fun w => (Ret tt, World (fp w) (fp_out w) (stdout w ++ [(fmt, args)])).

Definition puts (s : string) : M unit := printf s [].

(** [putc(c, fp_out)]: the value is converted to [unsigned char]. *)
Definition putc (c : Z) : M unit :=
  fun w => (Ret tt, World (fp w) (fp_out w ++ [byte.of_Z c]) (stdout w)).

(** [if (c) s;] *)
Definition when (c : bool) (s : M unit) : M unit := if c then s else ret tt.

(** What one turn of a [while (1)] body does next. *)
Inductive ctl (L : Type) : Type :=
| Continue (locals : L)
| Break (locals : L)
| Return (r : Z) (locals : L).

Arguments Continue {L} locals.
Arguments Break {L} locals.
Arguments Return {L} r locals.

(** [while (1) body]: [None] after a [break], [Some r] after [return r],
    with the locals at that point. *)
Fixpoint while1 {L : Type} (fuel : nat) (body : L -> M (ctl L)) (l : L)
  : M (option Z * L) :=
  match fuel with
  | O => fun w => (OutOfFuel, w)
  | S fuel' =>
      c <- body l ;;
      match c with
      | Continue l' => while1 fuel' body l'
      | Break l' => ret (None, l')
      | Return r l' => ret (Some r, l')
      end
  end.

(** ** Code that is the same text in decodehcint.c and tweak.c *)

Definition NOTES_BUFFER_SIZE : Z := 8192.

Record rpb_result : Type := RpbResult {
  rpb_word : Z;
  rpb_gap_frames : Z;
  rpb_inner_frames : Z;
  rpb_fp : list byte
}.

(** The [for (int i = 0; i < 3;)] loop of [rpb] on the frames still to be
    read. 0200 = 0x80, 077 = 0x3f. *)
Fixpoint rpb_loop (f : list byte) (i : nat) (word gap_frames inner_frames : Z)
  : rpb_result :=
  match f with
  | [] => RpbResult (u32 EOF) gap_frames inner_frames []
  | b :: f' =>
      let c := byte.unsigned b in
      if negb (Z.land c 0x80 =? 0) then
        let word := Z.lor (u32 (Z.shiftl word 6)) (Z.land c 0x3f) in
        let i := S i in
        if (i <? 3)%nat then rpb_loop f' i word gap_frames inner_frames
        else RpbResult word gap_frames inner_frames f'
      else if negb (i =? 0)%nat then
        rpb_loop f' i word gap_frames (u32 (inner_frames + 1))
      else
        rpb_loop f' i word (u32 (gap_frames + 1)) inner_frames
  end.

(** [rpb(fp, &gap_frames, &inner_frames)]: word, gap frames, inner frames. *)
Definition rpb : M (Z * Z * Z) :=
  fun w =>
    let r := rpb_loop (fp w) 0 0 0 0 in
    (Ret (rpb_word r, rpb_gap_frames r, rpb_inner_frames r),
     World (rpb_fp r) (fp_out w) (stdout w)).

(** [peek_gap(fp, &gap_frames)] on a seekable file: result, gap frames. *)
Definition peek_gap : M (Z * Z) :=
  fun w =>
    let current_pos := fp w in
    match rpb w with
    | (Ret (word, gap_frames, inner_frames), w') =>
        (Ret (if word =? u32 EOF then u32 EOF else 0, gap_frames),
         World current_pos (fp_out w') (stdout w'))
    | (Exit e, w') => (Exit e, w')
    | (Fault f, w') => (Fault f, w')
    | (OutOfFuel, w') => (OutOfFuel, w')
    end.

(** 0777777 = 0x3ffff *)
Definition add_1s_complement (a b : Z) : Z :=
  let sum := u32 (a + b) in
  Z.land (u32 (Z.land sum 0x3ffff + Z.shiftr sum 18)) 0x3ffff.

(** ** decodehcint.c *)

Module Decodehcint.

Definition NOTE_NAMES : list string :=
  ["C"; "C#"; "D"; "D#"; "E"; "F"; "F#"; "G"; "G#"; "A"; "A#"; "B"].
Definition REST_NAME : string := "r".
Definition ARTICULATION_NAMES : list string :=
  ["normal"; "quarter"; "half"; "staccato"; "legato"].

Record note_t : Type := Note {
  articulation : Z;
  triplet : Z;
  pitch : Z;
  duration : Z;
  note_duration : Z;
  note_pitch : Z;
  octave : Z;
  semi_tone : Z;
  note_name : string
}.

(** result, word, word count, gap frames *)
Definition read_next_word (word_count : Z) (peek : Z) : M (Z * Z * Z * Z) :=
  r <- rpb ;;
  let '(word, gap_frames_int, inner_frames) := r in
  if negb (inner_frames =? 0) then
    exit (InnerDropoutError inner_frames word_count)
  else
    when (negb (gap_frames_int =? 0))
      (printf "[%d blank frame%s]" [I gap_frames_int]) ;;
    if word =? u32 EOF then ret (u32 EOF, word, word_count, gap_frames_int)
    else
      when (peek =? 0) (printf "%06o: %06o" [I word_count; I word]) ;;
      ret (0, word, u32 (word_count + 1), gap_frames_int).

(** 014 = 0xc, 0060000 = 0x6000, 0100000 = 0x8000, 0177 = 0x7f; the fields
    of [note_t] are [uint8_t]. [None] is the division by zero. *)
Definition parse_note (word : Z) : option note_t :=
  let articulation :=
    u8 (Z.lor (Z.land (Z.shiftr word 14) 0xc) (Z.shiftr (Z.land word 0x6000) 13)) in
  let triplet := u8 (Z.shiftr (Z.land word 0x8000) 15) in
  let pitch := u8 (Z.land (Z.shiftr word 7) 0x3f) in
  let duration := u8 (Z.land word 0x7f) in
  match c_div 192 (duration * (if negb (triplet =? 0) then 2 else 3)) with
  | None => None
  | Some q =>
      let note_duration := u8 q in
      if pitch >? 1 then
        let note_pitch := u8 (pitch - 2) in
        let octave := u8 (Z.quot note_pitch 12 + 1) in
        let semi_tone := u8 (Z.rem note_pitch 12) in
        Some (Note articulation triplet pitch duration note_duration
                note_pitch octave semi_tone
                (nth (Z.to_nat semi_tone) NOTE_NAMES ""))
      else
        Some (Note articulation triplet pitch duration note_duration
                0 0 0 REST_NAME)
  end.

(** 0077777 = 0x7fff *)
Definition decode_tempo_quarter (tempo : Z) : option Z :=
  c_div 11436 (Z.land tempo 0x7fff).

Definition verify_checksum (expected calculated : Z) : M unit :=
  if expected =? calculated then puts "\tgood checksum"
  else
    printf "\tchecksum mismatch: expected: %06o, calculated: %06o\n"
      [I expected; I calculated] ;;
    exit (ChecksumMismatchError expected calculated).

Definition articulation_name (articulation : Z) : M string :=
  match articulation with
  | 0 | 1 | 2 =>
      ret (nth (Z.to_nat articulation) ARTICULATION_NAMES "")
  | 4 => ret (nth 3%nat ARTICULATION_NAMES "")
  | 8 => ret (nth 4%nat ARTICULATION_NAMES "")
  | _ => exit (InvalidArticulationError articulation)
  end.

(** [notes[i] = word] and [notes[i]] on the buffer of [NOTES_BUFFER_SIZE]
    words that [main] allocates. *)
Definition store (notes : list Z) (i word : Z) : M (list Z) :=
  if (0 <=? i) && (i <? Z.of_nat (length notes)) then
    ret (<[Z.to_nat i := word]> notes)
  else crash (OutOfBounds i).

Definition load (notes : list Z) (i : Z) : M Z :=
  match (if 0 <=? i then notes !! Z.to_nat i else None) with
  | Some v => ret v
  | None => crash (OutOfBounds i)
  end.

(** The division of [parse_note], lifted to the program. *)
Definition lift {A : Type} (o : option A) : M A :=
  match o with
  | Some a => ret a
  | None => crash DivisionByZero
  end.

(** The locals of [read_notes] and what its pointer arguments point to. *)
Record notes_vars : Type := NotesVars {
  n_checksum : Z;
  n_part_word_count : Z;
  n_total_word_count : Z;
  n_word_count : Z;
  n_notes : list Z;
  n_notes_count : Z
}.

(** The last three branches of the [if] chain of [read_notes], taken by a
    data word: measure separator, tempo, note. 0600000 = 0x30000,
    0700000 = 0x38000. The second [%d] of the tempo line is a floating
    point product and is left out of the arguments. *)
Definition read_notes_word (word : Z) : M unit :=
  if word =? 0x30000 then puts "\t/"
  else if Z.land word 0x38000 =? 0x38000 then
    tempo <- lift (decode_tempo_quarter word) ;;
    printf "\ttempo: %d BPM [%d BPM for CHM PDP-1] (assuming 4/4 time) [raw: %d]\n"
      [I tempo; I (Z.land word 0x7fff)]
  else
    note <- lift (parse_note word) ;;
    (if pitch note >? 1 then
       name <- articulation_name (articulation note) ;;
       printf "\tarticulation: %02o [%s], triplet: %o [%s], "
         [I (articulation note); T name; I (triplet note);
          T (if negb (triplet note =? 0) then "Y" else "N")]
     else printf "\t" []) ;;
    printf "pitch: %02o [%s%d], duration: %03o [1/%d]\n"
      [I (pitch note); T (note_name note); I (octave note);
       I (duration note); I (note_duration note)].

(** One turn of the [while (1)] of [read_notes]. *)
Definition read_notes_body (v : notes_vars) : M (ctl notes_vars) :=
  r <- read_next_word (n_word_count v) 0 ;;
  let '(res, word, word_count, _) := r in
  if res =? u32 EOF then
    ret (Return EOF (NotesVars (n_checksum v) (n_part_word_count v)
                       (n_total_word_count v) word_count (n_notes v)
                       (n_notes_count v)))
  else
    let part_word_count := u32 (n_part_word_count v + 1) in
    let total_word_count := n_total_word_count v in
    cn <- (if (part_word_count >? 1)
              && (part_word_count <? u32 (total_word_count + 2))
           then
             notes <- store (n_notes v) (u32 (part_word_count - 2)) word ;;
             ret (add_1s_complement (n_checksum v) word, notes)
           else ret (n_checksum v, n_notes v)) ;;
    let '(checksum, notes) := cn in
    if part_word_count =? 1 then
      let total_word_count := word in
      let notes_count := u32 (total_word_count - 1) in
      printf "\tnotes word count: %d\n" [I total_word_count] ;;
      ret (Continue (NotesVars checksum part_word_count total_word_count
                       word_count notes notes_count))
    else
      let v' := NotesVars checksum part_word_count total_word_count
                  word_count notes (n_notes_count v) in
      if part_word_count =? u32 (total_word_count + 2) then
        verify_checksum word checksum ;;
        ret (Break v')
      else
        read_notes_word word ;;
        ret (Continue v').

(** [read_notes(fp, &word_count, notes, &notes_count)]: result and the
    variables at the return. [total_word_count] is not initialised in the
    source and not read before it is assigned. *)
Definition read_notes (word_count : Z) (notes : list Z) (notes_count : Z)
  : M (Z * notes_vars) :=
  puts "NOTES:" ;;
  fun w =>
    (r <- while1 (S (length (fp w))) read_notes_body
           (NotesVars 0 0 0 word_count notes notes_count) ;;
     match r with
     | (Some x, v) => ret (x, v)
     | (None, v) => ret (0, v)
     end) w.

(** The locals of [read_bars] and what [word_count] points to. *)
Record bars_vars : Type := BarsVars {
  b_checksum : Z;
  b_gap_frames : Z;
  b_part_word_count : Z;
  b_total_word_count : Z;
  b_word_count : Z
}.

(** One turn of the loop that prints a measure: [measure_note] is kept as
    an index into [notes]. The index goes up by one each turn and the loop
    stops at the latest when it leaves the buffer, which gives the fuel of
    the loop in [read_bars_body]. *)
Definition measure_body (notes : list Z) (notes_count word : Z)
  (l : Z * Z) : M (ctl (Z * Z)) :=
  let '(measure_note, note_count) := l in
  x <- load notes measure_note ;;
  if negb (x =? 0x30000) && (u32 (word + note_count) <? notes_count) then
    note <- lift (parse_note x) ;;
    printf " %st%d" [T (note_name note); I (note_duration note)] ;;
    ret (Continue (measure_note + 1, u32 (note_count + 1)))
  else ret (Break l).

(** One turn of the [while (1)] of [read_bars]. *)
Definition read_bars_body (notes : list Z) (notes_count : Z) (v : bars_vars)
  : M (ctl bars_vars) :=
  r <- read_next_word (b_word_count v) 0 ;;
  let '(res, word, word_count, gap_frames) := r in
  if res =? u32 EOF then
    ret (Return EOF (BarsVars (b_checksum v) gap_frames (b_part_word_count v)
                       (b_total_word_count v) word_count))
  else
    let part_word_count := u32 (b_part_word_count v + 1) in
    let total_word_count := b_total_word_count v in
    let checksum :=
      if (part_word_count >? 1)
         && (part_word_count <? u32 (total_word_count + 2))
      then add_1s_complement (b_checksum v) word
      else b_checksum v in
    if part_word_count =? 1 then
      if gap_frames =? 0 then exit MissingGapError
      else
        let total_word_count := word in
        printf "\tbars word count: %d\n" [I total_word_count] ;;
        ret (Continue (BarsVars checksum gap_frames part_word_count
                         total_word_count word_count))
    else
      let v' := BarsVars checksum gap_frames part_word_count
                  total_word_count word_count in
      if part_word_count =? u32 (total_word_count + 2) then
        verify_checksum word checksum ;;
        p <- peek_gap ;;
        let '(res, gap_frames) := p in
        let v' := BarsVars checksum gap_frames part_word_count
                    total_word_count word_count in
        if res =? u32 EOF then
          when (negb (gap_frames =? 0))
            (printf "[%d blank frame%s]\n" [I gap_frames]) ;;
          ret (Return EOF v')
        else ret (Break v')
      else if word =? 0x30000 then
        printf "\t/\n" [] ;;
        if negb (part_word_count =? u32 (total_word_count + 1)) then
          exit EndOfBarsError
        else ret (Continue v')
      else
        if word >=? notes_count then exit (NoteIndexError word)
        else
          printf "\t%d" [I (u32 (part_word_count - 1))] ;;
          while1 (S (length notes))
            (measure_body notes notes_count word) (word, 0) ;;
          printf "/\n" [] ;;
          ret (Continue v').

(** [read_bars(fp, &word_count, notes, notes_count)] *)
Definition read_bars (word_count : Z) (notes : list Z) (notes_count : Z)
  : M (Z * bars_vars) :=
  puts "\nBARS:" ;;
  fun w =>
    (r <- while1 (S (length (fp w))) (read_bars_body notes notes_count)
           (BarsVars 0 0 0 0 word_count) ;;
     match r with
     | (Some x, v) => ret (x, v)
     | (None, v) => ret (0, v)
     end) w.

(** The variables of [main] that the voice loop changes. *)
Record main_vars : Type := MainVars {
  m_word_count : Z;
  m_notes_count : Z;
  m_voice : Z;
  m_notes : list Z
}.

(** One turn of [while (voice <= 4)]; the banner is a single [printf]. *)
Definition main_body (v : main_vars) : M (ctl main_vars) :=
  if negb (m_voice v <=? 4) then ret (Break v)
  else
    when (m_voice v >? 1) (puts "\n") ;;
    printf "VOICE %d" [I (m_voice v)] ;;
    n <- read_notes (m_word_count v) (m_notes v) (m_notes_count v) ;;
    let '(res, nv) := n in
    if res =? EOF then
      ret (Return 1 (MainVars (n_word_count nv) (n_notes_count nv)
                       (m_voice v) (n_notes nv)))
    else
      b <- read_bars (n_word_count nv) (n_notes nv) (n_notes_count nv) ;;
      let '(res, bv) := b in
      if res =? EOF then
        ret (Break (MainVars (b_word_count bv) (n_notes_count nv)
                      (m_voice v) (n_notes nv)))
      else
        ret (Continue (MainVars (b_word_count bv) (n_notes_count nv)
                         (u8 (m_voice v + 1)) (n_notes nv))).

(** [malloc(NOTES_BUFFER_SIZE * sizeof(uint32_t))]: the words of the buffer
    hold whatever the heap held. *)
Definition malloc_notes (heap : nat -> Z) : list Z :=
  map (fun i => u32 (heap i)) (seq 0 (Z.to_nat NOTES_BUFFER_SIZE)).

(** [main] on an opened, seekable file; the value is the exit status. The
    byte count of the last line is a floating point expression of
    [word_count], which is the argument kept here. *)
Definition main (heap : nat -> Z) : M Z :=
  r <- while1 5 main_body (MainVars 0 0 1 (malloc_notes heap)) ;;
  match r with
  | (Some x, _) => ret x
  | (None, v) =>
      printf "\nDATA LENGTH: %dB\n" [I (m_word_count v)] ;;
      ret 0
  end.

End Decodehcint.

(** ** tweak.c *)

Module Tweak.

Definition DEFAULT_GAP_LENGTH : Z := 18.

(** 0770000 = 0x3f000, 0007700 = 0xfc0 *)
Definition ppb (word : Z) : M unit :=
  putc (Z.lor 0x80 (Z.shiftr (Z.land word 0x3f000) 12)) ;;
  putc (Z.lor 0x80 (Z.shiftr (Z.land word 0xfc0) 6)) ;;
  putc (Z.lor 0x80 (Z.land word 0x3f)).

(** result, word, word count, gap frames; nothing is printed here. *)
Definition read_next_word (word_count : Z) (peek : Z) : M (Z * Z * Z * Z) :=
  r <- rpb ;;
  let '(word, gap_frames_int, inner_frames) := r in
  if negb (inner_frames =? 0) then
    exit (InnerDropoutError inner_frames word_count)
  else if word =? u32 EOF then ret (u32 EOF, word, word_count, gap_frames_int)
  else ret (0, word, u32 (word_count + 1), gap_frames_int).

Definition verify_checksum (expected calculated : Z) : M unit :=
  if expected =? calculated then puts "good checksum"
  else
    printf "checksum mismatch: expected: %06o, calculated: %06o\n"
      [I expected; I calculated] ;;
    exit (ChecksumMismatchError expected calculated).

(** The locals of [copy_notes]. *)
Record notes_vars : Type := NotesVars {
  n_checksum : Z;
  n_part_word_count : Z;
  n_total_word_count : Z;
  n_word_count : Z;
  n_new_checksum : Z
}.

(** One turn of the [while (1)] of [copy_notes]; [tempo] is a [uint32_t]
    and [-1] converts to [u32 (-1)]. 0700000 = 0x38000, 0077777 = 0x7fff. *)
Definition copy_notes_body (tempo : Z) (v : notes_vars) : M (ctl notes_vars) :=
  r <- read_next_word (n_word_count v) 0 ;;
  let '(res, word, word_count, _) := r in
  if res =? u32 EOF then
    ret (Return EOF (NotesVars (n_checksum v) (n_part_word_count v)
                       (n_total_word_count v) word_count (n_new_checksum v)))
  else
    let part_word_count := u32 (n_part_word_count v + 1) in
    let total_word_count := n_total_word_count v in
    let checksum :=
      if (part_word_count >? 1)
         && (part_word_count <? u32 (total_word_count + 2))
      then add_1s_complement (n_checksum v) word
      else n_checksum v in
    let new_checksum := n_new_checksum v in
    (* the if / else if chain: is_tempo, total_word_count, new_checksum,
       or the break *)
    c <- (if part_word_count =? 1 then
            ret (inl (0, word, new_checksum))
          else if part_word_count =? u32 (total_word_count + 2) then
            verify_checksum word checksum ;;
            ppb new_checksum ;;
            ret (inr tt)
          else if (Z.land word 0x38000 =? 0x38000)
                  && negb (tempo =? u32 (-1)) then
            let new_word := Z.lor 0x38000 (Z.land tempo 0x7fff) in
            ppb new_word ;;
            let new_checksum := add_1s_complement new_checksum new_word in
            printf "tempo: %d -> %d\n"
              [I (Z.land word 0x7fff); I (Z.land tempo 0x7fff)] ;;
            ret (inl (1, total_word_count, new_checksum))
          else ret (inl (0, total_word_count, new_checksum))) ;;
    match c with
    | inr _ =>
        ret (Break (NotesVars checksum part_word_count total_word_count
                      word_count new_checksum))
    | inl (is_tempo, total_word_count, new_checksum) =>
        if is_tempo =? 0 then
          ppb word ;;
          let new_checksum :=
            if (part_word_count >? 1)
               && (part_word_count <? u32 (total_word_count + 2))
            then add_1s_complement new_checksum word
            else new_checksum in
          ret (Continue (NotesVars checksum part_word_count total_word_count
                           word_count new_checksum))
        else
          ret (Continue (NotesVars checksum part_word_count total_word_count
                           word_count new_checksum))
    end.

(** [copy_notes(fp_in, fp_out, tempo)] *)
Definition copy_notes (tempo : Z) : M Z :=
  fun w =>
    (r <- while1 (S (length (fp w))) (copy_notes_body tempo)
           (NotesVars 0 0 0 0 0) ;;
     match r with
     | (Some x, _) => ret x
     | (None, v) =>
         printf "notes: %d words\n" [I (n_word_count v)] ;;
         ret 0
     end) w.

(** The locals of [copy_bars]. *)
Record bars_vars : Type := BarsVars {
  b_checksum : Z;
  b_gap_frames : Z;
  b_part_word_count : Z;
  b_total_word_count : Z;
  b_word_count : Z
}.

(** One turn of the [while (1)] of [copy_bars]. *)
Definition copy_bars_body (v : bars_vars) : M (ctl bars_vars) :=
  r <- read_next_word (b_word_count v) 0 ;;
  let '(res, word, word_count, gap_frames) := r in
  if res =? u32 EOF then
    ret (Return EOF (BarsVars (b_checksum v) gap_frames (b_part_word_count v)
                       (b_total_word_count v) word_count))
  else
    let part_word_count := u32 (b_part_word_count v + 1) in
    let total_word_count := b_total_word_count v in
    let checksum :=
      if (part_word_count >? 1)
         && (part_word_count <? u32 (total_word_count + 2))
      then add_1s_complement (b_checksum v) word
      else b_checksum v in
    if part_word_count =? 1 then
      if gap_frames =? 0 then exit MissingGapError
      else
        let total_word_count := word in
        ppb word ;;
        ret (Continue (BarsVars checksum gap_frames part_word_count
                         total_word_count word_count))
    else if part_word_count =? u32 (total_word_count + 2) then
      verify_checksum word checksum ;;
      ppb word ;;
      p <- peek_gap ;;
      let '(res, gap_frames) := p in
      let v' := BarsVars checksum gap_frames part_word_count
                  total_word_count word_count in
      if res =? u32 EOF then ret (Return EOF v') else ret (Break v')
    else
      ppb word ;;
      ret (Continue (BarsVars checksum gap_frames part_word_count
                       total_word_count word_count)).

(** [copy_bars(fp_in, fp_out)] *)
Definition copy_bars : M Z :=
  fun w =>
    (r <- while1 (S (length (fp w))) copy_bars_body (BarsVars 0 0 0 0 0) ;;
     match r with
     | (Some x, _) => ret x
     | (None, v) =>
         printf "bars: %d words\n" [I (b_word_count v)] ;;
         ret 0
     end) w.

(** The conversion of a [uint32_t] to the [int] parameter of [write_gap]. *)
Definition s32 (z : Z) : Z := if z <? 2 ^ 31 then z else z - 2 ^ 32.

(** [for (int i = 0; i < length; i++) fputc(0, fp_out);] *)
Definition write_gap (length : Z) : M unit :=
  fun w =>
    (Ret tt,
     World (fp w) (fp_out w ++ repeat (byte.of_Z 0) (Z.to_nat length))
       (stdout w)).

(** One turn of [while (voice <= 4)]. *)
Definition main_body (tempo gap_length : Z) (voice : Z) : M (ctl Z) :=
  if negb (voice <=? 4) then ret (Break voice)
  else
    when (voice >? 1) (puts "\n") ;;
    printf "VOICE %d" [I voice] ;;
    n <- copy_notes tempo ;;
    if n =? EOF then ret (Return 1 voice)
    else
      p <- peek_gap ;;
      let '(res, inner_gap_length) := p in
      if res =? u32 EOF then ret (Return 1 voice)
      else
        write_gap (s32 inner_gap_length) ;;
        printf "inner gap: %d frames\n" [I inner_gap_length] ;;
        b <- copy_bars ;;
        if b =? EOF then ret (Break voice)
        else
          write_gap gap_length ;;
          ret (Continue (u8 (voice + 1))).

(** [main] on opened files: [argc], and what [atoi] gives for [argv[3]]
    and [argv[4]]. The value is the exit status. *)
Definition main (argc atoi3 atoi4 : Z) : M Z :=
  if (argc <? 3) || (argc >? 5) then ret 1
  else
    let tempo := if argc =? 4 then u32 atoi3 else u32 (-1) in
    let gap_length := if argc =? 5 then atoi4 else DEFAULT_GAP_LENGTH in
    p <- peek_gap ;;
    let '(res, gap_frames_in) := p in
    if res =? u32 EOF then ret 1
    else
      printf "[leader: %d frames]\n" [I gap_frames_in] ;;
      write_gap (s32 gap_frames_in) ;;
      r <- while1 5 (main_body tempo gap_length) 1 ;;
      match r with
      | (Some x, _) => ret x
      | (None, _) =>
          p <- peek_gap ;;
          let '(res, trailer_length) := p in
          if negb (res =? u32 EOF) then ret 1
          else
            write_gap (s32 trailer_length) ;;
            printf "trailer: %d frames\n" [I trailer_length] ;;
            ret 0
      end.

End Tweak.

(** ** ascii2fiodec.c

    The three blocks of [main]: the [-a] mode, FIODEC to ASCII, the [-f]
    mode, ASCII to FIODEC, and the dump of a tape image. [stdin] is the
    list of the bytes still to be read, [getchar] takes the head as an
    [int] from 0 to 255, [putchar] converts its argument to
    [unsigned char], and the output is the list of the bytes put or
    printed. *)

Module Ascii2fiodec.

Import Ascii.

(** A character constant of the source, as the [int] it is. *)
Definition ch (c : ascii) : Z := Z.of_N (N_of_ascii c).
Arguments ch c%_char.

(** [int upper[0100]] and [int lower[0100]]: 34 is the double quote, 9 is
    the tabulator, 8 the backspace. *)
Definition upper : list Z :=
  [ch " "; 34; ch "'"; ch "{"; ch "}"; ch "|"; ch "&"; ch "<";
   ch ">"; ch "!"; 0; ch "@"; 0; 0; 0; 0;
   ch ":"; ch "?"; ch "S"; ch "T"; ch "U"; ch "V"; ch "W"; ch "X";
   ch "Y"; ch "Z"; 0; ch "="; 0; 0; 9; 0;
   ch "_"; ch "J"; ch "K"; ch "L"; ch "M"; ch "N"; ch "O"; ch "P";
   ch "Q"; ch "R"; 0; 0; ch "+"; ch "]"; ch "%"; ch "[";
   0; ch "A"; ch "B"; ch "C"; ch "D"; ch "E"; ch "F"; ch "G";
   ch "H"; ch "I"; 0; ch "#"; 0; 8; 0; 0].

Definition lower : list Z :=
  [ch " "; ch "1"; ch "2"; ch "3"; ch "4"; ch "5"; ch "6"; ch "7";
   ch "8"; ch "9"; 0; ch "@"; 0; 0; 0; 0;
   ch "0"; ch "/"; ch "s"; ch "t"; ch "u"; ch "v"; ch "w"; ch "x";
   ch "y"; ch "z"; 0; ch ","; 0; 0; 9; 0;
   ch ";"; ch "j"; ch "k"; ch "l"; ch "m"; ch "n"; ch "o"; ch "p";
   ch "q"; ch "r"; 0; 0; ch "-"; ch ")"; ch "~"; ch "(";
   0; ch "a"; ch "b"; ch "c"; ch "d"; ch "e"; ch "f"; ch "g";
   ch "h"; ch "i"; 0; ch "."; 0; 8; 0; 0].

(** [for (v = ch, q = 0; v; v = v >> 1) if (v & 1) q++;], the loop of
    [putpar] and of the [-a] mode, on a value that is not negative: an
    [int] has 32 bits, and the value is 0 after at most 31 shifts. *)
Fixpoint count_ones (fuel : nat) (v : Z) : Z :=
  match fuel with
  | O => 0
  | S fuel' =>
      if v =? 0 then 0 else Z.land v 1 + count_ones fuel' (Z.shiftr v 1)
  end.

(** [putpar(ch)]: the byte it puts. 0200 = 0x80. *)
Definition putpar (ch : Z) : byte :=
  let q := count_ones 32 ch in
  byte.of_Z (if negb (Z.land q 1 =? 0) then ch else ch + 0x80).

(** One turn of the loop of the [-a] mode: [uc] after the turn and the
    bytes put. 0272 = 0xba, 0274 = 0xbc, 0277 = 0xbf, 0100 = 0x40,
    077 = 0x3f; 10 is the newline. The index is below 0100. *)
Definition ascii_turn (uc : bool) (c : Z) : bool * list byte :=
  if c =? 0xba then (false, [])
  else if c =? 0xbc then (true, [])
  else if c =? 0xbf then (uc, [byte.of_Z 10])
  else
    let nco := count_ones 32 c in
    if Z.land nco 1 =? 0 then (uc, [])
    else if negb (Z.land c 0x40 =? 0) then (uc, [])
    else
      let dot := nth (Z.to_nat (Z.land c 0x3f)) (if uc then upper else lower) 0 in
      if negb (dot =? 0) then (uc, [byte.of_Z dot]) else (uc, []).

(** [for (c = getchar(); c != EOF; c = getchar())] of the [-a] mode. *)
Fixpoint ascii_loop (uc : bool) (stdin : list byte) : list byte :=
  match stdin with
  | [] => []
  | b :: stdin' =>
      let '(uc', put) := ascii_turn uc (byte.unsigned b) in
      (put ++ ascii_loop uc' stdin')%list
  end.

(** The [if (ascii)] block of [main]: what it puts; it returns 0. *)
Definition ascii_mode (stdin : list byte) : list byte := ascii_loop false stdin.

(** How [for (i = 0; i < 100; i++)] of the [-f] mode ends. *)
Inductive found : Type :=
| InUpper (i : Z)
| InLower (i : Z)
| NotFound
| Outside (i : Z).

(** The search of the [-f] mode from index [i] on, [fuel] being [100 - i]:
    the bound of the loop is 100 in decimal and the tables have 0100 = 64
    entries, so the turn with index 64 reads outside of [upper]. The
    search is followed up to that access, [Outside]; what the program does
    after it is not defined by C. *)
Fixpoint find (c : Z) (fuel : nat) (i : Z) : found :=
  match fuel with
  | O => NotFound
  | S fuel' =>
      match upper !! Z.to_nat i with
      | None => Outside i
      | Some u =>
          if c =? u then InUpper i
          else
            match lower !! Z.to_nat i with
            | None => Outside i
            | Some l => if c =? l then InLower i else find c fuel' (i + 1)
            end
      end
  end.

(** One turn of the loop of the [-f] mode: [uc] after the turn and the
    bytes put, or the access outside the tables. 0200 = 0x80,
    0236 = 0x9e, 0277 = 0xbf, 0274 = 0xbc, 0272 = 0xba. *)
Definition fiodec_turn (uc : bool) (c : Z) : bool * list byte + fault :=
  if c =? ch " " then inl (uc, [byte.of_Z 0x80])
  else if c =? 9 then inl (uc, [byte.of_Z 0x9e])
  else if c =? 10 then inl (uc, [byte.of_Z 0xbf])
  else
    match find c 100 0 with
    | InUpper i =>
        inl (true, ((if uc then [] else [byte.of_Z 0xbc]) ++ [putpar i])%list)
    | InLower i =>
        inl (false, ((if uc then [byte.of_Z 0xba] else []) ++ [putpar i])%list)
    | NotFound => inl (uc, [])
    | Outside i => inr (OutOfBounds i)
    end.

(** [for (c = getchar(); c != EOF; c = getchar())] of the [-f] mode: the
    bytes put, and [None] when the text has been read to its end with no
    access outside the tables. Otherwise the value is the first such
    access with the bytes put before it; the run is not followed further,
    and nothing is said of what the program puts after it. *)
Fixpoint fiodec_loop (uc : bool) (stdin : list byte)
  : list byte * option fault :=
  match stdin with
  | [] => ([], None)
  | b :: stdin' =>
      match fiodec_turn uc (byte.unsigned b) with
      | inl (uc', put) =>
          let '(out, o) := fiodec_loop uc' stdin' in ((put ++ out)%list, o)
      | inr f => ([], Some f)
      end
  end.

(** The [if (fiodec)] block of [main]: the stop code 013 = 0xb follows the
    converted text, and it returns 0; after an access outside the tables
    the value is that of [fiodec_loop]. *)
Definition fiodec_mode (stdin : list byte) : list byte * option fault :=
  let '(out, o) := fiodec_loop false stdin in
  match o with
  | None => ((out ++ [byte.of_Z 0xb])%list, None)
  | Some f => (out, Some f)
  end.

(** [newlin(skip)]: the newlines it prints, [skip + 1] of them, and one
    when [skip] is negative. *)
Definition newlin (skip : Z) : list byte :=
  repeat (byte.of_Z 10) (S (Z.to_nat skip)).

(** [printf("%06o", val)] for a value from 0 to 0777777, which has six
    octal digits; 48 is the digit 0. *)
Definition printf_06o (val : Z) : list byte :=
  map (fun k => byte.of_Z (48 + (val / 8 ^ k) mod 8)) [5; 4; 3; 2; 1; 0].

(** The variables of the dump that a turn of its loop reads. *)
Record dump_vars : Type := DumpVars {
  d_cyc : Z;
  d_val : Z;
  d_nco : Z;
  d_dot : Z
}.

(** One turn of the loop of the dump on the byte [c]: the variables after
    the turn and what is printed. 0200 = 0x80, 0100 = 0x40; 46 is the
    full stop, 32 the blank. [val] stays below 01000000, being reset after
    three frames of six bits; [col * 8] is the product of the integers,
    which it is in C for a [col] between [-2^28] and [2^28]. *)
Definition dump_turn (col skp : Z) (v : dump_vars) (c : Z)
  : dump_vars * list byte :=
  if c <? 0x80 then
    let '(nco, out) :=
      if d_dot v <? 0 then (0, newlin skp) else (d_nco v, []) in
    let nco := nco + 1 in
    if nco >? col * 8 then
      (DumpVars (d_cyc v) (d_val v) 0 0,
       (out ++ [byte.of_Z 46] ++ newlin skp)%list)
    else (DumpVars (d_cyc v) (d_val v) nco 1, (out ++ [byte.of_Z 46])%list)
  else if negb (Z.land c 0x40 =? 0) then (v, [])
  else
    let '(nco, out) :=
      if d_dot v >? 0 then (0, newlin skp) else (d_nco v, []) in
    let val := Z.lor (Z.shiftl (d_val v) 6) (c - 0x80) in
    let cyc := d_cyc v + 1 in
    if cyc >=? 3 then
      let nco := nco + 1 in
      if nco >? col then
        (DumpVars 0 0 0 0, (out ++ printf_06o val ++ newlin skp)%list)
      else
        (DumpVars 0 0 nco (-1),
         (out ++ printf_06o val ++ [byte.of_Z 32; byte.of_Z 32])%list)
    else (DumpVars cyc val nco (-1), out).

(** The loop of the dump, up to [EOF]. *)
Fixpoint dump_loop (col skp : Z) (v : dump_vars) (stdin : list byte)
  : list byte :=
  match stdin with
  | [] => []
  | b :: stdin' =>
      let '(v', out) := dump_turn col skp v (byte.unsigned b) in
      (out ++ dump_loop col skp v' stdin')%list
  end.

(** The last block of [main]: what it prints; it returns 0. *)
Definition dump_mode (col skp : Z) (stdin : list byte) : list byte :=
  dump_loop col skp (DumpVars 0 0 0 0) stdin.

(** [main] after the loop over its arguments has set the flags [ascii] and
    [fiodec] and the numbers [col] and [skp] (8 and 1 when they are not
    given): what is written to the standard output, with [None], and the
    exit status is 0; or the first access outside the tables of the [-f]
    mode with what was written before it. *)
Definition main (ascii fiodec : bool) (col skp : Z) (stdin : list byte)
  : list byte * option fault :=
  if ascii then (ascii_mode stdin, None)
  else if fiodec then fiodec_mode stdin
  else (dump_mode col skp stdin, None).

End Ascii2fiodec.

(** ** Vocabulary of the statements *)

(** A frame with the marker bit 0200 is a data frame, any other is blank. *)
Definition is_data_frame (b : byte) : bool :=
  negb (Z.land (byte.unsigned b) 0x80 =? 0).

Definition word18 (z : Z) : Prop := 0 <= z < 2 ^ 18.

(** The frames [ppb] appends to the output file for one word. *)
Definition ppb_frames (word : Z) : list byte :=
  fp_out (snd (Tweak.ppb word (World [] [] []))).

(** The checksum accumulated over the data words of a section. *)
Definition checksum_from (acc : Z) (words : list Z) : Z :=
  fold_left add_1s_complement words acc.

Definition checksum_of (words : list Z) : Z := checksum_from 0 words.

Definition sumZ (words : list Z) : Z := fold_right Z.add 0 words.

(** The blank frames of a stream, counted by the number of data frames
    that occur before each of them: [seen] is that number at the head of
    [f], [sel] chooses the numbers that count. *)
Fixpoint count_blanks (sel : nat -> bool) (seen : nat) (f : list byte) : nat :=
  match f with
  | [] => O
  | b :: f' =>
      if is_data_frame b then count_blanks sel (S seen) f'
      else ((if sel seen then 1 else 0) + count_blanks sel seen f')%nat
  end.

(** Blank frames strictly before any data frame. *)
Definition gap_frames_of (f : list byte) : nat :=
  count_blanks (fun seen => (seen =? 0)%nat) 0 f.

(** Blank frames after the first and before the third data frame. *)
Definition inner_frames_of (f : list byte) : nat :=
  count_blanks (fun seen => (1 <=? seen)%nat && (seen <? 3)%nat) 0 f.

(** The next word of a stream as both programs accept it: three data
    frames with no blank among them, with the number of blank frames
    before it and the frames that follow. *)
Definition next_word (f : list byte) : option (Z * Z * list byte) :=
  let r := rpb_loop f 0 0 0 0 in
  if (rpb_inner_frames r =? 0) && negb (rpb_word r =? u32 EOF)
  then Some (rpb_gap_frames r, rpb_word r, rpb_fp r)
  else None.

(** The next [n] words, each with its gap, and the frames that follow. *)
Fixpoint words_of (n : nat) (f : list byte)
  : option (list (Z * Z) * list byte) :=
  match n with
  | O => Some ([], f)
  | S n' =>
      match next_word f with
      | Some (g, x, f') =>
          match words_of n' f' with
          | Some (ws, f'') => Some ((g, x) :: ws, f'')
          | None => None
          end
      | None => None
      end
  end.

(** A data word of a NOTES section as [copy_notes] writes it under a tempo
    override: a tempo word becomes 0700000 with the low 15 bits of the
    override, any other word is copied. *)
Definition retempo (tempo word : Z) : Z :=
  if Z.land word 0x38000 =? 0x38000
  then Z.lor 0x38000 (Z.land tempo 0x7fff)
  else word.

(** The ways [read_bars] ends the run without having compared a
    checksum: an [exit(1)] other than the checksum mismatch, or a fault. *)
Definition aborts_early {A : Type} (o : outcome A) : Prop :=
  match o with
  | Exit (ChecksumMismatchError _ _) => False
  | Exit _ => True
  | Fault _ => True
  | _ => False
  end.

(** A program that does not run out of fuel and does not move the input
    position backwards. *)
Definition bounded {A : Type} (m : M A) : Prop :=
  forall w, fst (m w) <> OutOfFuel /\
            (length (fp (snd (m w))) <= length (fp w))%nat.

(** A loop body that reads a word before it continues. *)
Definition advances {L : Type} (body : L -> M (ctl L)) : Prop :=
  forall l w,
    fst (body l w) <> OutOfFuel /\
    (length (fp (snd (body l w))) <= length (fp w))%nat /\
    (forall l', fst (body l w) = Ret (Continue l') ->
                (length (fp (snd (body l w))) < length (fp w))%nat).

(** The number of data frames of a stream. *)
Definition data_frames (f : list byte) : nat :=
  length (List.filter is_data_frame f).

(** A data word of a NOTES section as [copy_notes] writes it: as
    [retempo] under a tempo override, unchanged when [tempo] is the -1
    that stands for no override. *)
Definition written (tempo word : Z) : Z :=
  if tempo =? u32 (-1) then word else retempo tempo word.

(** The frames of a section in the form [ppb] writes it: count, data
    words, checksum word, with no blank frame. *)
Definition section_frames (words : list Z) : list byte :=
  flat_map ppb_frames (Z.of_nat (length words) :: words ++ [checksum_of words]).

(** A section as both programs accept it: the count word with the gap
    before it, as many data words as the count says, and a checksum word
    that is the checksum of the data words. The value is the gap, the data
    words and the frames after the checksum word. *)
Definition section_of (f : list byte) : option (Z * list Z * list byte) :=
  match next_word f with
  | Some (g, n, f1) =>
      match words_of (Z.to_nat n) f1 with
      | Some (data, f2) =>
          match next_word f2 with
          | Some (_, c, rest) =>
              if c =? checksum_of (map snd data)
              then Some (g, map snd data, rest)
              else None
          | None => None
          end
      | None => None
      end
  | None => None
  end.

(** A voice: the data words of its NOTES section, the gap before the count
    of its BARS section, the data words of its BARS section. *)
Record voice_data : Type := Voice {
  v_notes : list Z;
  v_inner_gap : Z;
  v_bars : list Z
}.

Definition voice_of (f : list byte) : option (voice_data * list byte) :=
  match section_of f with
  | Some (_, notes, f1) =>
      match section_of f1 with
      | Some (g, bars, rest) =>
          if g =? 0 then None else Some (Voice notes g bars, rest)
      | None => None
      end
  | None => None
  end.

Fixpoint voices_of (k : nat) (f : list byte)
  : option (list voice_data * list byte) :=
  match k with
  | O => Some ([], f)
  | S k' =>
      match voice_of f with
      | Some (v, f1) =>
          match voices_of k' f1 with
          | Some (vs, rest) => Some (v :: vs, rest)
          | None => None
          end
      | None => None
      end
  end.

(** The blank frames [write_gap] writes for a gap counted by [rpb]. *)
Definition gap_bytes (gap_frames : Z) : list byte :=
  repeat (byte.of_Z 0) (Z.to_nat (Tweak.s32 gap_frames)).

(** A voice as tweak.c writes it. *)
Definition voice_frames (tempo : Z) (v : voice_data) : list byte :=
  section_frames (map (written tempo) (v_notes v))
  ++ gap_bytes (v_inner_gap v)
  ++ section_frames (v_bars v).

(** Voices as tweak.c writes them when the stream ends after the last of
    them: [gap_length] blank frames between two voices. *)
Fixpoint voices_frames (tempo gap_length : Z) (vs : list voice_data) : list byte :=
  match vs with
  | [] => []
  | v :: vs' =>
      voice_frames tempo v
      ++ match vs' with
         | [] => []
         | _ :: _ =>
             repeat (byte.of_Z 0) (Z.to_nat gap_length)
             ++ voices_frames tempo gap_length vs'
         end
  end.

(** The data words of a NOTES section that [read_notes] prints and goes
    on: no division by zero and no articulation that is refused. The
    outcome of [read_notes_word] does not depend on the state. *)
Definition decodable (word : Z) : bool :=
  match fst (Decodehcint.read_notes_word word (World [] [] [])) with
  | Ret _ => true
  | _ => false
  end.

(** A program that never reads or writes outside the notes buffer. *)
Definition in_bounds {A : Type} (m : M A) : Prop :=
  forall w i, fst (m w) <> Fault (OutOfBounds i).

(** What holds of the variables of [read_notes] between two turns when
    the count of the section is at most the length of the buffer. *)
Definition notes_fit (v : Decodehcint.notes_vars) (w : world) : Prop :=
  (Decodehcint.n_part_word_count v = 0 /\
   forall g n f',
     next_word (fp w) = Some (g, n, f') ->
     n <= Z.of_nat (length (Decodehcint.n_notes v))) \/
  (1 <= Decodehcint.n_part_word_count v
   <= Decodehcint.n_total_word_count v + 1 /\
   Decodehcint.n_total_word_count v
   <= Z.of_nat (length (Decodehcint.n_notes v)) /\
   Decodehcint.n_total_word_count v < 2 ^ 18).

(** A byte with an odd number of ones, counted as [putpar] counts. *)
Definition odd_parity (b : byte) : bool :=
  negb (Z.land (Ascii2fiodec.count_ones 32 (byte.unsigned b)) 1 =? 0).

(** The characters the [-f] mode converts: blank, tabulator, newline and
    the entries of the two tables. *)
Definition known (c : Z) : bool :=
  (c =? 32) || (c =? 9) || (c =? 10)
  || existsb (Z.eqb c) Ascii2fiodec.upper
  || existsb (Z.eqb c) Ascii2fiodec.lower.

(** What the dump prints for words that follow each other with no blank
    frame: each word in octal, two blanks after it, or the newlines of
    [newlin] when the word is the one after [col] words on the line. [nco]
    is the number of words already on the line. *)
Fixpoint dump_words (col skp nco : Z) (words : list Z) : list byte :=
  match words with
  | [] => []
  | x :: words' =>
      (Ascii2fiodec.printf_06o x
       ++ (if nco + 1 >? col
           then Ascii2fiodec.newlin skp ++ dump_words col skp 0 words'
           else [byte.of_Z 32; byte.of_Z 32]
                ++ dump_words col skp (nco + 1) words'))%list
  end.

(** A voice after [copy_notes] has replaced its tempo words. *)
Definition written_voice (tempo : Z) (v : voice_data) : voice_data :=
  Voice (map (written tempo) (v_notes v)) (v_inner_gap v) (v_bars v).

(** A voice whose sections and inner gap can be written and read back:
    18-bit words, 18-bit counts, and an inner gap that [write_gap] takes as
    a positive [int]. *)
Definition writable (v : voice_data) : Prop :=
  Forall word18 (v_notes v) /\ word18 (Z.of_nat (length (v_notes v))) /\
  Forall word18 (v_bars v) /\ word18 (Z.of_nat (length (v_bars v))) /\
  0 < v_inner_gap v < 2 ^ 31.

(** * Properties *)

(** ** The octal literals of the sources *)

Lemma octal_literals :
  octal 200 = 0x80 /\ octal 100 = 0x40 /\ octal 77 = 0x3f /\
  octal 770000 = 0x3f000 /\ octal 7700 = 0xfc0 /\
  octal 777777 = 0x3ffff /\ octal 700000 = 0x38000 /\
  octal 600000 = 0x30000 /\ octal 77777 = 0x7fff /\ octal 177 = 0x7f /\
  octal 14 = 0xc /\ octal 60000 = 0x6000 /\ octal 100000 = 0x8000 /\
  octal 700144 = 0x38064 /\ octal 60001 = 0x6001 /\ octal 60401 = 0x6101.
Proof. vm_compute. repeat split; reflexivity. Qed.

(** ** Machine arithmetic *)

Lemma u32_small (z : Z) : 0 <= z < 2 ^ 32 -> u32 z = z.
Proof. intros H. unfold u32. apply Z.mod_small. exact H. Qed.

Lemma u32_range (z : Z) : 0 <= u32 z < 2 ^ 32.
Proof. unfold u32. apply Z.mod_pos_bound. reflexivity. Qed.

Lemma land_low6 (z : Z) : Z.land z 0x3f = z mod 64.
Proof. change 0x3f with (Z.ones 6). rewrite Z.land_ones by lia. reflexivity. Qed.

Lemma small_bits_false (c k n : Z) :
  0 <= c < 2 ^ k -> 0 <= k <= n -> Z.testbit c n = false.
Proof.
  intros Hc Hk.
  destruct (Z.eq_dec c 0) as [-> | Hne]; [apply Z.bits_0 |].
  apply Z.bits_above_log2; [lia |].
  apply Z.log2_lt_pow2; [lia |].
  apply Z.lt_le_trans with (2 ^ k); [lia |].
  apply Z.pow_le_mono_r; lia.
Qed.

Lemma lor_disjoint (a b : Z) : Z.land a b = 0 -> Z.lor a b = a + b.
Proof. intros H. pose proof (Z.add_lor_land a b) as E. rewrite H in E. lia. Qed.

Lemma land_shiftl_small (x c k : Z) :
  0 <= k -> 0 <= c < 2 ^ k -> Z.land (Z.shiftl x k) c = 0.
Proof.
  intros Hk Hc. apply Z.bits_inj'. intros n Hn.
  rewrite Z.land_spec, Z.bits_0.
  destruct (Z.lt_ge_cases n k) as [Hlt | Hge].
  - rewrite Z.shiftl_spec_low by lia. reflexivity.
  - rewrite (small_bits_false c k n) by lia. apply andb_false_r.
Qed.

Lemma lor_shiftl (x c k : Z) :
  0 <= k -> 0 <= c < 2 ^ k -> Z.lor (Z.shiftl x k) c = x * 2 ^ k + c.
Proof.
  intros Hk Hc. rewrite lor_disjoint by (apply land_shiftl_small; lia).
  rewrite Z.shiftl_mul_pow2 by lia. reflexivity.
Qed.

(** One data frame more in the word that [rpb] assembles. *)
Lemma rpb_accumulate (x c : Z) :
  0 <= x < 2 ^ 12 -> 0 <= c < 64 ->
  Z.lor (u32 (Z.shiftl x 6)) c = x * 64 + c.
Proof.
  intros Hx Hc. rewrite (Z.shiftl_mul_pow2 x 6) by lia.
  rewrite u32_small by lia. rewrite <- Z.shiftl_mul_pow2 by lia.
  rewrite (lor_shiftl x c 6) by lia. reflexivity.
Qed.

(** A data frame as [ppb] writes it: marker bit over a six bit payload. *)
Lemma marker_lor (a : Z) : 0 <= a < 64 -> Z.lor 0x80 a = 128 + a.
Proof.
  intros Ha. change 0x80 with (Z.shiftl 1 7).
  rewrite (lor_shiftl 1 a 7) by lia. reflexivity.
Qed.

Lemma marker_frame (a : Z) :
  0 <= a < 64 ->
  let c := byte.unsigned (byte.of_Z (Z.lor 0x80 a)) in
  (Z.land c 0x80 =? 0) = false /\ Z.land c 0x3f = a.
Proof.
  intros Ha c. subst c. rewrite byte.unsigned_of_Z. unfold byte.wrap.
  rewrite marker_lor by lia. rewrite Z.mod_small by lia. split.
  - apply Z.eqb_neq. change 0x80 with (Z.shiftl 1 7) at 2.
    change 128 with (Z.shiftl 1 7).
    intros E. pose proof (Z.add_lor_land (Z.shiftl 1 7) a) as L.
    assert (Hb : Z.testbit (Z.land (Z.shiftl 1 7 + a) (Z.shiftl 1 7)) 7 = true).
    { rewrite Z.land_spec. rewrite <- L.
      rewrite (land_shiftl_small 1 a 7) by lia. rewrite Z.add_0_r.
      rewrite Z.lor_spec. replace (Z.testbit (Z.shiftl 1 7) 7) with true by reflexivity.
      reflexivity. }
    rewrite E in Hb. rewrite Z.bits_0 in Hb. discriminate.
  - rewrite land_low6. replace (128 + a) with (a + 2 * 64) by lia.
    rewrite Z.mod_add by lia. apply Z.mod_small. lia.
Qed.

Lemma ppb_frames_eq (word : Z) :
  ppb_frames word =
  [byte.of_Z (Z.lor 0x80 (Z.shiftr (Z.land word 0x3f000) 12));
   byte.of_Z (Z.lor 0x80 (Z.shiftr (Z.land word 0xfc0) 6));
   byte.of_Z (Z.lor 0x80 (Z.land word 0x3f))].
Proof. reflexivity. Qed.

Lemma ppb_appends (word : Z) (w : world) :
  Tweak.ppb word w = (Ret tt, World (fp w) (fp_out w ++ ppb_frames word) (stdout w)).
Proof.
  rewrite ppb_frames_eq. unfold Tweak.ppb, bind, putc. cbn [fp fp_out stdout].
  rewrite <- !app_assoc. reflexivity.
Qed.

Lemma ppb_groups (word : Z) :
  Z.shiftr (Z.land word 0x3f000) 12 = (word / 4096) mod 64 /\
  Z.shiftr (Z.land word 0xfc0) 6 = (word / 64) mod 64 /\
  Z.land word 0x3f = word mod 64.
Proof.
  repeat split.
  - rewrite Z.shiftr_land. change (Z.shiftr 0x3f000 12) with 0x3f.
    rewrite land_low6, Z.shiftr_div_pow2 by lia. reflexivity.
  - rewrite Z.shiftr_land. change (Z.shiftr 0xfc0 6) with 0x3f.
    rewrite land_low6, Z.shiftr_div_pow2 by lia. reflexivity.
  - apply land_low6.
Qed.

(** C1. For every 18-bit word, the three frames that [ppb] writes are read
    back by [rpb] as the same word, with no gap frame and no inner frame,
    and the read stops right after them. *)
Theorem ppb_rpb_roundtrip (word : Z) (rest out : list byte)
  (so : list (string * list arg)) :
  0 <= word < 2 ^ 18 ->
  (forall b, In b (ppb_frames word) -> is_data_frame b = true) /\
  rpb (World (ppb_frames word ++ rest) out so) =
    (Ret (word, 0, 0), World rest out so).
Proof.
  intros Hw.
  destruct (ppb_groups word) as (Ea & Eb & Ec).
  set (a := (word / 4096) mod 64) in *.
  set (b := (word / 64) mod 64) in *.
  set (c := word mod 64) in *.
  assert (Ha : 0 <= a < 64) by (apply Z.mod_pos_bound; lia).
  assert (Hb : 0 <= b < 64) by (apply Z.mod_pos_bound; lia).
  assert (Hc : 0 <= c < 64) by (apply Z.mod_pos_bound; lia).
  destruct (marker_frame a Ha) as (Ma & Pa).
  destruct (marker_frame b Hb) as (Mb & Pb).
  destruct (marker_frame c Hc) as (Mc & Pc).
  rewrite ppb_frames_eq, Ea, Eb, Ec. split.
  - intros x [<- | [<- | [<- | []]]]; unfold is_data_frame;
      [rewrite Ma | rewrite Mb | rewrite Mc]; reflexivity.
  - unfold rpb. cbn [fp fp_out stdout app rpb_loop].
    rewrite Ma, Mb, Mc, Pa, Pb, Pc. cbn [negb Nat.ltb Nat.leb].
    cbn [rpb_word rpb_gap_frames rpb_inner_frames rpb_fp].
    assert (E : Z.lor (u32 (Z.shiftl (Z.lor (u32 (Z.shiftl
                  (Z.lor (u32 (Z.shiftl 0 6)) a) 6)) b) 6)) c = word).
    { rewrite (rpb_accumulate 0 a), (rpb_accumulate _ b),
        (rpb_accumulate _ c) by lia.
      subst a b c.
      pose proof (Z.div_mod word 64 ltac:(lia)) as D1.
      pose proof (Z.div_mod (word / 64) 64 ltac:(lia)) as D2.
      assert (D3 : word / 4096 = word / 64 / 64)
        by (rewrite Z.div_div by lia; reflexivity).
      assert (D4 : (word / 4096) mod 64 = word / 4096).
      { apply Z.mod_small. split; [apply Z.div_pos; lia |].
        apply Z.div_lt_upper_bound; lia. }
      rewrite D4. lia. }
    rewrite E. reflexivity.
Qed.

(** The tempo word 0700144. *)
Lemma ppb_rpb_roundtrip_witness :
  0 <= 0x38064 < 2 ^ 18 /\
  rpb (World (ppb_frames 0x38064 ++ []) [] [])
  = (Ret (0x38064, 0, 0), World [] [] []).
Proof.
  assert (H : 0 <= 0x38064 < 2 ^ 18) by lia.
  split; [exact H |].
  exact (proj2 (ppb_rpb_roundtrip 0x38064 [] [] [] H)).
Defined.

(** ** The end-around-carry checksum *)

(** On 18-bit operands the sum is reduced by [2^18 - 1] at most once. *)
Lemma add_1s_complement_cases (a b : Z) :
  word18 a -> word18 b ->
  (a + b < 2 ^ 18 /\ add_1s_complement a b = a + b) \/
  (2 ^ 18 <= a + b /\ add_1s_complement a b = a + b - (2 ^ 18 - 1)).
Proof.
  unfold word18. intros Ha Hb. unfold add_1s_complement.
  rewrite (u32_small (a + b)) by lia.
  change 0x3ffff with (Z.ones 18).
  rewrite !Z.land_ones by lia. rewrite Z.shiftr_div_pow2 by lia.
  destruct (Z_lt_ge_dec (a + b) (2 ^ 18)) as [Hlt | Hge].
  - left. split; [exact Hlt |].
    rewrite (Z.mod_small (a + b)) by lia.
    rewrite (Z.div_small (a + b)) by lia.
    rewrite Z.add_0_r. rewrite u32_small by lia.
    apply Z.mod_small. lia.
  - right. split; [lia |].
    assert (Hq : (a + b) / 2 ^ 18 = 1).
    { symmetry. apply (Z.div_unique (a + b) (2 ^ 18) 1 (a + b - 2 ^ 18)); lia. }
    assert (Hr : (a + b) mod 2 ^ 18 = a + b - 2 ^ 18).
    { symmetry. apply (Z.mod_unique (a + b) (2 ^ 18) 1); lia. }
    rewrite Hq, Hr. rewrite u32_small by lia.
    rewrite Z.mod_small by lia. lia.
Qed.

Lemma add_1s_complement_word18 (a b : Z) :
  word18 a -> word18 b -> word18 (add_1s_complement a b).
Proof.
  intros Ha Hb.
  destruct (add_1s_complement_cases a b Ha Hb) as [[H E] | [H E]];
    rewrite E; unfold word18 in *; lia.
Qed.

Lemma checksum_from_word18 (words : list Z) (acc : Z) :
  word18 acc -> Forall word18 words -> word18 (checksum_from acc words).
Proof.
  intros Hacc Hws. revert acc Hacc.
  induction Hws as [| x l Hx Hl IH]; intros acc Hacc; cbn.
  - exact Hacc.
  - apply IH. apply add_1s_complement_word18; assumption.
Qed.

(** The checksum is the plain sum, less a multiple of [2^18 - 1]. *)
Lemma checksum_from_sum (words : list Z) (acc : Z) :
  word18 acc -> Forall word18 words ->
  exists k : Z, checksum_from acc words = acc + sumZ words - k * (2 ^ 18 - 1).
Proof.
  intros Hacc Hws. revert acc Hacc.
  induction Hws as [| x l Hx Hl IH]; intros acc Hacc; cbn.
  - exists 0. lia.
  - destruct (IH (add_1s_complement acc x)
                (add_1s_complement_word18 acc x Hacc Hx)) as [k Ek].
    unfold checksum_from in Ek. rewrite Ek. fold (sumZ l).
    destruct (add_1s_complement_cases acc x Hacc Hx) as [[H E] | [H E]];
      rewrite E.
    + exists k. lia.
    + exists (k + 1). lia.
Qed.

Lemma checksum_from_app (l1 l2 : list Z) (acc : Z) :
  checksum_from acc (l1 ++ l2) = checksum_from (checksum_from acc l1) l2.
Proof. unfold checksum_from. apply fold_left_app. Qed.

(** Two 18-bit words that give the same checksum after the same prefix and
    before the same suffix differ by a multiple of [2^18 - 1]. *)
Lemma checksum_collision (l1 l2 : list Z) (x y : Z) :
  Forall word18 l1 -> Forall word18 l2 -> word18 x -> word18 y ->
  checksum_of (l1 ++ x :: l2) = checksum_of (l1 ++ y :: l2) ->
  x = y \/ (x = 0 /\ y = 0x3ffff) \/ (x = 0x3ffff /\ y = 0).
Proof.
  intros H1 H2 Hx Hy E. unfold checksum_of in E.
  rewrite !checksum_from_app in E. cbn in E.
  assert (H0 : word18 0) by (unfold word18; lia).
  pose proof (checksum_from_word18 l1 0 H0 H1) as Hacc.
  set (acc := checksum_from 0 l1) in *.
  fold (checksum_from (add_1s_complement acc x) l2) in E.
  fold (checksum_from (add_1s_complement acc y) l2) in E.
  destruct (checksum_from_sum l2 _ (add_1s_complement_word18 acc x Hacc Hx) H2)
    as [kx Ex].
  destruct (checksum_from_sum l2 _ (add_1s_complement_word18 acc y Hacc Hy) H2)
    as [ky Ey].
  rewrite Ex, Ey in E. unfold word18 in *.
  destruct (add_1s_complement_cases acc x Hacc Hx) as [[Hcx Ecx] | [Hcx Ecx]];
  destruct (add_1s_complement_cases acc y Hacc Hy) as [[Hcy Ecy] | [Hcy Ecy]];
    rewrite Ecx, Ecy in E; change (2 ^ 18) with 262144 in *;
    change 0x3ffff with 262143; lia.
Qed.

Lemma verify_checksum_same (c : Z) (w : world) :
  fst (Decodehcint.verify_checksum c c w) = Ret tt.
Proof. unfold Decodehcint.verify_checksum. rewrite Z.eqb_refl. reflexivity. Qed.

Lemma verify_checksum_differ (expected calculated : Z) (w : world) :
  expected <> calculated ->
  fst (Decodehcint.verify_checksum expected calculated w)
  = Exit (ChecksumMismatchError expected calculated).
Proof.
  intros H. unfold Decodehcint.verify_checksum.
  apply Z.eqb_neq in H. rewrite H. reflexivity.
Qed.

(** C2, as stated, does not hold: after a nonzero prefix the two
    representations of zero, 0 and 0777777, are interchangeable. The tape
    words [1; 0] and [1; 0777777] have the same checksum, so the mutated
    section verifies against the original checksum. *)
Lemma checksum_mutation_undetected :
  let words := [1; 0] in
  let mutated := <[1%nat := 0x3ffff]> words in
  words !! 1%nat = Some 0 /\
  (0x3ffff =? 0) = false /\
  mutated = [1; 0x3ffff] /\
  checksum_of mutated = checksum_of words /\
  fst (Decodehcint.verify_checksum (checksum_of words) (checksum_of mutated)
         (World [] [] [])) = Ret tt.
Proof. vm_compute. repeat split; reflexivity. Qed.

(** C2, amended. Verifying the checksum of a section against itself
    succeeds; replacing one 18-bit data word by a different 18-bit word
    changes the checksum, and verification against the original checksum
    fails, unless the two words are the two representations of zero
    (0 and 0777777). *)
Theorem checksum_detects_mutation (words : list Z) (i : nat) (x y : Z)
  (w : world) :
  Forall word18 words ->
  words !! i = Some x ->
  word18 y ->
  y <> x ->
  ~ (x = 0 /\ y = 0x3ffff) ->
  ~ (x = 0x3ffff /\ y = 0) ->
  fst (Decodehcint.verify_checksum (checksum_of words) (checksum_of words) w)
    = Ret tt /\
  checksum_of (<[i := y]> words) <> checksum_of words /\
  fst (Decodehcint.verify_checksum (checksum_of words)
         (checksum_of (<[i := y]> words)) w)
    = Exit (ChecksumMismatchError (checksum_of words)
              (checksum_of (<[i := y]> words))).
Proof.
  intros Hws Hi Hy Hne H1 H2.
  assert (Hd : checksum_of (<[i := y]> words) <> checksum_of words).
  { pose proof (lookup_lt_Some _ _ _ Hi) as Hlen.
    rewrite insert_take_drop by exact Hlen.
    rewrite <- (take_drop_middle words i x Hi) at 3.
    intros E.
    assert (Hx : word18 x).
    { eapply Forall_lookup_1; [exact Hws | exact Hi]. }
    destruct (checksum_collision (take i words) (drop (S i) words) y x)
      as [? | [? | ?]]; auto using Forall_take, Forall_drop; tauto. }
  split; [apply verify_checksum_same |]. split; [exact Hd |].
  apply verify_checksum_differ. congruence.
Qed.

Lemma checksum_detects_mutation_witness :
  Forall word18 [1; 2; 3] /\ [1; 2; 3] !! 1%nat = Some 2 /\ word18 5 /\
  checksum_of (<[1%nat := 5]> [1; 2; 3]) <> checksum_of [1; 2; 3].
Proof.
  assert (H : Forall word18 [1; 2; 3])
    by (repeat constructor; unfold word18; lia).
  assert (H5 : word18 5) by (unfold word18; lia).
  split; [exact H |]. split; [reflexivity |]. split; [exact H5 |].
  apply (checksum_detects_mutation [1; 2; 3] 1%nat 2 5 (World [] [] []) H
           eq_refl H5); lia.
Defined.

(** ** The frame reader *)

Lemma count_blanks_done (sel : nat -> bool) (f : list byte) (seen : nat) :
  (forall d, (seen <= d)%nat -> sel d = false) -> count_blanks sel seen f = O.
Proof.
  revert seen. induction f as [| b f IH]; intros seen H; cbn.
  - reflexivity.
  - destruct (is_data_frame b).
    + apply IH. intros d Hd. apply H. lia.
    + rewrite (H seen) by lia. rewrite IH by exact H. reflexivity.
Qed.

Lemma u32_succ (g k : Z) : u32 (u32 (g + 1) + k) = u32 (g + (1 + k)).
Proof.
  unfold u32. rewrite Z.add_mod_idemp_l by lia. f_equal. lia.
Qed.

(** What the loop of [rpb] leaves in its two counters. *)
Lemma rpb_loop_counts (f : list byte) (i : nat) (word g n : Z) :
  (i < 3)%nat -> 0 <= g < 2 ^ 32 -> 0 <= n < 2 ^ 32 ->
  let r := rpb_loop f i word g n in
  rpb_gap_frames r
    = u32 (g + Z.of_nat (count_blanks (fun seen => (seen =? 0)%nat) i f)) /\
  rpb_inner_frames r
    = u32 (n + Z.of_nat
                 (count_blanks (fun seen => (1 <=? seen)%nat && (seen <? 3)%nat)
                    i f)).
Proof.
  set (selg := fun seen => (seen =? 0)%nat).
  set (seli := fun seen => (1 <=? seen)%nat && (seen <? 3)%nat).
  revert i word g n.
  induction f as [| b f IH]; intros i word g n Hi Hg Hn; cbn zeta.
  - cbn. rewrite !Z.add_0_r, !u32_small by lia. split; reflexivity.
  - cbn [rpb_loop count_blanks]. fold (is_data_frame b).
    destruct (is_data_frame b); cbn [negb].
    + destruct (Nat.ltb_spec (S i) 3) as [Hlt | Hge].
      * apply IH; assumption.
      * cbn [rpb_gap_frames rpb_inner_frames].
        rewrite !count_blanks_done.
        -- change (Z.of_nat 0) with 0.
           rewrite !Z.add_0_r. rewrite (u32_small g), (u32_small n) by lia.
           split; reflexivity.
        -- intros d Hd. apply andb_false_intro2. apply Nat.ltb_ge. lia.
        -- intros d Hd. apply Nat.eqb_neq. lia.
    + assert (Es : seli i = negb (selg i)).
      { unfold seli, selg. destruct i as [| [| [| i]]]; try lia; reflexivity. }
      rewrite Es. change (selg i) with (i =? 0)%nat.
      destruct (i =? 0)%nat eqn:Ei; cbn [negb].
      * destruct (IH i word (u32 (g + 1)) n Hi (u32_range _) Hn) as [Eg En].
        rewrite Eg, En. rewrite u32_succ. split; f_equal; lia.
      * destruct (IH i word g (u32 (n + 1)) Hi Hg (u32_range _)) as [Eg En].
        rewrite Eg, En. rewrite u32_succ. split; f_equal; lia.
Qed.

Lemma count_blanks_le (sel : nat -> bool) (f : list byte) (seen : nat) :
  (count_blanks sel seen f <= length f)%nat.
Proof.
  revert seen. induction f as [| b f IH]; intros seen; cbn.
  - lia.
  - destruct (is_data_frame b); [specialize (IH (S seen)); lia |].
    specialize (IH seen). destruct (sel seen); lia.
Qed.

Lemma read_next_word_inner (word_count peek : Z) (w : world) :
  rpb_inner_frames (rpb_loop (fp w) 0 0 0 0) <> 0 ->
  Decodehcint.read_next_word word_count peek w
  = (Exit (InnerDropoutError (rpb_inner_frames (rpb_loop (fp w) 0 0 0 0))
             word_count),
     World (rpb_fp (rpb_loop (fp w) 0 0 0 0)) (fp_out w) (stdout w)).
Proof.
  intros H. unfold Decodehcint.read_next_word, bind, rpb.
  apply Z.eqb_neq in H. rewrite H. reflexivity.
Qed.

(** C5. While [rpb] assembles one word it counts every blank frame that
    occurs before any data frame as a gap frame and every blank frame that
    occurs after the first and before the third data frame as an inner
    frame (the counters are [uint32_t]); whenever the inner counter is not
    zero, [read_next_word] ends the program with the inner dropout error,
    however many inner blanks there are and wherever they fall. *)
Theorem gap_classification (f out : list byte)
  (so : list (string * list arg)) (word_count peek : Z) :
  let r := rpb_loop f 0 0 0 0 in
  rpb_gap_frames r = u32 (Z.of_nat (gap_frames_of f)) /\
  rpb_inner_frames r = u32 (Z.of_nat (inner_frames_of f)) /\
  (rpb_inner_frames r <> 0 ->
   Decodehcint.read_next_word word_count peek (World f out so)
   = (Exit (InnerDropoutError (rpb_inner_frames r) word_count),
      World (rpb_fp r) out so)) /\
  (Z.of_nat (length f) < 2 ^ 32 -> inner_frames_of f <> O ->
   fst (Decodehcint.read_next_word word_count peek (World f out so))
   = Exit (InnerDropoutError (Z.of_nat (inner_frames_of f)) word_count)).
Proof.
  intros r.
  destruct (rpb_loop_counts f 0 0 0 0) as [Eg En]; try lia.
  cbn zeta in Eg, En. rewrite !Z.add_0_l in Eg, En.
  fold r in Eg, En. fold (gap_frames_of f) in Eg.
  fold (inner_frames_of f) in En.
  split; [exact Eg |]. split; [exact En |]. split.
  - intros H. apply (read_next_word_inner word_count peek (World f out so)).
    exact H.
  - intros Hlen Hpos.
    pose proof (count_blanks_le
                  (fun seen => (1 <=? seen)%nat && (seen <? 3)%nat) f 0) as Hle.
    fold (inner_frames_of f) in Hle.
    assert (E : rpb_inner_frames r = Z.of_nat (inner_frames_of f)).
    { rewrite En. apply u32_small. lia. }
    rewrite (read_next_word_inner word_count peek (World f out so)).
    + cbn [fst fp]. fold r. rewrite E. reflexivity.
    + cbn [fp]. fold r. rewrite E. lia.
Qed.

(** An inner blank between the second and the third data frame. *)
Lemma gap_classification_witness :
  let f := map byte.of_Z [0; 0x81; 0x82; 0; 0x83] in
  Z.of_nat (length f) < 2 ^ 32 /\ inner_frames_of f <> O /\
  fst (Decodehcint.read_next_word 7 0 (World f [] []))
  = Exit (InnerDropoutError 1 7).
Proof.
  intros f.
  assert (Hl : Z.of_nat (length f) < 2 ^ 32) by (vm_compute; reflexivity).
  assert (Hi : inner_frames_of f <> O) by (vm_compute; discriminate).
  split; [exact Hl |]. split; [exact Hi |].
  exact (proj2 (proj2 (proj2 (gap_classification f [] [] 7 0))) Hl Hi).
Defined.

(** ** The frame writer *)

Lemma land_marker (a : Z) (k : Z) :
  0 <= k -> 0 <= a < 2 ^ k ->
  Z.land a (Z.shiftl 1 k) = 0.
Proof.
  intros Hk Ha. rewrite Z.land_comm. apply land_shiftl_small; lia.
Qed.

Lemma frame_bits (a : Z) :
  0 <= a < 64 ->
  let c := byte.unsigned (byte.of_Z (Z.lor 0x80 a)) in
  Z.land c 0x80 = 0x80 /\ Z.land c 0x40 = 0.
Proof.
  intros Ha c. subst c. rewrite byte.unsigned_of_Z. unfold byte.wrap.
  rewrite (Z.mod_small (Z.lor 0x80 a)) by (rewrite marker_lor; lia).
  rewrite !Z.land_lor_distr_l.
  change (Z.land 0x80 0x80) with 0x80. change (Z.land 0x80 0x40) with 0.
  change 0x80 with (Z.shiftl 1 7) at 2. change 0x40 with (Z.shiftl 1 6).
  rewrite (land_marker a 7), (land_marker a 6) by lia.
  split; reflexivity.
Qed.

(** Frames that agree outside the bit 0100 are the same to [rpb]. *)
Lemma frame_seventh_bit_ignored (b1 b2 : byte) :
  Z.land (byte.unsigned b1) 0xbf = Z.land (byte.unsigned b2) 0xbf ->
  Z.land (byte.unsigned b1) 0x80 = Z.land (byte.unsigned b2) 0x80 /\
  Z.land (byte.unsigned b1) 0x3f = Z.land (byte.unsigned b2) 0x3f.
Proof.
  intros H. split.
  - change 0x80 with (Z.land 0xbf 0x80). rewrite !Z.land_assoc, H. reflexivity.
  - change 0x3f with (Z.land 0xbf 0x3f). rewrite !Z.land_assoc, H. reflexivity.
Qed.

(** C6, as stated, does not hold: the three frames that [ppb] writes
    for the word 0 are 0200, with the bit 0100 clear. *)
Lemma ppb_seventh_bit_clear :
  map byte.unsigned (ppb_frames 0) = [0x80; 0x80; 0x80] /\
  map (fun b => Z.land (byte.unsigned b) 0x40) (ppb_frames 0) = [0; 0; 0].
Proof. vm_compute. split; reflexivity. Qed.

(** C6, amended. Every frame that [ppb] writes has the marker bit 0200 set
    and the bit 0100 clear; [rpb] does not look at the bit 0100: on two
    streams whose first frames agree on every other bit it does the
    same. *)
Theorem seventh_bit (word : Z) (b1 b2 : byte) (f : list byte) (i : nat)
  (acc g n : Z) :
  Z.land (byte.unsigned b1) 0xbf = Z.land (byte.unsigned b2) 0xbf ->
  Forall (fun b => Z.land (byte.unsigned b) 0x80 = 0x80 /\
                   Z.land (byte.unsigned b) 0x40 = 0) (ppb_frames word) /\
  rpb_loop (b1 :: f) i acc g n = rpb_loop (b2 :: f) i acc g n.
Proof.
  intros H. split.
  - destruct (ppb_groups word) as (Ea & Eb & Ec).
    rewrite ppb_frames_eq, Ea, Eb, Ec.
    repeat constructor; apply frame_bits; apply Z.mod_pos_bound; lia.
  - destruct (frame_seventh_bit_ignored b1 b2 H) as [Em Ep].
    cbn [rpb_loop]. rewrite Em, Ep. reflexivity.
Qed.

(** The payload 052 with and without the bit 0100. *)
Lemma seventh_bit_witness :
  let b1 := byte.of_Z 0xaa in
  let b2 := byte.of_Z 0xea in
  Z.land (byte.unsigned b1) 0xbf = Z.land (byte.unsigned b2) 0xbf /\
  rpb_loop [b1; b1; b1] 0 0 0 0 = rpb_loop [b2; b1; b1] 0 0 0 0.
Proof.
  intros b1 b2.
  assert (H : Z.land (byte.unsigned b1) 0xbf = Z.land (byte.unsigned b2) 0xbf)
    by (vm_compute; reflexivity).
  split; [exact H |].
  exact (proj2 (seventh_bit 0 b1 b2 [b1; b1] 0 0 0 0 H)).
Defined.

(** ** Notes and tempo words *)

Lemma land_low7 (z : Z) : Z.land z 0x7f = z mod 128.
Proof. change 0x7f with (Z.ones 7). rewrite Z.land_ones by lia. reflexivity. Qed.

Lemma u8_small (z : Z) : 0 <= z < 2 ^ 8 -> u8 z = z.
Proof. intros H. unfold u8. apply Z.mod_small. exact H. Qed.

Lemma c_div_none (a b : Z) : c_div a b = None <-> b = 0.
Proof.
  unfold c_div. destruct (Z.eqb_spec b 0) as [E | E]; split; intros H;
    congruence.
Qed.

Lemma parse_note_none (word : Z) :
  Decodehcint.parse_note word = None <-> Z.land word 0x7f = 0.
Proof.
  unfold Decodehcint.parse_note.
  assert (Hd : u8 (Z.land word 0x7f) = Z.land word 0x7f).
  { apply u8_small. rewrite land_low7.
    pose proof (Z.mod_pos_bound word 128). lia. }
  rewrite Hd.
  set (k := if negb (u8 (Z.shiftr (Z.land word 0x8000) 15) =? 0) then 2 else 3).
  assert (Hk : k = 2 \/ k = 3) by (subst k; destruct (negb _); auto).
  destruct (c_div 192 (Z.land word 0x7f * k)) as [q |] eqn:E.
  - split.
    + destruct (_ >? 1); discriminate.
    + intros H0. rewrite H0 in E. cbn in E. discriminate.
  - split; [| reflexivity]. intros _. apply c_div_none in E. lia.
Qed.

Lemma decode_tempo_quarter_none (word : Z) :
  Decodehcint.decode_tempo_quarter word = None <-> Z.land word 0x7fff = 0.
Proof. unfold Decodehcint.decode_tempo_quarter. apply c_div_none. Qed.

(** C9. [parse_note] divides by zero exactly on the words whose low seven
    bits are zero and [decode_tempo_quarter] exactly on the words whose low
    fifteen bits are zero; no branch of [read_notes] guards the division,
    so a note word, respectively a tempo word, of that form takes the
    decoder to the division by zero. *)
Theorem division_by_zero (word : Z) (w : world) :
  (Decodehcint.parse_note word = None <-> Z.land word 0x7f = 0) /\
  (Decodehcint.decode_tempo_quarter word = None <-> Z.land word 0x7fff = 0) /\
  (word <> 0x30000 -> Z.land word 0x38000 <> 0x38000 ->
   Z.land word 0x7f = 0 ->
   Decodehcint.read_notes_word word w = (Fault DivisionByZero, w)) /\
  (Z.land word 0x38000 = 0x38000 -> Z.land word 0x7fff = 0 ->
   Decodehcint.read_notes_word word w = (Fault DivisionByZero, w)).
Proof.
  split; [apply parse_note_none |].
  split; [apply decode_tempo_quarter_none |]. split.
  - intros Hs Ht Hz. unfold Decodehcint.read_notes_word.
    apply Z.eqb_neq in Hs, Ht. rewrite Hs, Ht.
    apply parse_note_none in Hz. unfold bind. rewrite Hz. reflexivity.
  - intros Ht Hz. unfold Decodehcint.read_notes_word.
    assert (Hs : word <> 0x30000).
    { intros ->. vm_compute in Ht. discriminate. }
    apply Z.eqb_neq in Hs. apply Z.eqb_eq in Ht. rewrite Hs, Ht.
    apply decode_tempo_quarter_none in Hz. unfold bind. rewrite Hz.
    reflexivity.
Qed.

(** The note word 0 and the tempo word 0700000. *)
Lemma division_by_zero_witness :
  Decodehcint.read_notes_word 0 (World [] [] [])
    = (Fault DivisionByZero, World [] [] []) /\
  Decodehcint.read_notes_word 0x38000 (World [] [] [])
    = (Fault DivisionByZero, World [] [] []).
Proof.
  split.
  - apply (proj1 (proj2 (proj2 (division_by_zero 0 (World [] [] []))))).
    + discriminate.
    + discriminate.
    + reflexivity.
  - apply (proj2 (proj2 (proj2 (division_by_zero 0x38000 (World [] [] []))))).
    + reflexivity.
    + reflexivity.
Defined.

Lemma articulation_name_exit (a : Z) (w : world) :
  a <> 0 -> a <> 1 -> a <> 2 -> a <> 4 -> a <> 8 ->
  Decodehcint.articulation_name a w = (Exit (InvalidArticulationError a), w).
Proof.
  intros H0 H1 H2 H4 H8. unfold Decodehcint.articulation_name.
  destruct a as [| p | p]; [congruence | | reflexivity].
  destruct p as [[[[p | p |] | [p | p |] |] | [[p | p |] | [p | p |] |] |]
                | [[[p | p |] | [p | p |] |] | [[p | p |] | [p | p |] |] |] |];
    try reflexivity; congruence.
Qed.

Lemma articulation_name_ret (a : Z) (w : world) :
  a = 0 \/ a = 1 \/ a = 2 \/ a = 4 \/ a = 8 ->
  exists name, Decodehcint.articulation_name a w = (Ret name, w).
Proof.
  intros [-> | [-> | [-> | [-> | ->]]]]; eexists; reflexivity.
Qed.

(** What [parse_note] returns, when it returns. *)
Lemma parse_note_some (word : Z) (note : Decodehcint.note_t) :
  Decodehcint.parse_note word = Some note ->
  Decodehcint.pitch note = Z.land (Z.shiftr word 7) 0x3f /\
  ((Decodehcint.pitch note >? 1) = false ->
   Decodehcint.note_name note = Decodehcint.REST_NAME /\
   Decodehcint.octave note = 0 /\ Decodehcint.semi_tone note = 0) /\
  (Decodehcint.pitch note = 2 ->
   Decodehcint.octave note = 1 /\ Decodehcint.semi_tone note = 0 /\
   Decodehcint.note_name note = "C").
Proof.
  unfold Decodehcint.parse_note.
  assert (Hp : u8 (Z.land (Z.shiftr word 7) 0x3f) = Z.land (Z.shiftr word 7) 0x3f).
  { apply u8_small. rewrite land_low6.
    pose proof (Z.mod_pos_bound (Z.shiftr word 7) 64). lia. }
  rewrite Hp.
  destruct (c_div 192 _) as [q |]; [| discriminate].
  destruct (Z.land (Z.shiftr word 7) 0x3f >? 1) eqn:Eg;
    intros E; injection E as <-; cbn [Decodehcint.pitch Decodehcint.octave
      Decodehcint.semi_tone Decodehcint.note_name].
  - split; [reflexivity |]. split; [congruence |].
    intros ->. repeat split; reflexivity.
  - split; [reflexivity |]. split; [intros _; repeat split; reflexivity |].
    intros E2. rewrite E2 in Eg. discriminate.
Qed.

(** C7, as stated, does not hold: the word 0060001 is a rest (pitch
    field 0) whose composite articulation value is 3; [read_notes] prints
    it as a rest without looking at the articulation, and the section that
    holds it decodes to the end. *)
Lemma rest_articulation_unchecked :
  option_map
    (fun n => (Decodehcint.pitch n, Decodehcint.articulation n,
               Decodehcint.note_name n))
    (Decodehcint.parse_note 0x6001) = Some (0, 3, Decodehcint.REST_NAME) /\
  fst (Decodehcint.read_notes_word 0x6001 (World [] [] [])) = Ret tt /\
  (let tape := (ppb_frames 1 ++ ppb_frames 0x6001 ++ ppb_frames 0x6001)%list in
   match Decodehcint.read_notes 0 (Decodehcint.malloc_notes (fun _ => 0)) 0
           (World tape [] []) with
   | (Ret (res, _), w) => Some (res, fp w)
   | _ => None
   end = Some (0, [])).
Proof. vm_compute. repeat split; reflexivity. Qed.

(** C7, amended. For every NOTES data word decoded as a note: if the pitch
    field (bits 7-12) is 0 or 1 the note is a rest and is printed whatever
    its articulation; if the pitch field is exactly 2 the note decodes to
    octave 1 and semitone 0; and if the note is not a rest (pitch field 2
    or more) a composite articulation value of 3 ends the program with the
    invalid articulation error: for such a note only the composite values
    0, 1, 2, 4, 8 are accepted. *)
Theorem note_decode_boundary (word : Z) (note : Decodehcint.note_t)
  (w : world) :
  word <> 0x30000 ->
  Z.land word 0x38000 <> 0x38000 ->
  Decodehcint.parse_note word = Some note ->
  Decodehcint.pitch note = Z.land (Z.shiftr word 7) 0x3f /\
  (Decodehcint.pitch note = 0 \/ Decodehcint.pitch note = 1 ->
   Decodehcint.note_name note = Decodehcint.REST_NAME /\
   Decodehcint.octave note = 0 /\
   fst (Decodehcint.read_notes_word word w) = Ret tt) /\
  (Decodehcint.pitch note = 2 ->
   Decodehcint.octave note = 1 /\ Decodehcint.semi_tone note = 0 /\
   Decodehcint.note_name note = "C") /\
  (1 < Decodehcint.pitch note -> Decodehcint.articulation note = 3 ->
   fst (Decodehcint.read_notes_word word w)
   = Exit (InvalidArticulationError 3)) /\
  (1 < Decodehcint.pitch note ->
   (fst (Decodehcint.read_notes_word word w) = Ret tt <->
    Decodehcint.articulation note = 0 \/ Decodehcint.articulation note = 1 \/
    Decodehcint.articulation note = 2 \/ Decodehcint.articulation note = 4 \/
    Decodehcint.articulation note = 8)).
Proof.
  intros Hs Ht Hn.
  destruct (parse_note_some word note Hn) as (Hp & Hrest & Hc).
  assert (Hrun : Decodehcint.read_notes_word word w
    = ((if Decodehcint.pitch note >? 1 then
          name <- Decodehcint.articulation_name (Decodehcint.articulation note) ;;
          printf "\tarticulation: %02o [%s], triplet: %o [%s], "
            [I (Decodehcint.articulation note); T name;
             I (Decodehcint.triplet note);
             T (if negb (Decodehcint.triplet note =? 0) then "Y" else "N")]
        else printf "\t" []) ;;
       printf "pitch: %02o [%s%d], duration: %03o [1/%d]\n"
         [I (Decodehcint.pitch note); T (Decodehcint.note_name note);
          I (Decodehcint.octave note); I (Decodehcint.duration note);
          I (Decodehcint.note_duration note)])%prog w).
  { unfold Decodehcint.read_notes_word.
    apply Z.eqb_neq in Hs, Ht. rewrite Hs, Ht.
    unfold bind at 1. rewrite Hn. reflexivity. }
  split; [exact Hp |]. split; [| split; [exact Hc | split]].
  - intros H01.
    assert (Eg : (Decodehcint.pitch note >? 1) = false)
      by (destruct H01 as [-> | ->]; reflexivity).
    destruct (Hrest Eg) as (Hname & Hoct & _).
    split; [exact Hname |]. split; [exact Hoct |].
    rewrite Hrun, Eg. reflexivity.
  - intros Hgt Ha.
    assert (Eg : (Decodehcint.pitch note >? 1) = true)
      by (apply Z.gtb_lt; lia).
    rewrite Hrun, Eg, Ha. reflexivity.
  - intros Hgt.
    assert (Eg : (Decodehcint.pitch note >? 1) = true)
      by (apply Z.gtb_lt; lia).
    rewrite Hrun, Eg. split.
    + intros Hret.
      destruct (Z.eq_dec (Decodehcint.articulation note) 0) as [| N0]; [auto |].
      destruct (Z.eq_dec (Decodehcint.articulation note) 1) as [| N1]; [auto |].
      destruct (Z.eq_dec (Decodehcint.articulation note) 2) as [| N2]; [auto |].
      destruct (Z.eq_dec (Decodehcint.articulation note) 4) as [| N4]; [auto |].
      destruct (Z.eq_dec (Decodehcint.articulation note) 8) as [| N8];
        [auto 6 |].
      unfold bind in Hret.
      rewrite (articulation_name_exit _ w N0 N1 N2 N4 N8) in Hret.
      discriminate.
    + intros Ha.
      destruct (articulation_name_ret _ w Ha) as [name En].
      unfold bind. rewrite En. reflexivity.
Qed.

(** The note word 0060401: pitch field 2, composite articulation 3. *)
Lemma note_decode_boundary_witness :
  0x6101 <> 0x30000 /\ Z.land 0x6101 0x38000 <> 0x38000 /\
  fst (Decodehcint.read_notes_word 0x6101 (World [] [] []))
  = Exit (InvalidArticulationError 3).
Proof.
  assert (H1 : 0x6101 <> 0x30000) by discriminate.
  assert (H2 : Z.land 0x6101 0x38000 <> 0x38000) by discriminate.
  split; [exact H1 |]. split; [exact H2 |].
  refine (proj1 (proj2 (proj2 (proj2
            (note_decode_boundary 0x6101 _ (World [] [] []) H1 H2 eq_refl))))
            _ _).
  - reflexivity.
  - reflexivity.
Defined.

(** ** The word stream *)

Lemma rpb_loop_word (f : list byte) (i : nat) (word g n : Z) :
  (i < 3)%nat -> 0 <= word < 2 ^ (6 * Z.of_nat i) ->
  let r := rpb_loop f i word g n in
  (rpb_word r = u32 EOF /\ rpb_fp r = []) \/
  (word18 (rpb_word r) /\ (length (rpb_fp r) + (3 - i) <= length f)%nat).
Proof.
  revert i word g n.
  induction f as [| b f IH]; intros i word g n Hi Hw; cbn zeta.
  - left. split; reflexivity.
  - cbn [rpb_loop length].
    destruct (negb (Z.land (byte.unsigned b) 0x80 =? 0)).
    + assert (Hacc : Z.lor (u32 (Z.shiftl word 6)) (Z.land (byte.unsigned b) 0x3f)
                     = word * 64 + byte.unsigned b mod 64).
      { rewrite land_low6. apply rpb_accumulate.
        - destruct i as [| [| [| i]]]; cbn in Hw; lia.
        - apply Z.mod_pos_bound. lia. }
      rewrite Hacc.
      pose proof (Z.mod_pos_bound (byte.unsigned b) 64 ltac:(lia)) as Hp.
      destruct (Nat.ltb_spec (S i) 3) as [Hlt | Hge].
      * destruct (IH (S i) (word * 64 + byte.unsigned b mod 64) g n Hlt)
          as [H | [H1 H2]].
        -- destruct i as [| [| [| i]]]; cbn in Hw |- *; lia.
        -- left. exact H.
        -- right. split; [exact H1 | lia].
      * right. cbn [rpb_word rpb_fp]. split; [| lia].
        unfold word18. destruct i as [| [| [| i]]]; cbn in Hw; lia.
    + destruct (negb (i =? 0)%nat).
      * destruct (IH i word g (u32 (n + 1)) Hi Hw) as [H | [H1 H2]];
          [left; exact H | right; split; [exact H1 | lia]].
      * destruct (IH i word (u32 (g + 1)) n Hi Hw) as [H | [H1 H2]];
          [left; exact H | right; split; [exact H1 | lia]].
Qed.

Lemma word18_not_EOF (x : Z) : word18 x -> x <> u32 EOF.
Proof.
  unfold word18. intros H E. rewrite E in H.
  change (u32 EOF) with 4294967295 in H. lia.
Qed.

Lemma next_word_some (f f' : list byte) (g x : Z) :
  next_word f = Some (g, x, f') ->
  rpb_loop f 0 0 0 0 = RpbResult x g 0 f' /\ word18 x /\ x <> u32 EOF /\
  (length f' < length f)%nat.
Proof.
  unfold next_word. intros H.
  destruct (rpb_loop f 0 0 0 0) as [x0 g0 n0 f0] eqn:E.
  cbn [rpb_word rpb_gap_frames rpb_inner_frames rpb_fp] in H.
  destruct (Z.eqb_spec n0 0) as [-> | Hn]; [| discriminate].
  destruct (Z.eqb_spec x0 (u32 EOF)) as [Hx | Hx]; [discriminate |].
  cbn in H. injection H as <- <- <-.
  split; [reflexivity |].
  pose proof (rpb_loop_word f 0 0 0 0) as R. cbn zeta in R. rewrite E in R.
  cbn [rpb_word rpb_fp] in R.
  destruct R as [[R _] | [R1 R2]]; [lia | lia | congruence |].
  split; [exact R1 |]. split; [exact Hx | lia].
Qed.

Lemma words_of_S (n : nat) (f f' : list byte) (g x : Z) (ws : list (Z * Z)) :
  words_of (S n) f = Some ((g, x) :: ws, f') ->
  exists f1, next_word f = Some (g, x, f1) /\ words_of n f1 = Some (ws, f').
Proof.
  cbn [words_of]. intros H.
  destruct (next_word f) as [[[g0 x0] f1] |]; [| discriminate].
  destruct (words_of n f1) as [[ws0 f0] |] eqn:E; [| discriminate].
  injection H as Hg Hx Hws Hf. subst. exists f1. split; [reflexivity | exact E].
Qed.

(** [read_next_word] of tweak.c on a stream that starts with a word. *)
Lemma tweak_read_next_word (f f' out : list byte)
  (so : list (string * list arg)) (g x word_count peek : Z) :
  next_word f = Some (g, x, f') ->
  Tweak.read_next_word word_count peek (World f out so)
  = (Ret (0, x, u32 (word_count + 1), g), World f' out so).
Proof.
  intros H. destruct (next_word_some f f' g x H) as (E & _ & Hx & _).
  unfold Tweak.read_next_word, bind, rpb. cbn [fp fp_out stdout].
  rewrite E. cbn [rpb_word rpb_gap_frames rpb_inner_frames rpb_fp].
  apply Z.eqb_neq in Hx. rewrite Hx. reflexivity.
Qed.

(** [read_next_word] of decodehcint.c on a stream that starts with a word:
    only lines of output are added. *)
Lemma decode_read_next_word (f f' out : list byte)
  (so : list (string * list arg)) (g x word_count peek : Z) :
  next_word f = Some (g, x, f') ->
  exists so',
    Decodehcint.read_next_word word_count peek (World f out so)
    = (Ret (0, x, u32 (word_count + 1), g), World f' out so').
Proof.
  intros H. destruct (next_word_some f f' g x H) as (E & _ & Hx & _).
  unfold Decodehcint.read_next_word, bind, rpb. cbn [fp fp_out stdout].
  rewrite E. cbn [rpb_word rpb_gap_frames rpb_inner_frames rpb_fp].
  apply Z.eqb_neq in Hx. rewrite Hx. cbn [Z.eqb negb].
  unfold when, printf, ret.
  destruct (negb (g =? 0)), (peek =? 0); cbn [fp fp_out stdout];
    eexists; reflexivity.
Qed.

(** ** The NOTES section of tweak.c *)

(** Decides the integer comparisons of a loop body from the context. *)
Ltac decide_tests :=
  repeat match goal with
  | |- context [Z.eqb ?a ?b] =>
      destruct (Z.eqb_spec a b); try lia
  | |- context [Z.ltb ?a ?b] =>
      destruct (Z.ltb_spec a b); try lia
  | |- context [Z.gtb ?a ?b] =>
      rewrite (Z.gtb_ltb a b)
  | |- context [Z.leb ?a ?b] =>
      destruct (Z.leb_spec a b); try lia
  | |- context [Z.geb ?a ?b] =>
      rewrite (Z.geb_leb a b)
  end.

(** Runs the steps of a loop body whose effect is known. *)
Ltac run_steps :=
  repeat first
    [ rewrite ppb_appends
    | match goal with
      | |- context [u32 ?z] => rewrite (u32_small z) by lia
      end
    | progress cbv iota beta
    | progress cbn [andb negb fp fp_out stdout]
    | progress unfold ret, printf, puts ].

(** The first turn of [copy_notes] copies the count. *)
Lemma copy_notes_body_count (tempo : Z) (v : Tweak.notes_vars)
  (f f' out : list byte) (so : list (string * list arg)) (g x : Z) :
  next_word f = Some (g, x, f') ->
  Tweak.n_part_word_count v = 0 ->
  Tweak.copy_notes_body tempo v (World f out so)
  = (Ret (Continue (Tweak.NotesVars (Tweak.n_checksum v) 1 x
                      (u32 (Tweak.n_word_count v + 1))
                      (Tweak.n_new_checksum v))),
     World f' (out ++ ppb_frames x) so).
Proof.
  intros Hw Hk. unfold Tweak.copy_notes_body, bind.
  rewrite (tweak_read_next_word _ _ _ _ _ _ _ _ Hw). cbv iota beta zeta.
  rewrite Hk. change (0 =? u32 EOF) with false. change (u32 (0 + 1)) with 1.
  change (1 =? 1) with true. change (1 >? 1) with false. cbv iota beta.
  unfold ret. cbn [andb]. change (0 =? 0) with true. cbv iota beta.
  rewrite ppb_appends. reflexivity.
Qed.

(** A turn of [copy_notes] on a data word writes the word, or the new
    tempo word in its place, and adds what it wrote to the new checksum. *)
Lemma copy_notes_body_data (tempo : Z) (v : Tweak.notes_vars)
  (f f' out : list byte) (so : list (string * list arg)) (g x : Z) :
  next_word f = Some (g, x, f') ->
  tempo <> u32 (-1) ->
  1 <= Tweak.n_part_word_count v <= Tweak.n_total_word_count v ->
  Tweak.n_total_word_count v < 2 ^ 18 ->
  exists so',
    Tweak.copy_notes_body tempo v (World f out so)
    = (Ret (Continue
              (Tweak.NotesVars
                 (add_1s_complement (Tweak.n_checksum v) x)
                 (Tweak.n_part_word_count v + 1)
                 (Tweak.n_total_word_count v)
                 (u32 (Tweak.n_word_count v + 1))
                 (add_1s_complement (Tweak.n_new_checksum v)
                    (retempo tempo x)))),
       World f' (out ++ ppb_frames (retempo tempo x)) so').
Proof.
  intros Hw Ht Hk Hn. unfold Tweak.copy_notes_body, bind.
  rewrite (tweak_read_next_word _ _ _ _ _ _ _ _ Hw). cbv iota beta zeta.
  change (0 =? u32 EOF) with false. cbv iota.
  rewrite (u32_small (Tweak.n_part_word_count v + 1)) by lia.
  rewrite (u32_small (Tweak.n_total_word_count v + 2)) by lia.
  unfold retempo. apply Z.eqb_neq in Ht. rewrite Ht. cbn [negb].
  decide_tests; run_steps; decide_tests; run_steps;
    change (1 =? 0) with false; change (0 =? 0) with true; run_steps;
    decide_tests; run_steps; eexists; reflexivity.
Qed.

(** The last turn of [copy_notes] checks the source checksum and writes
    the new one. *)
Lemma copy_notes_body_checksum (tempo : Z) (v : Tweak.notes_vars)
  (f f' out : list byte) (so : list (string * list arg)) (g : Z) :
  next_word f = Some (g, Tweak.n_checksum v, f') ->
  1 <= Tweak.n_part_word_count v ->
  Tweak.n_part_word_count v = Tweak.n_total_word_count v + 1 ->
  Tweak.n_total_word_count v < 2 ^ 18 ->
  Tweak.copy_notes_body tempo v (World f out so)
  = (Ret (Break
            (Tweak.NotesVars (Tweak.n_checksum v)
               (Tweak.n_part_word_count v + 1)
               (Tweak.n_total_word_count v)
               (u32 (Tweak.n_word_count v + 1))
               (Tweak.n_new_checksum v))),
     World f' (out ++ ppb_frames (Tweak.n_new_checksum v))
       (so ++ [("good checksum", [])])).
Proof.
  intros Hw Hk Hkn Hn. unfold Tweak.copy_notes_body, bind.
  rewrite (tweak_read_next_word _ _ _ _ _ _ _ _ Hw). cbv iota beta zeta.
  change (0 =? u32 EOF) with false. cbv iota.
  rewrite (u32_small (Tweak.n_part_word_count v + 1)) by lia.
  rewrite (u32_small (Tweak.n_total_word_count v + 2)) by lia.
  rewrite Z.gtb_ltb.
  destruct (Z.ltb_spec 1 (Tweak.n_part_word_count v + 1)); [| lia].
  destruct (Z.ltb_spec (Tweak.n_part_word_count v + 1)
              (Tweak.n_total_word_count v + 2)); [lia |].
  destruct (Z.eqb_spec (Tweak.n_part_word_count v + 1) 1); [lia |].
  destruct (Z.eqb_spec (Tweak.n_part_word_count v + 1)
              (Tweak.n_total_word_count v + 2)); [| lia].
  cbn [andb]. cbv iota. unfold Tweak.verify_checksum.
  rewrite Z.eqb_refl. unfold puts, printf, ret. cbv iota beta.
  cbn [fp fp_out stdout]. rewrite ppb_appends. reflexivity.
Qed.

Lemma while1_S {L : Type} (fuel : nat) (body : L -> M (ctl L)) (l : L)
  (w : world) :
  while1 (S fuel) body l w
  = match body l w with
    | (Ret (Continue l'), w') => while1 fuel body l' w'
    | (Ret (Break l'), w') => (Ret (None, l'), w')
    | (Ret (Return r l'), w') => (Ret (Some r, l'), w')
    | (Exit e, w') => (Exit e, w')
    | (Fault f, w') => (Fault f, w')
    | (OutOfFuel, w') => (OutOfFuel, w')
    end.
Proof.
  cbn [while1]. unfold bind.
  destruct (body l w) as [[c | e | f | ] w']; try reflexivity.
  destruct c; reflexivity.
Qed.

(** The turns of [copy_notes] after the count: the data words, then the
    checksum. *)
Lemma copy_notes_loop (tempo : Z) (data : list (Z * Z)) :
  tempo <> u32 (-1) ->
  forall (fuel : nat) (v : Tweak.notes_vars) (f out rest : list byte)
    (so : list (string * list arg)) (gk : Z),
  words_of (S (length data)) f
  = Some ((data ++ [(gk, checksum_from (Tweak.n_checksum v) (map snd data))])%list,
          rest) ->
  (length f < fuel)%nat ->
  1 <= Tweak.n_part_word_count v ->
  Tweak.n_part_word_count v + Z.of_nat (length data)
  = Tweak.n_total_word_count v + 1 ->
  Tweak.n_total_word_count v < 2 ^ 18 ->
  exists v' so',
    while1 fuel (Tweak.copy_notes_body tempo) v (World f out so)
    = (Ret (None, v'),
       World rest
         (out ++ flat_map ppb_frames (map (retempo tempo) (map snd data))
              ++ ppb_frames
                   (checksum_from (Tweak.n_new_checksum v)
                      (map (retempo tempo) (map snd data))))%list
         so').
Proof.
  intros Ht. induction data as [| [g x] data IH];
    intros fuel v f out rest so gk Hws Hfuel Hk Hkn Hn;
    (destruct fuel as [| fuel]; [lia |]);
    cbn [length app] in Hws;
    apply words_of_S in Hws; destruct Hws as (f1 & Hw & Hws);
    rewrite while1_S.
  - cbn [words_of] in Hws. injection Hws as <-.
    cbn [map checksum_from fold_left] in Hw.
    rewrite (copy_notes_body_checksum tempo v f f1 out so gk Hw);
      cbn [length] in Hkn; try lia.
    eexists. eexists. reflexivity.
  - destruct (copy_notes_body_data tempo v f f1 out so g x Hw Ht)
      as [so1 E]; cbn [length] in Hkn; try lia.
    rewrite E.
    destruct (next_word_some _ _ _ _ Hw) as (_ & _ & _ & Hlen).
    edestruct (IH fuel
                 (Tweak.NotesVars
                    (add_1s_complement (Tweak.n_checksum v) x)
                    (Tweak.n_part_word_count v + 1)
                    (Tweak.n_total_word_count v)
                    (u32 (Tweak.n_word_count v + 1))
                    (add_1s_complement (Tweak.n_new_checksum v)
                       (retempo tempo x)))
                 f1 (out ++ ppb_frames (retempo tempo x))%list rest so1 gk)
      as (v' & so' & E').
    + exact Hws.
    + lia.
    + cbn [Tweak.n_part_word_count]. lia.
    + cbn [Tweak.n_part_word_count Tweak.n_total_word_count]. lia.
    + cbn [Tweak.n_total_word_count]. lia.
    + rewrite E'. cbn [Tweak.n_new_checksum map flat_map].
      rewrite <- !app_assoc. eexists. eexists. reflexivity.
Qed.

Lemma words_of_word18 (n : nat) (f f' : list byte) (ws : list (Z * Z)) :
  words_of n f = Some (ws, f') -> Forall word18 (map snd ws).
Proof.
  revert f ws. induction n as [| n IH]; intros f ws H.
  - cbn [words_of] in H. injection H as <- <-. constructor.
  - cbn [words_of] in H.
    destruct (next_word f) as [[[g x] f1] |] eqn:Hw; [| discriminate].
    destruct (words_of n f1) as [[ws' f0] |] eqn:E; [| discriminate].
    injection H as <- <-.
    destruct (next_word_some _ _ _ _ Hw) as (_ & Hx & _ & _).
    cbn [map snd]. constructor; [exact Hx | exact (IH _ _ E)].
Qed.

(** The tempo word [copy_notes] writes under an override. *)
Lemma tempo_word (tempo : Z) :
  Z.lor 0x38000 (Z.land tempo 0x7fff) = 0x38000 + tempo mod 2 ^ 15 /\
  Z.land (Z.lor 0x38000 (Z.land tempo 0x7fff)) 0x38000 = 0x38000.
Proof.
  assert (H : Z.land tempo 0x7fff = tempo mod 2 ^ 15).
  { change 0x7fff with (Z.ones 15). apply Z.land_ones. lia. }
  pose proof (Z.mod_pos_bound tempo (2 ^ 15) ltac:(lia)) as Hb.
  rewrite H. change 0x38000 with (Z.shiftl 7 15). split.
  - rewrite (lor_shiftl 7 _ 15) by lia. reflexivity.
  - rewrite Z.land_lor_distr_l, Z.land_diag.
    rewrite (Z.land_comm (tempo mod 2 ^ 15)).
    rewrite (land_shiftl_small 7 _ 15) by lia. apply Z.lor_0_r.
Qed.

Lemma retempo_word18 (tempo x : Z) : word18 x -> word18 (retempo tempo x).
Proof.
  intros Hx. unfold retempo.
  destruct (Z.land x 0x38000 =? 0x38000); [| exact Hx].
  destruct (tempo_word tempo) as [E _]. rewrite E.
  pose proof (Z.mod_pos_bound tempo (2 ^ 15) ltac:(lia)).
  unfold word18. lia.
Qed.

(** The end-around-carry sum of two 18-bit words in closed form: 0 for
    the sum 0, and for a positive sum the number from 1 to [2^18 - 1] that
    is congruent to it modulo [2^18 - 1]. *)
Lemma add_1s_complement_closed (a b : Z) :
  word18 a -> word18 b ->
  add_1s_complement a b
  = if a + b =? 0 then 0 else (a + b - 1) mod (2 ^ 18 - 1) + 1.
Proof.
  intros Ha Hb.
  destruct (add_1s_complement_cases a b Ha Hb) as [[H E] | [H E]];
    rewrite E; unfold word18 in *; change (2 ^ 18) with 262144 in *;
    change (262144 - 1) with 262143;
    destruct (Z.eqb_spec (a + b) 0) as [E0 | E0]; try lia.
  - rewrite Z.mod_small by lia. lia.
  - replace (a + b - 1) with (a + b - 1 - 262143 + 1 * 262143) by lia.
    rewrite Z.mod_add by lia. rewrite Z.mod_small by lia. lia.
Qed.

(** The fold of the end-around-carry addition in closed form. *)
Lemma checksum_from_closed (words : list Z) :
  Forall word18 words ->
  forall s : Z, 0 <= s ->
  checksum_from (if s =? 0 then 0 else (s - 1) mod (2 ^ 18 - 1) + 1) words
  = if s + sumZ words =? 0 then 0
    else (s + sumZ words - 1) mod (2 ^ 18 - 1) + 1.
Proof.
  intros H. induction H as [| x l Hx _ IH]; intros s Hs.
  - cbn [checksum_from fold_left sumZ fold_right]. rewrite Z.add_0_r.
    reflexivity.
  - cbn [checksum_from fold_left sumZ fold_right].
    fold (sumZ l).
    fold (checksum_from
            (add_1s_complement
               (if s =? 0 then 0 else (s - 1) mod (2 ^ 18 - 1) + 1) x) l).
    assert (Hacc : word18 (if s =? 0 then 0 else (s - 1) mod (2 ^ 18 - 1) + 1)).
    { unfold word18. destruct (s =? 0); [lia |].
      pose proof (Z.mod_pos_bound (s - 1) (2 ^ 18 - 1) ltac:(lia)). lia. }
    rewrite (add_1s_complement_closed _ x Hacc Hx).
    assert (E : (if (if s =? 0 then 0 else (s - 1) mod (2 ^ 18 - 1) + 1) + x =? 0
                 then 0
                 else ((if s =? 0 then 0 else (s - 1) mod (2 ^ 18 - 1) + 1)
                       + x - 1) mod (2 ^ 18 - 1) + 1)
                = (if s + x =? 0 then 0
                   else (s + x - 1) mod (2 ^ 18 - 1) + 1)).
    { unfold word18 in Hx.
      destruct (Z.eqb_spec s 0) as [-> | Hs0]; [reflexivity |].
      pose proof (Z.mod_pos_bound (s - 1) (2 ^ 18 - 1) ltac:(lia)).
      destruct (Z.eqb_spec ((s - 1) mod (2 ^ 18 - 1) + 1 + x) 0); [lia |].
      destruct (Z.eqb_spec (s + x) 0); [lia |].
      replace ((s - 1) mod (2 ^ 18 - 1) + 1 + x - 1)
        with ((s - 1) mod (2 ^ 18 - 1) + x) by lia.
      rewrite Z.add_mod_idemp_l by lia.
      replace (s - 1 + x) with (s + x - 1) by lia. reflexivity. }
    rewrite E. unfold word18 in Hx. rewrite IH by lia.
    rewrite Z.add_assoc. reflexivity.
Qed.

(** C4. Under a tempo override [copy_notes] writes the count, then every
    data word with each tempo word replaced by 0700000 OR'd with the low
    15 bits of the override, then a checksum word that is the
    end-around-carry fold of the data words it wrote, for every NOTES
    section that it accepts. That word is the end-around-carry sum of the
    written words as a number: 0 when their sum is 0, and otherwise the
    number from 1 to [2^18 - 1] that is congruent to their sum modulo
    [2^18 - 1]. In particular the section of count 1 with the tempo word
    0700144 is written, under the override 200, with the tempo word
    0700310 and the checksum 0700310. *)
Theorem copy_notes_checksum (tempo : Z) (data : list (Z * Z))
  (f out rest : list byte) (so : list (string * list arg)) (g0 gk : Z) :
  tempo <> u32 (-1) ->
  words_of (S (S (length data))) f
  = Some ((g0, Z.of_nat (length data))
            :: (data ++ [(gk, checksum_of (map snd data))])%list,
          rest) ->
  let written := map (retempo tempo) (map snd data) in
  (exists so',
     Tweak.copy_notes tempo (World f out so)
     = (Ret 0,
        World rest
          (out ++ ppb_frames (Z.of_nat (length data))
               ++ flat_map ppb_frames written
               ++ ppb_frames (checksum_of written))%list
          so')) /\
  checksum_of written
  = (if sumZ written =? 0 then 0
     else (sumZ written - 1) mod (2 ^ 18 - 1) + 1) /\
  (let section := (ppb_frames 1 ++ ppb_frames 0x38064
                     ++ ppb_frames 0x38064)%list in
   let w' := snd (Tweak.copy_notes 200 (World section [] [])) in
   fst (Tweak.copy_notes 200 (World section [] [])) = Ret 0 /\
   fp_out w' = (ppb_frames 1 ++ ppb_frames (Z.lor 0x38000 200)
                  ++ ppb_frames (Z.lor 0x38000 200))%list /\
   Z.lor 0x38000 200 = octal 700310).
Proof.
  intros Ht Hws written.
  split; [| split; [| vm_compute; repeat split; reflexivity]].
  2: { pose proof (words_of_word18 _ _ _ _ Hws) as Hall.
       cbn [map snd] in Hall. rewrite map_app in Hall.
       inversion Hall as [| ? ? _ Hrest]; subst.
       apply Forall_app in Hrest. destruct Hrest as [Hdata _].
       assert (Hwr : Forall word18 written).
       { subst written. clear - Hdata.
         induction Hdata as [| x l Hx _ IH]; cbn [map]; constructor;
           [apply retempo_word18; exact Hx | exact IH]. }
       exact (checksum_from_closed written Hwr 0 ltac:(lia)). }
  apply words_of_S in Hws. destruct Hws as (f1 & Hw & Hws).
  destruct (next_word_some _ _ _ _ Hw) as (_ & Hc & _ & Hlen).
  unfold Tweak.copy_notes. cbn [fp]. unfold bind at 1.
  rewrite while1_S.
  rewrite (copy_notes_body_count tempo (Tweak.NotesVars 0 0 0 0 0)
             f f1 out so g0 _ Hw eq_refl).
  cbn [Tweak.n_checksum Tweak.n_word_count Tweak.n_new_checksum].
  edestruct (copy_notes_loop tempo data Ht (length f)
               (Tweak.NotesVars 0 1 (Z.of_nat (length data)) (u32 (0 + 1)) 0)
               f1 (out ++ ppb_frames (Z.of_nat (length data)))%list rest so gk)
    as (v' & so' & E).
  - cbn [Tweak.n_checksum]. exact Hws.
  - exact Hlen.
  - cbn [Tweak.n_part_word_count]. lia.
  - cbn [Tweak.n_part_word_count Tweak.n_total_word_count]. lia.
  - cbn [Tweak.n_total_word_count]. unfold word18 in Hc. lia.
  - rewrite E. cbn [Tweak.n_new_checksum]. unfold printf, ret, bind.
    cbn [fp fp_out stdout]. rewrite <- !app_assoc.
    eexists. reflexivity.
Qed.

(** The section of count 1 with the tempo word 0700144, override 200. *)
Lemma copy_notes_checksum_witness :
  let f := (ppb_frames 1 ++ ppb_frames 0x38064 ++ ppb_frames 0x38064)%list in
  200 <> u32 (-1) /\
  words_of 3 f = Some ([(0, 1); (0, 0x38064); (0, 0x38064)], []) /\
  exists so',
    Tweak.copy_notes 200 (World f [] [])
    = (Ret 0,
       World []
         (ppb_frames 1 ++ ppb_frames (Z.lor 0x38000 200)
            ++ ppb_frames (Z.lor 0x38000 200))%list
         so').
Proof.
  intros f.
  assert (Ht : 200 <> u32 (-1)) by discriminate.
  assert (Hws : words_of 3 f = Some ([(0, 1); (0, 0x38064); (0, 0x38064)], []))
    by (vm_compute; reflexivity).
  split; [exact Ht |]. split; [exact Hws |].
  exact (proj1 (copy_notes_checksum 200 [(0, 0x38064)] f [] [] [] 0 0 Ht Hws)).
Defined.

(** ** The BARS section *)

(** The first turn of [read_bars] on a count word that follows the
    preceding word without a blank frame. *)
Lemma read_bars_missing_gap (word_count notes_count : Z) (notes : list Z)
  (f f' out : list byte) (so : list (string * list arg)) (x : Z) :
  next_word f = Some (0, x, f') ->
  exists so',
    Decodehcint.read_bars word_count notes notes_count (World f out so)
    = (Exit MissingGapError, World f' out so').
Proof.
  intros Hw. unfold Decodehcint.read_bars. unfold bind at 1.
  unfold puts, printf. cbn [fp fp_out stdout]. unfold bind at 1.
  rewrite while1_S. unfold Decodehcint.read_bars_body. unfold bind at 1.
  destruct (decode_read_next_word f f' out (so ++ [("\nBARS:", [])]) 0 x
              word_count 0 Hw) as [so' E].
  cbn [Decodehcint.b_word_count Decodehcint.b_part_word_count].
  rewrite E. cbv iota beta zeta. change (0 =? u32 EOF) with false.
  change (u32 (0 + 1)) with 1. change (1 =? 1) with true.
  change (0 =? 0) with true. cbv iota. unfold exit.
  eexists. reflexivity.
Qed.

Lemma copy_bars_missing_gap (f f' out : list byte)
  (so : list (string * list arg)) (x : Z) :
  next_word f = Some (0, x, f') ->
  Tweak.copy_bars (World f out so) = (Exit MissingGapError, World f' out so).
Proof.
  intros Hw. unfold Tweak.copy_bars. cbn [fp]. unfold bind at 1.
  rewrite while1_S. unfold Tweak.copy_bars_body. unfold bind at 1.
  cbn [Tweak.b_word_count Tweak.b_part_word_count].
  rewrite (tweak_read_next_word _ _ _ _ _ _ _ _ Hw).
  cbv iota beta zeta. change (0 =? u32 EOF) with false.
  change (u32 (0 + 1)) with 1. change (1 =? 1) with true.
  change (0 =? 0) with true. cbv iota. reflexivity.
Qed.

(** C8. When the count word of a BARS section follows the preceding word
    with no blank frame in between, [read_bars] and [copy_bars] end the
    program with the missing gap error as soon as the count is read: the
    frames after the count word are still unread, and [copy_bars] has
    written nothing. *)
Theorem bars_missing_gap (word_count notes_count : Z) (notes : list Z)
  (f f' out : list byte) (so : list (string * list arg)) (x : Z) :
  next_word f = Some (0, x, f') ->
  (exists so',
     Decodehcint.read_bars word_count notes notes_count (World f out so)
     = (Exit MissingGapError, World f' out so')) /\
  Tweak.copy_bars (World f out so) = (Exit MissingGapError, World f' out so).
Proof.
  intros Hw. split.
  - apply (read_bars_missing_gap _ _ _ _ _ _ _ x Hw).
  - apply (copy_bars_missing_gap _ _ _ _ x Hw).
Qed.

(** A BARS section of count 1 that abuts the preceding word. *)
Lemma bars_missing_gap_witness :
  let f := (ppb_frames 1 ++ ppb_frames 0x30000 ++ ppb_frames 0x30000)%list in
  let f' := (ppb_frames 0x30000 ++ ppb_frames 0x30000)%list in
  next_word f = Some (0, 1, f') /\
  Tweak.copy_bars (World f [] []) = (Exit MissingGapError, World f' [] []).
Proof.
  intros f f'.
  assert (Hw : next_word f = Some (0, 1, f')) by (vm_compute; reflexivity).
  split; [exact Hw |].
  exact (proj2 (bars_missing_gap 0 0 [] f f' [] [] 1 Hw)).
Defined.

(** The loop that prints a measure returns or faults, and reads no frame. *)
Lemma measure_loop (notes : list Z) (notes_count word : Z) (fuel : nat) :
  forall (m c : Z) (w : world),
  0 <= m -> (0 < fuel)%nat ->
  Z.of_nat (length notes) < m + Z.of_nat fuel ->
  exists o so',
    while1 fuel (Decodehcint.measure_body notes notes_count word) (m, c) w
    = (o, World (fp w) (fp_out w) so') /\
    ((exists l, o = Ret (None, l)) \/ (exists ft, o = Fault ft)).
Proof.
  induction fuel as [| fuel IH]; intros m c w Hm Hpos Hfuel; [lia |].
  rewrite while1_S. unfold Decodehcint.measure_body. unfold bind at 1.
  unfold Decodehcint.load.
  destruct (Z.leb_spec 0 m) as [_ | ?]; [| lia].
  destruct (notes !! Z.to_nat m) as [x |] eqn:El.
  - unfold ret at 1. cbv iota beta.
    destruct (negb (x =? 0x30000) && (u32 (word + c) <? notes_count)).
    + unfold bind at 1. unfold Decodehcint.lift.
      destruct (Decodehcint.parse_note x) as [note |].
      * unfold ret at 1. cbv iota beta. unfold bind at 1.
        unfold printf at 1. cbv iota beta. unfold ret at 1.
        apply lookup_lt_Some in El.
        edestruct (IH (m + 1) (u32 (c + 1))) as (o & so' & E & Ho);
          [| | | rewrite E; cbn [fp fp_out stdout]; exists o, so';
                 split; [reflexivity | exact Ho]]; lia.
      * unfold crash. destruct w as [f out so]. exists (Fault DivisionByZero), so.
        split; [reflexivity | right; eexists; reflexivity].
    + unfold ret. destruct w as [f out so]. eexists. exists so.
      split; [reflexivity | left; eexists; reflexivity].
  - unfold crash. destruct w as [f out so].
    exists (Fault (OutOfBounds m)), so.
    split; [reflexivity | right; eexists; reflexivity].
Qed.

(** A turn of [read_bars] on a data word. *)
Lemma read_bars_body_data (notes : list Z) (notes_count : Z)
  (v : Decodehcint.bars_vars) (f f1 out : list byte)
  (so : list (string * list arg)) (g x : Z) :
  next_word f = Some (g, x, f1) ->
  1 <= Decodehcint.b_part_word_count v <= Decodehcint.b_total_word_count v ->
  Decodehcint.b_total_word_count v < 2 ^ 18 ->
  let v' := Decodehcint.BarsVars
              (add_1s_complement (Decodehcint.b_checksum v) x) g
              (Decodehcint.b_part_word_count v + 1)
              (Decodehcint.b_total_word_count v)
              (u32 (Decodehcint.b_word_count v + 1)) in
  exists o so',
    Decodehcint.read_bars_body notes notes_count v (World f out so)
    = (o, World f1 out so') /\
    ((x = 0x30000 /\
      Decodehcint.b_part_word_count v < Decodehcint.b_total_word_count v /\
      o = Exit EndOfBarsError) \/
     (x = 0x30000 /\
      Decodehcint.b_part_word_count v = Decodehcint.b_total_word_count v /\
      o = Ret (Continue v')) \/
     (x <> 0x30000 /\ (o = Ret (Continue v') \/ aborts_early o))).
Proof.
  intros Hw Hk Hn v'. subst v'.
  destruct (next_word_some _ _ _ _ Hw) as (_ & Hx & _ & _).
  unfold Decodehcint.read_bars_body. unfold bind at 1.
  destruct (decode_read_next_word f f1 out so g x
              (Decodehcint.b_word_count v) 0 Hw) as [so1 E].
  rewrite E. cbv iota beta zeta. change (0 =? u32 EOF) with false. cbv iota.
  rewrite (u32_small (Decodehcint.b_part_word_count v + 1)) by lia.
  rewrite (u32_small (Decodehcint.b_total_word_count v + 2)) by lia.
  rewrite (u32_small (Decodehcint.b_total_word_count v + 1)) by lia.
  rewrite Z.gtb_ltb.
  destruct (Z.ltb_spec 1 (Decodehcint.b_part_word_count v + 1)); [| lia].
  destruct (Z.ltb_spec (Decodehcint.b_part_word_count v + 1)
              (Decodehcint.b_total_word_count v + 2)); [| lia].
  destruct (Z.eqb_spec (Decodehcint.b_part_word_count v + 1) 1); [lia |].
  destruct (Z.eqb_spec (Decodehcint.b_part_word_count v + 1)
              (Decodehcint.b_total_word_count v + 2)); [lia |].
  cbn [andb].
  destruct (Z.eqb_spec x 0x30000) as [Ex | Ex].
  - unfold bind at 1. unfold printf at 1. cbv iota beta.
    cbn [fp fp_out stdout].
    destruct (Z.eqb_spec (Decodehcint.b_part_word_count v + 1)
                (Decodehcint.b_total_word_count v + 1)) as [Ek | Ek];
      cbn [negb]; unfold exit, ret; eexists; eexists;
      (split; [reflexivity |]).
    + right. left. repeat split; [exact Ex | lia].
    + left. repeat split; [exact Ex | lia].
  - rewrite Z.geb_leb.
    destruct (Z.leb_spec notes_count x) as [Hr | Hr].
    + unfold exit. eexists. eexists. split; [reflexivity |].
      right. right. split; [exact Ex | right; exact Logic.I].
    + unfold bind at 1. unfold printf at 1. cbv iota beta.
      cbn [fp fp_out stdout]. unfold bind at 1.
      edestruct (measure_loop notes notes_count x (S (length notes)) x 0
                   (World f1 out
                      (so1 ++ [("\t%d",
                                [I (u32 (Decodehcint.b_part_word_count v + 1 - 1))])])))
        as (o & so2 & El & [[l Ho] | [ft Ho]]);
        [unfold word18 in Hx; lia | lia | unfold word18 in Hx; lia | |];
        rewrite El; subst o; cbn [fp fp_out stdout]; cbv iota beta.
      * unfold bind, printf, ret. cbn [fp fp_out stdout].
        eexists. eexists. split; [reflexivity |].
        right. right. split; [exact Ex | left; reflexivity].
      * eexists. eexists. split; [reflexivity |].
        right. right. split; [exact Ex | right; exact Logic.I].
Qed.

Lemma rpb_loop_suffix (f : list byte) (i : nat) (word g n : Z) :
  rpb_fp (rpb_loop f i word g n) `suffix_of` f.
Proof.
  revert i word g n. induction f as [| b f IH]; intros i word g n.
  - reflexivity.
  - cbn [rpb_loop].
    destruct (negb (Z.land (byte.unsigned b) 0x80 =? 0)).
    + destruct (S i <? 3)%nat.
      * apply suffix_cons_r. apply IH.
      * cbn [rpb_fp]. apply suffix_cons_r. reflexivity.
    + destruct (negb (i =? 0)%nat); apply suffix_cons_r; apply IH.
Qed.

Lemma words_of_suffix (n : nat) (f f' : list byte) (ws : list (Z * Z)) :
  words_of n f = Some (ws, f') -> f' `suffix_of` f.
Proof.
  revert f ws. induction n as [| n IH]; intros f ws H; cbn [words_of] in H.
  - injection H as <- <-. reflexivity.
  - destruct (next_word f) as [[[g x] f1] |] eqn:Ew; [| discriminate].
    destruct (words_of n f1) as [[ws0 f0] |] eqn:E; [| discriminate].
    injection H as <- <-.
    destruct (next_word_some _ _ _ _ Ew) as (Er & _).
    transitivity f1; [exact (IH f1 ws0 E) |].
    pose proof (rpb_loop_suffix f 0 0 0 0) as S. rewrite Er in S. exact S.
Qed.

(** The turns of [read_bars] up to a separator that comes before the last
    data word. *)
Lemma read_bars_loop_sentinel (notes : list Z) (notes_count : Z)
  (pre : list (Z * Z)) :
  forall (fuel : nat) (v : Decodehcint.bars_vars) (f f' out : list byte)
    (so : list (string * list arg)) (g : Z),
  words_of (S (length pre)) f = Some ((pre ++ [(g, 0x30000)])%list, f') ->
  (length f < fuel)%nat ->
  1 <= Decodehcint.b_part_word_count v ->
  Decodehcint.b_part_word_count v + Z.of_nat (length pre)
  < Decodehcint.b_total_word_count v ->
  Decodehcint.b_total_word_count v < 2 ^ 18 ->
  exists o w',
    while1 fuel (Decodehcint.read_bars_body notes notes_count) v
      (World f out so) = (o, w') /\
    aborts_early o /\ f' `suffix_of` fp w'.
Proof.
  induction pre as [| [g1 x] pre IH];
    intros fuel v f f' out so g Hws Hfuel Hk Hkn Hn;
    (destruct fuel as [| fuel]; [lia |]);
    cbn [length app] in Hws, Hkn;
    pose proof Hws as Hall;
    apply words_of_S in Hws; destruct Hws as (f1 & Hw & Hws);
    rewrite while1_S;
    destruct (read_bars_body_data notes notes_count v f f1 out so _ _ Hw)
      as (o & so1 & E & Hcase); try lia; rewrite E.
  - cbn [words_of] in Hws. injection Hws as <-.
    destruct Hcase as [(_ & _ & ->) | [(_ & Heq & _) | (Hne & _)]];
      [| lia | congruence].
    eexists. eexists. split; [reflexivity |]. split; [exact Logic.I |].
    reflexivity.
  - pose proof (words_of_suffix _ _ _ _ Hws) as Hsuf.
    destruct (next_word_some _ _ _ _ Hw) as (_ & _ & _ & Hlen).
    assert (Habort : aborts_early o ->
              exists o' w', match o with
                | Ret (Continue l') =>
                    while1 fuel (Decodehcint.read_bars_body notes notes_count)
                      l' (World f1 out so1)
                | Ret (Break l') => (Ret (None, l'), World f1 out so1)
                | Ret (Return r l') => (Ret (Some r, l'), World f1 out so1)
                | Exit e => (Exit e, World f1 out so1)
                | Fault ft => (Fault ft, World f1 out so1)
                | OutOfFuel => (OutOfFuel, World f1 out so1)
                end = (o', w') /\ aborts_early o' /\ f' `suffix_of` fp w').
    { intros Ha. destruct o as [c | e | ft |]; cbn in Ha; try contradiction.
      - exists (Exit e), (World f1 out so1).
        split; [reflexivity |]. split; [exact Ha | exact Hsuf].
      - exists (Fault ft), (World f1 out so1).
        split; [reflexivity |]. split; [exact Logic.I | exact Hsuf]. }
    destruct Hcase as [(_ & _ & ->) | [(_ & Heq & _) | (Hne & [-> | Ha])]];
      [apply Habort; exact Logic.I | lia | | apply Habort; exact Ha].
    apply (IH fuel _ f1 f' out so1 g Hws);
      cbn [Decodehcint.b_part_word_count Decodehcint.b_total_word_count]; lia.
Qed.

(** C10. In a BARS section read by [read_bars] the word 0600000 passes
    only as the last data word: at the data position equal to the count
    the loop goes on to the checksum word, at any earlier data position
    the program ends with the end of bars error when the word is read;
    and a section with a separator at an earlier data position always
    ends the run before a checksum is compared, with the frames after the
    separator, where the checksum word lies, still unread. *)
Theorem sentinel_only_last (notes : list Z) (word_count notes_count : Z)
  (v : Decodehcint.bars_vars) (f f1 out : list byte)
  (so : list (string * list arg)) (g : Z) :
  next_word f = Some (g, 0x30000, f1) ->
  1 <= Decodehcint.b_part_word_count v <= Decodehcint.b_total_word_count v ->
  Decodehcint.b_total_word_count v < 2 ^ 18 ->
  (Decodehcint.b_part_word_count v < Decodehcint.b_total_word_count v ->
   exists so',
     Decodehcint.read_bars_body notes notes_count v (World f out so)
     = (Exit EndOfBarsError, World f1 out so')) /\
  (Decodehcint.b_part_word_count v = Decodehcint.b_total_word_count v ->
   exists so',
     Decodehcint.read_bars_body notes notes_count v (World f out so)
     = (Ret (Continue
               (Decodehcint.BarsVars
                  (add_1s_complement (Decodehcint.b_checksum v) 0x30000) g
                  (Decodehcint.b_part_word_count v + 1)
                  (Decodehcint.b_total_word_count v)
                  (u32 (Decodehcint.b_word_count v + 1)))),
        World f1 out so')) /\
  (forall (pre : list (Z * Z)) (tape rest : list byte) (g0 count gs : Z),
   words_of (S (S (length pre))) tape
   = Some ((g0, count) :: (pre ++ [(gs, 0x30000)])%list, rest) ->
   Z.of_nat (length pre) + 1 < count ->
   exists o w',
     Decodehcint.read_bars word_count notes notes_count (World tape out so)
     = (o, w') /\
     aborts_early o /\ rest `suffix_of` fp w').
Proof.
  intros Hw Hk Hn.
  destruct (read_bars_body_data notes notes_count v f f1 out so _ _ Hw Hk Hn)
    as (o & so1 & E & Hcase).
  split; [| split].
  - intros Hlt. exists so1. rewrite E.
    destruct Hcase as [(_ & _ & ->) | [(_ & Heq & _) | (Hne & _)]];
      [reflexivity | lia | congruence].
  - intros Heq. exists so1. rewrite E.
    destruct Hcase as [(_ & Hlt & _) | [(_ & _ & ->) | (Hne & _)]];
      [lia | reflexivity | congruence].
  - clear. intros pre tape rest g0 count gs Hws Hpos.
    pose proof (words_of_suffix _ _ _ _ Hws) as Hsuf0.
    apply words_of_S in Hws. destruct Hws as (t1 & Hw & Hws).
    pose proof (words_of_suffix _ _ _ _ Hws) as Hsuf.
    destruct (next_word_some _ _ _ _ Hw) as (_ & Hc & _ & Hlen).
    unfold Decodehcint.read_bars. unfold bind at 1.
    unfold puts, printf. cbn [fp fp_out stdout]. unfold bind at 1.
    rewrite while1_S. unfold Decodehcint.read_bars_body at 1.
    unfold bind at 1.
    destruct (decode_read_next_word tape t1 out (so ++ [("\nBARS:", [])])
                g0 count word_count 0 Hw) as [so1 E].
    cbn [Decodehcint.b_word_count Decodehcint.b_part_word_count
         Decodehcint.b_checksum Decodehcint.b_total_word_count].
    rewrite E. cbv iota beta zeta. change (0 =? u32 EOF) with false.
    change (u32 (0 + 1)) with 1. change (1 =? 1) with true.
    change (1 >? 1) with false. cbn [andb]. cbv iota.
    destruct (g0 =? 0).
    + unfold exit. eexists. eexists. split; [reflexivity |].
      split; [exact Logic.I | exact Hsuf].
    + unfold bind at 1. unfold printf at 1. cbv iota beta.
      cbn [fp fp_out stdout]. unfold ret at 1.
      edestruct (read_bars_loop_sentinel notes notes_count pre (length tape)
                   (Decodehcint.BarsVars 0 g0 1 count (u32 (word_count + 1)))
                   t1 rest out) as (o & w' & El & Ha & Hs);
        [exact Hws | exact Hlen | cbn; lia | cbn; lia
        | cbn; unfold word18 in Hc; lia |].
      rewrite El.
      destruct o as [c | e | ft |]; cbn in Ha; try contradiction;
        eexists; exists w';
        (split; [reflexivity | split; [exact Ha | exact Hs]]).
Qed.

(** A separator as the first of two data words. *)
Lemma sentinel_only_last_witness :
  let f := (ppb_frames 0x30000 ++ ppb_frames 0x30000)%list in
  let v := Decodehcint.BarsVars 0 1 1 2 1 in
  next_word f = Some (0, 0x30000, ppb_frames 0x30000) /\
  exists so',
    Decodehcint.read_bars_body [] 5 v (World f [] [])
    = (Exit EndOfBarsError, World (ppb_frames 0x30000) [] so').
Proof.
  intros f v.
  assert (Hw : next_word f = Some (0, 0x30000, ppb_frames 0x30000))
    by (vm_compute; reflexivity).
  split; [exact Hw |].
  refine (proj1 (sentinel_only_last [] 0 5 v f _ [] [] 0 Hw _ _) _);
    cbn; lia.
Defined.

(** ** End of stream in the voice loop of decodehcint.c *)

(** C3 does not hold of decodehcint.c: [main] ends with status 0 when the
    stream ends at the peek after a BARS checksum, and with the same
    status 0 when the stream ends inside the BARS section; only the end
    of the stream inside NOTES gives status 1. The statuses of [main] on
    five tapes, with tweak.c next to it; each section has count 0 and
    checksum 0 unless said otherwise, and a heap of zeros stands for the
    contents of the buffer.
    - [complete]: NOTES, two blank frames, BARS, three blank frames;
      the stream ends at the peek after the BARS checksum: status 0.
    - [no_bars]: NOTES and nothing more; the stream ends where the count
      of BARS should be: status 0 from decodehcint.c, although the
      comment in [read_notes] says that the bar section should always
      follow, and although tweak.c returns 1 there.
    - [cut_bars]: NOTES, two blank frames, the BARS count 1 and nothing
      more; the stream ends before the data word and the checksum word of
      BARS: status 0.
    - [cut_word]: as [cut_bars], followed by two of the three frames of
      the data word: status 0.
    - [cut_notes]: the NOTES count 1 and nothing more: status 1. *)
Theorem end_of_stream_exit_status :
  let heap := fun _ : nat => 0 in
  let section := (ppb_frames 0 ++ ppb_frames 0)%list in
  let gap := repeat (byte.of_Z 0) in
  let complete := (section ++ gap 2%nat ++ section ++ gap 3%nat)%list in
  let no_bars := section in
  let cut_bars := (section ++ gap 2%nat ++ ppb_frames 1)%list in
  let cut_word := (cut_bars ++ take 2 (ppb_frames 0x30000))%list in
  let cut_notes := ppb_frames 1 in
  let decode tape := fst (Decodehcint.main heap (World tape [] [])) in
  let tweak tape := fst (Tweak.main 3 0 0 (World tape [] [])) in
  decode complete = Ret 0 /\
  decode no_bars = Ret 0 /\
  decode cut_bars = Ret 0 /\
  decode cut_word = Ret 0 /\
  decode cut_notes = Ret 1 /\
  tweak complete = Ret 0 /\
  tweak no_bars = Ret 1.
Proof. vm_compute. repeat split; reflexivity. Qed.

(** ** The loops terminate

    Every loop of the two programs is run with enough fuel: no run ends
    in [OutOfFuel]. A turn of a section loop that continues has read a
    word, the loop that prints a measure walks up the notes buffer, and
    the voice loop counts up to 4. *)

Lemma bounded_ret {A : Type} (a : A) : bounded (ret a).
Proof. intros w. cbn. split; [discriminate | lia]. Qed.

Lemma bounded_exit {A : Type} (e : error) : bounded (@exit A e).
Proof. intros w. cbn. split; [discriminate | lia]. Qed.

Lemma bounded_crash {A : Type} (ft : fault) : bounded (@crash A ft).
Proof. intros w. cbn. split; [discriminate | lia]. Qed.

Lemma bounded_printf (fmt : string) (args : list arg) :
  bounded (printf fmt args).
Proof. intros w. cbn. split; [discriminate | lia]. Qed.

Lemma bounded_putc (c : Z) : bounded (putc c).
Proof. intros w. cbn. split; [discriminate | lia]. Qed.

Lemma bounded_bind {A B : Type} (m : M A) (k : A -> M B) :
  bounded m -> (forall a, bounded (k a)) -> bounded (bind m k).
Proof.
  intros Hm Hk w. unfold bind. specialize (Hm w).
  destruct (m w) as [[a | e | ft |] w']; cbn in Hm |- *;
    try (split; [discriminate | lia]).
  - specialize (Hk a w'). split; [tauto | lia].
  - tauto.
Qed.

Lemma bounded_rpb : bounded rpb.
Proof.
  intros w. unfold rpb. cbn. split; [discriminate |].
  apply suffix_length. apply rpb_loop_suffix.
Qed.

Lemma bounded_peek_gap : bounded peek_gap.
Proof.
  intros w. unfold peek_gap, rpb. cbn. split; [discriminate | lia].
Qed.

Lemma bounded_write_gap (n : Z) : bounded (Tweak.write_gap n).
Proof. intros w. cbn. split; [discriminate | lia]. Qed.

Lemma bounded_measure (notes : list Z) (notes_count word : Z) :
  0 <= word ->
  bounded (while1 (S (length notes))
             (Decodehcint.measure_body notes notes_count word) (word, 0)).
Proof.
  intros Hw w.
  destruct (measure_loop notes notes_count word (S (length notes)) word 0 w)
    as (o & so' & E & Ho); try lia.
  rewrite E. cbn. split; [| lia].
  destruct Ho as [[l ->] | [ft ->]]; discriminate.
Qed.

(** Takes a program apart down to its calls. *)
Ltac bounded_step :=
  match goal with
  | |- bounded (bind _ _) => apply bounded_bind; [| intros ?]
  | |- bounded (ret _) => apply bounded_ret
  | |- bounded (exit _) => apply bounded_exit
  | |- bounded (crash _) => apply bounded_crash
  | |- bounded (printf _ _) => apply bounded_printf
  | |- bounded (puts _) => apply bounded_printf
  | |- bounded (putc _) => apply bounded_putc
  | |- bounded rpb => apply bounded_rpb
  | |- bounded peek_gap => apply bounded_peek_gap
  | |- bounded (Tweak.write_gap _) => apply bounded_write_gap
  | |- bounded (when ?c _) => unfold when
  | |- bounded (if ?c then _ else _) => destruct c
  | |- bounded (match ?x with _ => _ end) => destruct x
  | |- bounded _ => progress cbv zeta
  end.

Ltac bounded_tac := repeat bounded_step.

Lemma bounded_ppb (word : Z) : bounded (Tweak.ppb word).
Proof. unfold Tweak.ppb. bounded_tac. Qed.

Lemma bounded_tweak_verify (a b : Z) : bounded (Tweak.verify_checksum a b).
Proof. unfold Tweak.verify_checksum. bounded_tac. Qed.

Lemma bounded_decode_verify (a b : Z) :
  bounded (Decodehcint.verify_checksum a b).
Proof. unfold Decodehcint.verify_checksum. bounded_tac. Qed.

Lemma bounded_articulation_name (a : Z) :
  bounded (Decodehcint.articulation_name a).
Proof. unfold Decodehcint.articulation_name. bounded_tac. Qed.

Lemma bounded_lift {A : Type} (o : option A) : bounded (Decodehcint.lift o).
Proof. unfold Decodehcint.lift. bounded_tac. Qed.

Lemma bounded_store (notes : list Z) (i x : Z) :
  bounded (Decodehcint.store notes i x).
Proof. unfold Decodehcint.store. bounded_tac. Qed.

Lemma bounded_read_notes_word (word : Z) :
  bounded (Decodehcint.read_notes_word word).
Proof.
  unfold Decodehcint.read_notes_word.
  bounded_tac; first [apply bounded_lift | apply bounded_articulation_name].
Qed.

Lemma bounded_decode_read_next_word (word_count peek : Z) :
  bounded (Decodehcint.read_next_word word_count peek).
Proof. unfold Decodehcint.read_next_word. bounded_tac. Qed.

Lemma bounded_tweak_read_next_word (word_count peek : Z) :
  bounded (Tweak.read_next_word word_count peek).
Proof. unfold Tweak.read_next_word. bounded_tac. Qed.

(** A word that [rpb] returns has taken at least one frame. *)
Lemma rpb_loop_progress (f : list byte) :
  rpb_word (rpb_loop f 0 0 0 0) <> u32 EOF ->
  (length (rpb_fp (rpb_loop f 0 0 0 0)) < length f)%nat.
Proof.
  intros H. pose proof (rpb_loop_word f 0 0 0 0) as R. cbn zeta in R.
  destruct R as [[R _] | [_ R]]; [lia | lia | congruence | lia].
Qed.

Lemma decode_read_next_word_progress (word_count peek : Z) (w : world)
  (res x wc g : Z) :
  fst (Decodehcint.read_next_word word_count peek w) = Ret (res, x, wc, g) ->
  res <> u32 EOF ->
  (length (fp (snd (Decodehcint.read_next_word word_count peek w)))
   < length (fp w))%nat.
Proof.
  unfold Decodehcint.read_next_word, bind, rpb, when, printf, ret, exit.
  cbn [fp fp_out stdout].
  pose proof (rpb_loop_progress (fp w)) as P.
  destruct (rpb_loop (fp w) 0 0 0 0) as [x0 g0 n0 f0].
  cbn [rpb_word rpb_gap_frames rpb_inner_frames rpb_fp] in *.
  destruct (negb (n0 =? 0)); [discriminate |].
  destruct (negb (g0 =? 0)); cbn [fp fp_out stdout];
    (destruct (Z.eqb_spec x0 (u32 EOF)) as [Ex | Ex];
     [intros E; injection E as <- _ _ _; congruence |]);
    destruct (peek =? 0); cbn; intros _ _; apply P; exact Ex.
Qed.

Lemma tweak_read_next_word_progress (word_count peek : Z) (w : world)
  (res x wc g : Z) :
  fst (Tweak.read_next_word word_count peek w) = Ret (res, x, wc, g) ->
  res <> u32 EOF ->
  (length (fp (snd (Tweak.read_next_word word_count peek w)))
   < length (fp w))%nat.
Proof.
  unfold Tweak.read_next_word, bind, rpb, ret, exit.
  cbn [fp fp_out stdout].
  pose proof (rpb_loop_progress (fp w)) as P.
  destruct (rpb_loop (fp w) 0 0 0 0) as [x0 g0 n0 f0].
  cbn [rpb_word rpb_gap_frames rpb_inner_frames rpb_fp] in *.
  destruct (negb (n0 =? 0)); [discriminate |].
  destruct (Z.eqb_spec x0 (u32 EOF)) as [Ex | Ex];
    [intros E; injection E as <- _ _ _; congruence |].
  cbn. intros _ _. apply P. exact Ex.
Qed.

Lemma while1_advances {L : Type} (body : L -> M (ctl L)) :
  advances body ->
  forall (fuel : nat) (l : L) (w : world),
  (length (fp w) < fuel)%nat ->
  fst (while1 fuel body l w) <> OutOfFuel /\
  (length (fp (snd (while1 fuel body l w))) <= length (fp w))%nat.
Proof.
  intros Hb. induction fuel as [| fuel IH]; intros l w Hfuel; [lia |].
  rewrite while1_S. destruct (Hb l w) as (H1 & H2 & H3).
  destruct (body l w) as [[[l' | l' | r l'] | e | ft |] w'];
    cbn [fst snd] in *; try (split; [discriminate | lia]).
  - specialize (H3 l' eq_refl).
    destruct (IH l' w') as [I1 I2]; [lia |]. split; [exact I1 | lia].
  - congruence.
Qed.

Lemma bounded_load (notes : list Z) (i : Z) : bounded (Decodehcint.load notes i).
Proof. unfold Decodehcint.load. bounded_tac. Qed.

Lemma bounded_measure_any (notes : list Z) (notes_count word : Z) :
  bounded (while1 (S (length notes))
             (Decodehcint.measure_body notes notes_count word) (word, 0)).
Proof.
  destruct (Z_lt_ge_dec word 0) as [Hneg | Hpos].
  - intros w. rewrite while1_S. unfold Decodehcint.measure_body, bind.
    unfold Decodehcint.load.
    destruct (Z.leb_spec 0 word) as [? | _]; [lia |].
    cbn. split; [discriminate | lia].
  - apply bounded_measure. lia.
Qed.

(** Finishes [bounded_tac] on the calls of the two programs. *)
Ltac bounded_calls :=
  bounded_tac;
  first [ apply bounded_lift | apply bounded_articulation_name
        | apply bounded_store | apply bounded_load
        | apply bounded_decode_verify | apply bounded_tweak_verify
        | apply bounded_read_notes_word | apply bounded_ppb
        | apply bounded_measure_any ].

(** A section loop body: [read], the return at the end of the stream,
    and a rest that is [bounded]. *)
Ltac advances_tac head body read_bounded read_progress :=
  let p := fresh "p" in
  let Ep := fresh "Ep" in
  let B1 := fresh "B1" in
  let B2 := fresh "B2" in
  let P := fresh "P" in
  let Hb := fresh "Hb" in
  let Hne := fresh "Hne" in
  intros v w;
  remember (body v w) as p eqn:Ep;
  unfold head in Ep; unfold bind at 1 in Ep;
  pose proof (read_bounded v w) as [B1 B2];
  pose proof (read_progress v w) as P;
  match type of Ep with
  | context [match ?r with _ => _ end] =>
      destruct r as [[[[[?res ?x] ?wc] ?g] | ?e | ?ft |] ?w'];
      cbn [fst snd] in *;
      [ | subst p; cbn; repeat split; (discriminate || lia)
        | subst p; cbn; repeat split; (discriminate || lia) | tauto ]
  end;
  cbv iota beta in Ep;
  match type of Ep with
  | context [Z.eqb ?res (u32 EOF)] =>
      destruct (Z.eqb_spec res (u32 EOF)) as [? | Hne];
      [ subst p; cbn; repeat split; (discriminate || lia) | ];
      specialize (P _ _ _ _ eq_refl Hne)
  end;
  match type of Ep with
  | _ = ?m ?w' =>
      assert (Hb : bounded m) by (repeat bounded_calls);
      destruct (Hb w'); subst p;
      repeat split; (assumption || lia || (intros; lia))
  end.

Lemma advances_read_notes_body : advances Decodehcint.read_notes_body.
Proof.
  advances_tac Decodehcint.read_notes_body Decodehcint.read_notes_body
    (fun v => bounded_decode_read_next_word (Decodehcint.n_word_count v) 0)
    (fun v => decode_read_next_word_progress (Decodehcint.n_word_count v) 0).
Qed.

Lemma advances_read_bars_body (notes : list Z) (notes_count : Z) :
  advances (Decodehcint.read_bars_body notes notes_count).
Proof.
  advances_tac Decodehcint.read_bars_body
    (Decodehcint.read_bars_body notes notes_count)
    (fun v => bounded_decode_read_next_word (Decodehcint.b_word_count v) 0)
    (fun v => decode_read_next_word_progress (Decodehcint.b_word_count v) 0).
Qed.

Lemma advances_copy_notes_body (tempo : Z) :
  advances (Tweak.copy_notes_body tempo).
Proof.
  advances_tac Tweak.copy_notes_body (Tweak.copy_notes_body tempo)
    (fun v => bounded_tweak_read_next_word (Tweak.n_word_count v) 0)
    (fun v => tweak_read_next_word_progress (Tweak.n_word_count v) 0).
Qed.

Lemma advances_copy_bars_body : advances Tweak.copy_bars_body.
Proof.
  advances_tac Tweak.copy_bars_body Tweak.copy_bars_body
    (fun v => bounded_tweak_read_next_word (Tweak.b_word_count v) 0)
    (fun v => tweak_read_next_word_progress (Tweak.b_word_count v) 0).
Qed.

(** A section function: a loop with fuel for every frame of the input. *)
Lemma bounded_section {L A : Type} (body : L -> M (ctl L)) (init : L)
  (after : option Z * L -> M A) :
  advances body -> (forall r, bounded (after r)) ->
  bounded (fun w => (r <- while1 (S (length (fp w))) body init ;; after r) w).
Proof.
  intros Hb Ha w. unfold bind.
  destruct (while1_advances body Hb (S (length (fp w))) init w) as [H1 H2];
    [lia |].
  destruct (while1 (S (length (fp w))) body init w) as [[r | e | ft |] w'];
    cbn [fst snd] in *; try (split; [discriminate | lia]).
  - destruct (Ha r w') as [A1 A2]. split; [exact A1 | lia].
  - congruence.
Qed.

Lemma bounded_read_notes (word_count : Z) (notes : list Z) (notes_count : Z) :
  bounded (Decodehcint.read_notes word_count notes notes_count).
Proof.
  unfold Decodehcint.read_notes. bounded_tac.
  apply bounded_section; [apply advances_read_notes_body |].
  intros r. bounded_tac.
Qed.

Lemma bounded_read_bars (word_count : Z) (notes : list Z) (notes_count : Z) :
  bounded (Decodehcint.read_bars word_count notes notes_count).
Proof.
  unfold Decodehcint.read_bars. bounded_tac.
  apply bounded_section; [apply advances_read_bars_body |].
  intros r. bounded_tac.
Qed.

Lemma bounded_copy_notes (tempo : Z) : bounded (Tweak.copy_notes tempo).
Proof.
  unfold Tweak.copy_notes.
  apply bounded_section; [apply advances_copy_notes_body |].
  intros r. bounded_tac.
Qed.

Lemma bounded_copy_bars : bounded Tweak.copy_bars.
Proof.
  unfold Tweak.copy_bars.
  apply bounded_section; [apply advances_copy_bars_body |].
  intros r. bounded_tac.
Qed.

Lemma bounded_decode_main_body (v : Decodehcint.main_vars) :
  bounded (Decodehcint.main_body v).
Proof.
  unfold Decodehcint.main_body.
  bounded_tac; first [apply bounded_read_notes | apply bounded_read_bars].
Qed.

Lemma bounded_tweak_main_body (tempo gap_length voice : Z) :
  bounded (Tweak.main_body tempo gap_length voice).
Proof.
  unfold Tweak.main_body.
  bounded_tac; first [apply bounded_copy_notes | apply bounded_copy_bars].
Qed.

(** Takes the outcome of each call of a program apart. *)
Ltac outcomes :=
  repeat match goal with
  | |- context [match ?m ?w with _ => _ end] =>
      destruct (m w) as [[? | ? | ? |] ?]
  | |- context [let '(_, _) := ?p in _] => destruct p
  | |- context [if ?c then _ else _] => destruct c
  | |- _ => progress cbn [fst snd]
  end.

(** A turn of the voice loop continues with the next voice. *)
Lemma decode_main_body_continue (v l' : Decodehcint.main_vars) (w : world) :
  fst (Decodehcint.main_body v w) = Ret (Continue l') ->
  Decodehcint.m_voice v <= 4 /\
  Decodehcint.m_voice l' = u8 (Decodehcint.m_voice v + 1).
Proof.
  unfold Decodehcint.main_body.
  destruct (Z.leb_spec (Decodehcint.m_voice v) 4) as [Hle | Hgt];
    cbn [negb]; [| discriminate].
  unfold bind, when, puts, printf, ret. outcomes;
    intros E; try discriminate; injection E as <-; split; [lia | reflexivity].
Qed.

Lemma tweak_main_body_continue (tempo gap_length voice voice' : Z)
  (w : world) :
  fst (Tweak.main_body tempo gap_length voice w) = Ret (Continue voice') ->
  voice <= 4 /\ voice' = u8 (voice + 1).
Proof.
  unfold Tweak.main_body.
  destruct (Z.leb_spec voice 4) as [Hle | Hgt]; cbn [negb]; [| discriminate].
  unfold bind, when, puts, printf, ret, Tweak.write_gap. outcomes;
    intros E; try discriminate; injection E as <-; split; [lia | reflexivity].
Qed.

Lemma decode_voice_loop (fuel : nat) :
  forall (v : Decodehcint.main_vars) (w : world),
  1 <= Decodehcint.m_voice v <= 5 ->
  5 - Decodehcint.m_voice v < Z.of_nat fuel ->
  fst (while1 fuel Decodehcint.main_body v w) <> OutOfFuel.
Proof.
  induction fuel as [| fuel IH]; intros v w Hv Hfuel.
  - exfalso. lia.
  - rewrite while1_S.
    pose proof (bounded_decode_main_body v w) as [B _].
    pose proof (fun l' => decode_main_body_continue v l' w) as C.
    destruct (Decodehcint.main_body v w) as [[[l' | l' | r l'] | e | ft |] w'];
      cbn [fst snd] in *; try discriminate; [| congruence].
    destruct (C l' eq_refl) as [C1 C2].
    rewrite u8_small in C2 by lia. apply IH; lia.
Qed.

Lemma tweak_voice_loop (tempo gap_length : Z) (fuel : nat) :
  forall (voice : Z) (w : world),
  1 <= voice <= 5 -> 5 - voice < Z.of_nat fuel ->
  fst (while1 fuel (Tweak.main_body tempo gap_length) voice w) <> OutOfFuel.
Proof.
  induction fuel as [| fuel IH]; intros voice w Hv Hfuel.
  - exfalso. lia.
  - rewrite while1_S.
    pose proof (bounded_tweak_main_body tempo gap_length voice w) as [B _].
    pose proof (fun l' => tweak_main_body_continue tempo gap_length voice l' w)
      as C.
    destruct (Tweak.main_body tempo gap_length voice w)
      as [[[l' | l' | r l'] | e | ft |] w'];
      cbn [fst snd] in *; try discriminate; [| congruence].
    destruct (C l' eq_refl) as [C1 C2].
    rewrite u8_small in C2 by lia. apply IH; lia.
Qed.

(** X26. decodehcint.c ends, on every input file and whatever the heap
    holds, with a status, with [exit(1)], or with a fault: every turn of a
    section loop that goes on has read a word, the loop that prints a
    measure leaves the buffer after at most as many turns as the buffer has
    words, and the voice loop has four turns. *)
Theorem decodehcint_terminates (heap : nat -> Z) (w : world) :
  fst (Decodehcint.main heap w) <> OutOfFuel.
Proof.
  unfold Decodehcint.main, bind.
  pose proof (decode_voice_loop 5
                (Decodehcint.MainVars 0 0 1 (Decodehcint.malloc_notes heap)) w)
    as H.
  destruct (while1 5 Decodehcint.main_body _ w) as [[[[x |] v] | e | ft |] w'];
    cbn [fst snd] in *; try discriminate.
  exfalso. apply H; [cbn; lia | cbn; lia | reflexivity].
Qed.

(** X27. tweak.c ends, on every input file and for all arguments, with a
    status or with [exit(1)]: every turn of a section loop that goes on has
    read a word, and the voice loop has four turns. *)
Theorem tweak_terminates (argc atoi3 atoi4 : Z) (w : world) :
  fst (Tweak.main argc atoi3 atoi4 w) <> OutOfFuel.
Proof.
  unfold Tweak.main.
  destruct ((argc <? 3) || (argc >? 5)); [discriminate |].
  cbv zeta. unfold bind at 1. unfold peek_gap, rpb. cbn [fp fp_out stdout].
  destruct (_ =? u32 EOF); [discriminate |].
  unfold bind at 1. unfold printf at 1. cbn [fp fp_out stdout].
  unfold bind at 1. unfold Tweak.write_gap at 1. cbn [fp fp_out stdout].
  unfold bind at 1.
  match goal with
  | |- context [while1 5 (Tweak.main_body ?t ?gl) 1 ?w1] =>
      pose proof (tweak_voice_loop t gl 5 1 w1 ltac:(lia) ltac:(lia)) as H;
      destruct (while1 5 (Tweak.main_body t gl) 1 w1)
        as [[[[x |] v] | e | ft |] w']
  end; cbn [fst snd] in *; try discriminate; [| exfalso; apply H; reflexivity].
  unfold bind, peek_gap, rpb, Tweak.write_gap, printf, ret.
  cbn [fp fp_out stdout].
  destruct (negb _); discriminate.
Qed.

(** * Further properties of the code *)

(** ** The frame reader and the frame writer, continued *)

Lemma rpb_loop_eof (f : list byte) (i : nat) (word g n : Z) :
  (i < 3)%nat -> 0 <= word < 2 ^ (6 * Z.of_nat i) ->
  rpb_word (rpb_loop f i word g n) = u32 EOF <-> (data_frames f + i < 3)%nat.
Proof.
  revert i word g n.
  induction f as [| b f IH]; intros i word g n Hi Hw.
  - cbn. split; [intros _; lia | reflexivity].
  - unfold data_frames. cbn [rpb_loop List.filter].
    fold (is_data_frame b).
    destruct (is_data_frame b); cbn [negb length]; fold (data_frames f).
    + assert (Hacc : Z.lor (u32 (Z.shiftl word 6)) (Z.land (byte.unsigned b) 0x3f)
                     = word * 64 + byte.unsigned b mod 64).
      { rewrite land_low6. apply rpb_accumulate.
        - destruct i as [| [| [| i]]]; cbn in Hw; lia.
        - apply Z.mod_pos_bound. lia. }
      rewrite Hacc.
      pose proof (Z.mod_pos_bound (byte.unsigned b) 64 ltac:(lia)) as Hp.
      destruct (Nat.ltb_spec (S i) 3) as [Hlt | Hge].
      * rewrite IH; [lia | exact Hlt |].
        destruct i as [| [| [| i]]]; cbn in Hw |- *; lia.
      * cbn [rpb_word]. split; [| lia]. intros E. exfalso.
        change (u32 EOF) with 4294967295 in E.
        destruct i as [| [| [| i]]]; cbn in Hw; lia.
    + destruct (negb (i =? 0)%nat); apply IH; assumption.
Qed.

(** X1. [rpb] returns [EOF] exactly when fewer than three data frames are
    left in the stream, and has then read the stream to its end; otherwise
    it returns a word below 2^18, which [EOF] is not, and has read at
    least three frames. *)
Theorem rpb_end_of_stream (f : list byte) :
  let r := rpb_loop f 0 0 0 0 in
  (rpb_word r = u32 EOF <-> (data_frames f < 3)%nat) /\
  (rpb_word r = u32 EOF -> rpb_fp r = []) /\
  (rpb_word r <> u32 EOF ->
   word18 (rpb_word r) /\ (length (rpb_fp r) + 3 <= length f)%nat).
Proof.
  intros r. subst r. split; [| split].
  - rewrite (rpb_loop_eof f 0 0 0 0); [lia | lia | cbn; lia].
  - intros E. pose proof (rpb_loop_word f 0 0 0 0) as R. cbn zeta in R.
    destruct R as [[_ R] | [R _]]; [lia | cbn; lia | exact R |].
    exfalso. exact (word18_not_EOF _ R E).
  - intros E. pose proof (rpb_loop_word f 0 0 0 0) as R. cbn zeta in R.
    destruct R as [[R _] | [R1 R2]]; [lia | cbn; lia | congruence |].
    split; [exact R1 | lia].
Qed.

(** The blank frames of [write_gap] in front of a stream. *)
Lemma rpb_loop_blank_run (k : nat) (f : list byte) (word g n : Z) :
  0 <= g < 2 ^ 32 ->
  rpb_loop (repeat (byte.of_Z 0) k ++ f) 0 word g n
  = rpb_loop f 0 word (u32 (g + Z.of_nat k)) n.
Proof.
  revert g. induction k as [| k IH]; intros g Hg.
  - cbn [repeat app]. change (Z.of_nat 0) with 0.
    rewrite Z.add_0_r, u32_small by lia. reflexivity.
  - rewrite Nat2Z.inj_succ. cbn [repeat app rpb_loop].
    change (negb (Z.land (byte.unsigned (byte.of_Z 0)) 0x80 =? 0)) with false.
    cbn [Nat.eqb negb]. cbv iota.
    rewrite IH by apply u32_range. rewrite u32_succ.
    replace (g + Z.succ (Z.of_nat k)) with (g + (1 + Z.of_nat k)) by lia.
    reflexivity.
Qed.

Lemma word_groups (word : Z) :
  ((word / 4096) mod 64 * 64 + (word / 64) mod 64) * 64 + word mod 64
  = word mod 2 ^ 18.
Proof.
  change (2 ^ 18) with 262144.
  pose proof (Z.div_mod word 64 ltac:(lia)) as D1.
  pose proof (Z.div_mod (word / 64) 64 ltac:(lia)) as D2.
  pose proof (Z.div_mod (word / 64 / 64) 64 ltac:(lia)) as D3.
  pose proof (Z.mod_pos_bound word 64 ltac:(lia)) as B1.
  pose proof (Z.mod_pos_bound (word / 64) 64 ltac:(lia)) as B2.
  pose proof (Z.mod_pos_bound (word / 64 / 64) 64 ltac:(lia)) as B3.
  assert (D4 : word / 4096 = word / 64 / 64)
    by (rewrite Z.div_div by lia; reflexivity).
  rewrite D4.
  apply (Z.mod_unique word 262144 (word / 64 / 64 / 64)); lia.
Qed.

(** The frames of [ppb] in front of a stream, for any value of the word. *)
Lemma rpb_loop_ppb_frames (word : Z) (rest : list byte) (g n : Z) :
  rpb_loop (ppb_frames word ++ rest) 0 0 g n
  = RpbResult (word mod 2 ^ 18) g n rest.
Proof.
  destruct (ppb_groups word) as (Ea & Eb & Ec).
  set (a := (word / 4096) mod 64) in *.
  set (b := (word / 64) mod 64) in *.
  set (c := word mod 64) in *.
  assert (Ha : 0 <= a < 64) by (apply Z.mod_pos_bound; lia).
  assert (Hb : 0 <= b < 64) by (apply Z.mod_pos_bound; lia).
  assert (Hc : 0 <= c < 64) by (apply Z.mod_pos_bound; lia).
  destruct (marker_frame a Ha) as (Ma & Pa).
  destruct (marker_frame b Hb) as (Mb & Pb).
  destruct (marker_frame c Hc) as (Mc & Pc).
  rewrite ppb_frames_eq, Ea, Eb, Ec. cbn [app rpb_loop].
  rewrite Ma, Mb, Mc, Pa, Pb, Pc. cbn [negb Nat.ltb Nat.leb].
  rewrite (rpb_accumulate 0 a), (rpb_accumulate _ b), (rpb_accumulate _ c)
    by lia.
  subst a b c. rewrite Z.mul_0_l, Z.add_0_l, word_groups. reflexivity.
Qed.

(** X2. A gap written by [write_gap] followed by a word written by [ppb]
    is read back by [rpb] as the low 18 bits of the word, with the length
    of the gap as gap frames (none for a negative length) and no inner
    frame, and the read stops right after the word. *)
Theorem gap_word_roundtrip (length word : Z) (rest out : list byte)
  (so : list (string * list arg)) :
  length < 2 ^ 32 ->
  let written :=
    fp_out (snd ((Tweak.write_gap length ;; Tweak.ppb word) (World [] [] []))) in
  rpb (World (written ++ rest) out so)
  = (Ret (word mod 2 ^ 18, Z.max 0 length, 0), World rest out so).
Proof.
  intros Hl written. subst written. unfold bind, Tweak.write_gap.
  rewrite ppb_appends. cbn [fp fp_out stdout snd app].
  unfold rpb. cbn [fp fp_out stdout]. rewrite <- app_assoc.
  rewrite rpb_loop_blank_run by lia. rewrite rpb_loop_ppb_frames.
  cbn [rpb_word rpb_gap_frames rpb_inner_frames rpb_fp].
  rewrite Z.add_0_l.
  replace (Z.of_nat (Z.to_nat length)) with (Z.max 0 length) by lia.
  rewrite u32_small by lia. reflexivity.
Qed.

Lemma gap_word_roundtrip_witness :
  18 < 2 ^ 32 /\
  rpb (World
         (fp_out (snd ((Tweak.write_gap 18 ;; Tweak.ppb 0x38064)
                         (World [] [] []))) ++ [])
         [] [])
  = (Ret (0x38064, 18, 0), World [] [] []).
Proof.
  assert (H : 18 < 2 ^ 32) by lia.
  split; [exact H |]. exact (gap_word_roundtrip 18 0x38064 [] [] [] H).
Defined.



(** ** The checksum, continued *)

Lemma add_1s_complement_comm (a b : Z) :
  add_1s_complement a b = add_1s_complement b a.
Proof. unfold add_1s_complement. rewrite (Z.add_comm a b). reflexivity. Qed.

Lemma add_1s_complement_assoc (a b c : Z) :
  word18 a -> word18 b -> word18 c ->
  add_1s_complement (add_1s_complement a b) c
  = add_1s_complement a (add_1s_complement b c).
Proof.
  intros Ha Hb Hc.
  pose proof (add_1s_complement_word18 a b Ha Hb) as Hab.
  pose proof (add_1s_complement_word18 b c Hb Hc) as Hbc.
  destruct (add_1s_complement_cases _ _ Hab Hc) as [[L1 L2] | [L1 L2]];
  destruct (add_1s_complement_cases _ _ Ha Hbc) as [[R1 R2] | [R1 R2]];
  rewrite L2, R2; clear L2 R2;
  destruct (add_1s_complement_cases _ _ Ha Hb) as [[P1 P2] | [P1 P2]];
  destruct (add_1s_complement_cases _ _ Hb Hc) as [[Q1 Q2] | [Q1 Q2]];
  rewrite P2 in *; rewrite Q2 in *; unfold word18 in *;
  change (2 ^ 18) with 262144 in *; lia.
Qed.

(** X4. On 18-bit words the end-around-carry addition stays within 18
    bits, is commutative and associative, has 0 as neutral element, is the
    plain sum modulo 2^18 - 1 (the carry added back never carries again),
    and gives 0 only for 0 + 0. *)
Theorem add_1s_complement_algebra (a b c : Z) :
  word18 a -> word18 b -> word18 c ->
  word18 (add_1s_complement a b) /\
  add_1s_complement a b = add_1s_complement b a /\
  add_1s_complement (add_1s_complement a b) c
  = add_1s_complement a (add_1s_complement b c) /\
  add_1s_complement a 0 = a /\
  (add_1s_complement a b = a + b \/
   add_1s_complement a b = a + b - (2 ^ 18 - 1)) /\
  add_1s_complement a b mod (2 ^ 18 - 1) = (a + b) mod (2 ^ 18 - 1) /\
  (add_1s_complement a b = 0 <-> a = 0 /\ b = 0).
Proof.
  intros Ha Hb Hc.
  assert (H0 : word18 0) by (unfold word18; lia).
  split; [apply add_1s_complement_word18; assumption |].
  split; [apply add_1s_complement_comm |].
  split; [apply add_1s_complement_assoc; assumption |].
  split.
  { destruct (add_1s_complement_cases a 0 Ha H0) as [[_ E] | [H _]];
      unfold word18 in *; lia. }
  destruct (add_1s_complement_cases a b Ha Hb) as [[H E] | [H E]];
    rewrite E; unfold word18 in *.
  - split; [left; reflexivity |]. split; [reflexivity | lia].
  - split; [right; reflexivity |]. split; [| lia].
    replace (a + b - (2 ^ 18 - 1)) with (a + b + -1 * (2 ^ 18 - 1)) by lia.
    apply Z.mod_add. lia.
Qed.

Lemma add_1s_complement_algebra_witness :
  word18 0x3ffff /\ word18 1 /\ word18 0x3fffe /\
  add_1s_complement (add_1s_complement 0x3ffff 1) 0x3fffe
  = add_1s_complement 0x3ffff (add_1s_complement 1 0x3fffe).
Proof.
  assert (Ha : word18 0x3ffff) by (unfold word18; lia).
  assert (Hb : word18 1) by (unfold word18; lia).
  assert (Hc : word18 0x3fffe) by (unfold word18; lia).
  split; [exact Ha |]. split; [exact Hb |]. split; [exact Hc |].
  exact (proj1 (proj2 (proj2
           (add_1s_complement_algebra 0x3ffff 1 0x3fffe Ha Hb Hc)))).
Defined.

Lemma checksum_from_permutation (l l' : list Z) :
  l ≡ₚ l' ->
  forall acc, word18 acc -> Forall word18 l ->
  checksum_from acc l = checksum_from acc l'.
Proof.
  induction 1 as [| x l l' Hp IH | x y l | l l' l'' Hp1 IH1 Hp2 IH2];
    intros acc Hacc Hl.
  - reflexivity.
  - inversion Hl as [| ? ? Hx Hl']; subst. cbn.
    apply IH; [apply add_1s_complement_word18; assumption | exact Hl'].
  - inversion Hl as [| ? ? Hy Hl']; subst.
    inversion Hl' as [| ? ? Hx Hl'']; subst. cbn. f_equal.
    rewrite !add_1s_complement_assoc by assumption.
    f_equal. apply add_1s_complement_comm.
  - rewrite IH1 by assumption. apply IH2; [exact Hacc |].
    rewrite <- Hp1. exact Hl.
Qed.

(** X5. The checksum of a section does not depend on the order of its
    data words: a section whose 18-bit data words are permuted still
    verifies against the original checksum. *)
Theorem checksum_permutation (l l' : list Z) (w : world) :
  Forall word18 l -> l ≡ₚ l' ->
  checksum_of l' = checksum_of l /\
  fst (Decodehcint.verify_checksum (checksum_of l) (checksum_of l') w) = Ret tt /\
  fst (Tweak.verify_checksum (checksum_of l) (checksum_of l') w) = Ret tt.
Proof.
  intros Hl Hp.
  assert (E : checksum_of l' = checksum_of l).
  { symmetry. apply checksum_from_permutation; [exact Hp | | exact Hl].
    unfold word18. lia. }
  split; [exact E |]. rewrite E.
  unfold Decodehcint.verify_checksum, Tweak.verify_checksum.
  rewrite Z.eqb_refl. split; reflexivity.
Qed.

Lemma checksum_permutation_witness :
  Forall word18 [1; 2; 0x3ffff] /\ [1; 2; 0x3ffff] ≡ₚ [0x3ffff; 1; 2] /\
  checksum_of [0x3ffff; 1; 2] = checksum_of [1; 2; 0x3ffff].
Proof.
  assert (Hl : Forall word18 [1; 2; 0x3ffff])
    by (repeat constructor; unfold word18; lia).
  assert (Hp : [1; 2; 0x3ffff] ≡ₚ [0x3ffff; 1; 2]).
  { change [1; 2; 0x3ffff] with ([1; 2] ++ [0x3ffff])%list.
    change [0x3ffff; 1; 2] with ([0x3ffff] ++ [1; 2])%list.
    apply Permutation_app_comm. }
  split; [exact Hl |]. split; [exact Hp |].
  exact (proj1 (checksum_permutation _ _ (World [] [] []) Hl Hp)).
Defined.

(** ** The sections of tweak.c, continued *)

(** [read_next_word] of tweak.c at the end of the stream. *)
Lemma tweak_read_next_word_eof (f f' out : list byte)
  (so : list (string * list arg)) (g word_count peek : Z) :
  rpb_loop f 0 0 0 0 = RpbResult (u32 EOF) g 0 f' ->
  Tweak.read_next_word word_count peek (World f out so)
  = (Ret (u32 EOF, u32 EOF, word_count, g), World f' out so).
Proof.
  intros E. unfold Tweak.read_next_word, bind, rpb. cbn [fp fp_out stdout].
  rewrite E. reflexivity.
Qed.

(** A turn of [copy_notes] on a data word, with or without override. *)
Lemma copy_notes_body_written (tempo : Z) (v : Tweak.notes_vars)
  (f f' out : list byte) (so : list (string * list arg)) (g x : Z) :
  next_word f = Some (g, x, f') ->
  1 <= Tweak.n_part_word_count v <= Tweak.n_total_word_count v ->
  Tweak.n_total_word_count v < 2 ^ 18 ->
  exists so',
    Tweak.copy_notes_body tempo v (World f out so)
    = (Ret (Continue
              (Tweak.NotesVars
                 (add_1s_complement (Tweak.n_checksum v) x)
                 (Tweak.n_part_word_count v + 1)
                 (Tweak.n_total_word_count v)
                 (u32 (Tweak.n_word_count v + 1))
                 (add_1s_complement (Tweak.n_new_checksum v)
                    (written tempo x)))),
       World f' (out ++ ppb_frames (written tempo x)) so').
Proof.
  intros Hw Hk Hn. unfold written.
  destruct (Z.eqb_spec tempo (u32 (-1))) as [Et | Et].
  - unfold Tweak.copy_notes_body, bind.
    rewrite (tweak_read_next_word _ _ _ _ _ _ _ _ Hw). cbv iota beta zeta.
    change (0 =? u32 EOF) with false. cbv iota.
    rewrite (u32_small (Tweak.n_part_word_count v + 1)) by lia.
    rewrite (u32_small (Tweak.n_total_word_count v + 2)) by lia.
    apply Z.eqb_eq in Et. rewrite Et. cbn [negb]. rewrite andb_false_r.
    decide_tests; run_steps; decide_tests; run_steps;
      change (0 =? 0) with true; run_steps; decide_tests; run_steps;
      eexists; reflexivity.
  - apply (copy_notes_body_data tempo v f f' out so g x); assumption.
Qed.

(** A turn of [copy_notes] at the end of the stream. *)
Lemma copy_notes_body_eof (tempo : Z) (v : Tweak.notes_vars)
  (f f' out : list byte) (so : list (string * list arg)) (g : Z) :
  rpb_loop f 0 0 0 0 = RpbResult (u32 EOF) g 0 f' ->
  Tweak.copy_notes_body tempo v (World f out so)
  = (Ret (Return EOF v), World f' out so).
Proof.
  intros E. unfold Tweak.copy_notes_body, bind.
  rewrite (tweak_read_next_word_eof _ _ _ _ _ _ _ E). cbv iota beta zeta.
  rewrite Z.eqb_refl. destruct v. reflexivity.
Qed.

(** The last turn of [copy_notes] on a checksum word that differs from the
    checksum of the data words read. *)
Lemma copy_notes_body_mismatch (tempo : Z) (v : Tweak.notes_vars)
  (f f' out : list byte) (so : list (string * list arg)) (g x : Z) :
  next_word f = Some (g, x, f') ->
  x <> Tweak.n_checksum v ->
  1 <= Tweak.n_part_word_count v ->
  Tweak.n_part_word_count v = Tweak.n_total_word_count v + 1 ->
  Tweak.n_total_word_count v < 2 ^ 18 ->
  Tweak.copy_notes_body tempo v (World f out so)
  = (Exit (ChecksumMismatchError x (Tweak.n_checksum v)),
     World f' out
       (so ++ [("checksum mismatch: expected: %06o, calculated: %06o\n",
                [I x; I (Tweak.n_checksum v)])])).
Proof.
  intros Hw Hx Hk Hkn Hn. unfold Tweak.copy_notes_body, bind.
  rewrite (tweak_read_next_word _ _ _ _ _ _ _ _ Hw). cbv iota beta zeta.
  change (0 =? u32 EOF) with false. cbv iota.
  rewrite (u32_small (Tweak.n_part_word_count v + 1)) by lia.
  rewrite (u32_small (Tweak.n_total_word_count v + 2)) by lia.
  rewrite Z.gtb_ltb.
  destruct (Z.ltb_spec 1 (Tweak.n_part_word_count v + 1)); [| lia].
  destruct (Z.ltb_spec (Tweak.n_part_word_count v + 1)
              (Tweak.n_total_word_count v + 2)); [lia |].
  destruct (Z.eqb_spec (Tweak.n_part_word_count v + 1) 1); [lia |].
  destruct (Z.eqb_spec (Tweak.n_part_word_count v + 1)
              (Tweak.n_total_word_count v + 2)); [| lia].
  cbn [andb]. cbv iota. unfold Tweak.verify_checksum.
  apply Z.eqb_neq in Hx. rewrite Hx. unfold bind, printf, exit.
  cbn [fp fp_out stdout]. reflexivity.
Qed.

(** The turns of [copy_notes] on data words. *)
Lemma copy_notes_run (tempo : Z) (data : list (Z * Z)) :
  forall (fuel : nat) (v : Tweak.notes_vars) (f f1 out : list byte)
    (so : list (string * list arg)),
  words_of (length data) f = Some (data, f1) ->
  1 <= Tweak.n_part_word_count v ->
  Tweak.n_part_word_count v + Z.of_nat (length data)
  <= Tweak.n_total_word_count v + 1 ->
  Tweak.n_total_word_count v < 2 ^ 18 ->
  exists wc' so',
    while1 (length data + fuel) (Tweak.copy_notes_body tempo) v (World f out so)
    = while1 fuel (Tweak.copy_notes_body tempo)
        (Tweak.NotesVars
           (checksum_from (Tweak.n_checksum v) (map snd data))
           (Tweak.n_part_word_count v + Z.of_nat (length data))
           (Tweak.n_total_word_count v) wc'
           (checksum_from (Tweak.n_new_checksum v)
              (map (written tempo) (map snd data))))
        (World f1
           (out ++ flat_map ppb_frames (map (written tempo) (map snd data)))
           so').
Proof.
  induction data as [| [g x] data IH]; intros fuel v f f1 out so Hws Hk Hkn Hn.
  - cbn [words_of length] in Hws. injection Hws as <-.
    cbn [length map flat_map checksum_from fold_left Nat.add].
    rewrite Z.add_0_r, app_nil_r. destruct v. eexists. eexists. reflexivity.
  - cbn [length] in Hws, Hkn. rewrite Nat2Z.inj_succ in Hkn.
    apply words_of_S in Hws. destruct Hws as (f2 & Hw & Hws).
    cbn [length Nat.add]. rewrite while1_S.
    destruct (copy_notes_body_written tempo v f f2 out so g x Hw)
      as [so1 E]; try lia.
    rewrite E.
    edestruct (IH fuel
                 (Tweak.NotesVars
                    (add_1s_complement (Tweak.n_checksum v) x)
                    (Tweak.n_part_word_count v + 1)
                    (Tweak.n_total_word_count v)
                    (u32 (Tweak.n_word_count v + 1))
                    (add_1s_complement (Tweak.n_new_checksum v)
                       (written tempo x)))
                 f2 f1 (out ++ ppb_frames (written tempo x))%list so1)
      as (wc' & so' & E'); [exact Hws | cbn; lia | cbn; lia | cbn; lia |].
    rewrite E'. cbn [Tweak.n_checksum Tweak.n_part_word_count
      Tweak.n_total_word_count Tweak.n_new_checksum map flat_map].
    rewrite <- !app_assoc. rewrite Nat2Z.inj_succ.
    replace (Tweak.n_part_word_count v + 1 + Z.of_nat (length data))
      with (Tweak.n_part_word_count v + Z.succ (Z.of_nat (length data)))
      by lia.
    eexists. eexists. reflexivity.
Qed.

Lemma words_of_app (n m : nat) (f f1 f2 : list byte) (l1 l2 : list (Z * Z)) :
  words_of n f = Some (l1, f1) -> words_of m f1 = Some (l2, f2) ->
  words_of (n + m) f = Some ((l1 ++ l2)%list, f2).
Proof.
  revert f l1. induction n as [| n IH]; intros f l1 H1 H2.
  - cbn [words_of] in H1. injection H1 as <- <-. exact H2.
  - cbn [words_of Nat.add] in H1 |- *.
    destruct (next_word f) as [[[g x] f'] |]; [| discriminate].
    destruct (words_of n f') as [[ws f''] |] eqn:E; [| discriminate].
    injection H1 as <- <-. rewrite (IH f' ws E H2). reflexivity.
Qed.

Lemma words_of_split (n m : nat) (f f2 : list byte) (l : list (Z * Z)) :
  words_of (n + m) f = Some (l, f2) ->
  exists f1, words_of n f = Some (take n l, f1) /\
             words_of m f1 = Some (drop n l, f2).
Proof.
  revert f l. induction n as [| n IH]; intros f l H.
  - exists f. split; [reflexivity | exact H].
  - cbn [words_of Nat.add] in H |- *.
    destruct (next_word f) as [[[g x] f'] |]; [| discriminate].
    destruct (words_of (n + m) f') as [[ws f''] |] eqn:E; [| discriminate].
    injection H as <- <-. destruct (IH f' ws E) as (f1 & H1 & H2).
    exists f1. rewrite H1. split; [reflexivity | exact H2].
Qed.

(** Every word read takes at least one frame. *)
Lemma words_of_length (n : nat) (f f' : list byte) (ws : list (Z * Z)) :
  words_of n f = Some (ws, f') ->
  length ws = n /\ (length f' + n <= length f)%nat.
Proof.
  revert f ws. induction n as [| n IH]; intros f ws H.
  - cbn [words_of] in H. injection H as <- <-. cbn. lia.
  - cbn [words_of] in H.
    destruct (next_word f) as [[[g x] f1] |] eqn:Hw; [| discriminate].
    destruct (words_of n f1) as [[ws' f0] |] eqn:E; [| discriminate].
    injection H as <- <-.
    destruct (next_word_some _ _ _ _ Hw) as (_ & _ & _ & L).
    destruct (IH _ _ E) as [E' L']. cbn [length]. lia.
Qed.

(** The words of a section: count, data words, checksum word. *)
Lemma section_words (data : list (Z * Z)) (f rest : list byte)
  (g0 n gk c : Z) :
  words_of (S (S (length data))) f
  = Some ((g0, n) :: (data ++ [(gk, c)])%list, rest) ->
  exists f1 f2,
    next_word f = Some (g0, n, f1) /\
    words_of (length data) f1 = Some (data, f2) /\
    next_word f2 = Some (gk, c, rest) /\
    (length f2 + length data < length f)%nat /\ word18 n.
Proof.
  intros H. apply words_of_S in H. destruct H as (f1 & Hw & H).
  replace (S (length data)) with (length data + 1)%nat in H by lia.
  apply words_of_split in H. destruct H as (f2 & H1 & H2).
  rewrite take_app_length in H1. rewrite drop_app_length in H2.
  apply words_of_S in H2. destruct H2 as (f3 & Hk & H3).
  cbn [words_of] in H3. injection H3 as <-.
  destruct (next_word_some _ _ _ _ Hw) as (_ & Hn & _ & L1).
  destruct (words_of_length _ _ _ _ H1) as [_ L3].
  exists f1, f2. split; [exact Hw |]. split; [exact H1 |].
  split; [exact Hk |]. split; [lia | exact Hn].
Qed.

(** [copy_notes] up to the checksum word of a section. *)
Lemma copy_notes_to_checksum (tempo : Z) (data : list (Z * Z))
  (f f1 f2 out : list byte) (so : list (string * list arg)) (g0 : Z) :
  next_word f = Some (g0, Z.of_nat (length data), f1) ->
  words_of (length data) f1 = Some (data, f2) ->
  exists wc' so',
    while1 (S (length f)) (Tweak.copy_notes_body tempo)
      (Tweak.NotesVars 0 0 0 0 0) (World f out so)
    = while1 (length f - length data) (Tweak.copy_notes_body tempo)
        (Tweak.NotesVars (checksum_of (map snd data))
           (Z.of_nat (length data) + 1) (Z.of_nat (length data)) wc'
           (checksum_of (map (written tempo) (map snd data))))
        (World f2
           (out ++ ppb_frames (Z.of_nat (length data))
                ++ flat_map ppb_frames (map (written tempo) (map snd data)))
           so').
Proof.
  intros Hw Hws.
  destruct (next_word_some _ _ _ _ Hw) as (_ & Hn & _ & L1).
  destruct (words_of_length _ _ _ _ Hws) as [_ L3].
  replace (S (length f))
    with (S (length data + (length f - length data)))%nat by lia.
  rewrite while1_S.
  rewrite (copy_notes_body_count tempo (Tweak.NotesVars 0 0 0 0 0)
             f f1 out so g0 _ Hw eq_refl).
  cbn [Tweak.n_checksum Tweak.n_word_count Tweak.n_new_checksum].
  edestruct (copy_notes_run tempo data (length f - length data)
               (Tweak.NotesVars 0 1 (Z.of_nat (length data)) (u32 (0 + 1)) 0)
               f1 f2 (out ++ ppb_frames (Z.of_nat (length data)))%list so)
    as (wc' & so' & E);
    [exact Hws | cbn; lia | cbn; lia | cbn; unfold word18 in Hn; lia |].
  rewrite E. cbn [Tweak.n_checksum Tweak.n_part_word_count
    Tweak.n_total_word_count Tweak.n_new_checksum].
  rewrite <- !app_assoc. rewrite (Z.add_comm 1).
  eexists. eexists. reflexivity.
Qed.

(** [copy_notes] on a section that it accepts, with or without override. *)
Lemma copy_notes_accepts (tempo : Z) (data : list (Z * Z))
  (f out rest : list byte) (so : list (string * list arg)) (g0 gk : Z) :
  words_of (S (S (length data))) f
  = Some ((g0, Z.of_nat (length data))
            :: (data ++ [(gk, checksum_of (map snd data))])%list,
          rest) ->
  exists so',
    Tweak.copy_notes tempo (World f out so)
    = (Ret 0,
       World rest
         (out ++ section_frames (map (written tempo) (map snd data))) so').
Proof.
  intros Hws. destruct (section_words _ _ _ _ _ _ _ Hws)
    as (f1 & f2 & Hw & Hd & Hk & L & Hn).
  unfold Tweak.copy_notes. cbn [fp]. unfold bind at 1.
  destruct (copy_notes_to_checksum tempo data f f1 f2 out so g0 Hw Hd)
    as (wc' & so1 & E).
  rewrite E.
  destruct (length f - length data)%nat as [| fuel] eqn:Ef; [lia |].
  rewrite while1_S.
  rewrite (copy_notes_body_checksum tempo _ f2 rest _ so1 gk);
    cbn [Tweak.n_checksum Tweak.n_part_word_count Tweak.n_total_word_count
         Tweak.n_new_checksum]; [| exact Hk | lia | lia
                                 | unfold word18 in Hn; lia].
  unfold printf, ret, bind. cbn [fp fp_out stdout].
  unfold section_frames. cbn [flat_map]. rewrite flat_map_app.
  cbn [flat_map]. rewrite app_nil_r, !length_map, <- !app_assoc.
  eexists. reflexivity.
Qed.

(** A run of a step that returns, in front of a continuation. *)
Lemma bind_run {A B : Type} (m : M A) (k : A -> M B) (w w' : world) (a : A) :
  m w = (Ret a, w') -> bind m k w = k a w'.
Proof. intros E. unfold bind. rewrite E. reflexivity. Qed.

(** [copy_notes] on a section that its checksum loop reads to the end. *)
Lemma copy_notes_fuel (data : list (Z * Z)) (f f1 f2 rest : list byte)
  (g0 n gk c : Z) :
  next_word f = Some (g0, n, f1) ->
  words_of (length data) f1 = Some (data, f2) ->
  exists fuel, (length f - length data)%nat = S fuel.
Proof.
  intros Hw Hd.
  destruct (next_word_some _ _ _ _ Hw) as (_ & _ & _ & L1).
  destruct (words_of_length _ _ _ _ Hd) as [_ L3].
  exists (length f - length data - 1)%nat. lia.
Qed.

(** ** The BARS section of tweak.c, continued *)

(** The first turn of [copy_bars] copies the count. *)
Lemma copy_bars_body_count (v : Tweak.bars_vars)
  (f f' out : list byte) (so : list (string * list arg)) (g x : Z) :
  next_word f = Some (g, x, f') ->
  g <> 0 ->
  Tweak.b_part_word_count v = 0 ->
  Tweak.copy_bars_body v (World f out so)
  = (Ret (Continue (Tweak.BarsVars (Tweak.b_checksum v) g 1 x
                      (u32 (Tweak.b_word_count v + 1)))),
     World f' (out ++ ppb_frames x) so).
Proof.
  intros Hw Hg Hk. unfold Tweak.copy_bars_body, bind.
  rewrite (tweak_read_next_word _ _ _ _ _ _ _ _ Hw). cbv iota beta zeta.
  rewrite Hk. change (0 =? u32 EOF) with false. change (u32 (0 + 1)) with 1.
  change (1 =? 1) with true. change (1 >? 1) with false. cbv iota beta.
  apply Z.eqb_neq in Hg. rewrite Hg. cbn [andb]. rewrite ppb_appends.
  unfold ret. cbn [fp fp_out stdout]. reflexivity.
Qed.

(** A turn of [copy_bars] on a data word. *)
Lemma copy_bars_body_data (v : Tweak.bars_vars)
  (f f' out : list byte) (so : list (string * list arg)) (g x : Z) :
  next_word f = Some (g, x, f') ->
  1 <= Tweak.b_part_word_count v <= Tweak.b_total_word_count v ->
  Tweak.b_total_word_count v < 2 ^ 18 ->
  Tweak.copy_bars_body v (World f out so)
  = (Ret (Continue
            (Tweak.BarsVars (add_1s_complement (Tweak.b_checksum v) x) g
               (Tweak.b_part_word_count v + 1) (Tweak.b_total_word_count v)
               (u32 (Tweak.b_word_count v + 1)))),
     World f' (out ++ ppb_frames x) so).
Proof.
  intros Hw Hk Hn. unfold Tweak.copy_bars_body, bind.
  rewrite (tweak_read_next_word _ _ _ _ _ _ _ _ Hw). cbv iota beta zeta.
  change (0 =? u32 EOF) with false. cbv iota.
  rewrite (u32_small (Tweak.b_part_word_count v + 1)) by lia.
  rewrite (u32_small (Tweak.b_total_word_count v + 2)) by lia.
  decide_tests; run_steps; reflexivity.
Qed.

(** The last turn of [copy_bars] checks and copies the checksum word, then
    looks ahead for a further word. *)
Lemma copy_bars_body_checksum (v : Tweak.bars_vars)
  (f f' out : list byte) (so : list (string * list arg)) (g : Z) :
  next_word f = Some (g, Tweak.b_checksum v, f') ->
  1 <= Tweak.b_part_word_count v ->
  Tweak.b_part_word_count v = Tweak.b_total_word_count v + 1 ->
  Tweak.b_total_word_count v < 2 ^ 18 ->
  exists v',
    Tweak.copy_bars_body v (World f out so)
    = (Ret (if rpb_word (rpb_loop f' 0 0 0 0) =? u32 EOF
            then Return EOF v' else Break v'),
       World f' (out ++ ppb_frames (Tweak.b_checksum v))
         (so ++ [("good checksum", [])])).
Proof.
  intros Hw Hk Hkn Hn. unfold Tweak.copy_bars_body, bind.
  rewrite (tweak_read_next_word _ _ _ _ _ _ _ _ Hw). cbv iota beta zeta.
  change (0 =? u32 EOF) with false. cbv iota.
  rewrite (u32_small (Tweak.b_part_word_count v + 1)) by lia.
  rewrite (u32_small (Tweak.b_total_word_count v + 2)) by lia.
  rewrite Z.gtb_ltb.
  destruct (Z.ltb_spec 1 (Tweak.b_part_word_count v + 1)); [| lia].
  destruct (Z.ltb_spec (Tweak.b_part_word_count v + 1)
              (Tweak.b_total_word_count v + 2)); [lia |].
  destruct (Z.eqb_spec (Tweak.b_part_word_count v + 1) 1); [lia |].
  destruct (Z.eqb_spec (Tweak.b_part_word_count v + 1)
              (Tweak.b_total_word_count v + 2)); [| lia].
  cbn [andb]. cbv iota. unfold Tweak.verify_checksum.
  rewrite Z.eqb_refl. unfold puts, printf. cbn [fp fp_out stdout].
  rewrite ppb_appends. cbn [fp fp_out stdout].
  unfold peek_gap, rpb. cbn [fp fp_out stdout].
  destruct (rpb_word (rpb_loop f' 0 0 0 0) =? u32 EOF);
    eexists; unfold ret; reflexivity.
Qed.

(** The turns of [copy_bars] on data words. *)
Lemma copy_bars_run (data : list (Z * Z)) :
  forall (fuel : nat) (v : Tweak.bars_vars) (f f1 out : list byte)
    (so : list (string * list arg)),
  words_of (length data) f = Some (data, f1) ->
  1 <= Tweak.b_part_word_count v ->
  Tweak.b_part_word_count v + Z.of_nat (length data)
  <= Tweak.b_total_word_count v + 1 ->
  Tweak.b_total_word_count v < 2 ^ 18 ->
  exists g' wc',
    while1 (length data + fuel) Tweak.copy_bars_body v (World f out so)
    = while1 fuel Tweak.copy_bars_body
        (Tweak.BarsVars
           (checksum_from (Tweak.b_checksum v) (map snd data)) g'
           (Tweak.b_part_word_count v + Z.of_nat (length data))
           (Tweak.b_total_word_count v) wc')
        (World f1 (out ++ flat_map ppb_frames (map snd data)) so).
Proof.
  induction data as [| [g x] data IH]; intros fuel v f f1 out so Hws Hk Hkn Hn.
  - cbn [words_of length] in Hws. injection Hws as <-.
    cbn [length map flat_map checksum_from fold_left Nat.add].
    rewrite Z.add_0_r, app_nil_r. destruct v. eexists. eexists. reflexivity.
  - cbn [length] in Hws, Hkn. rewrite Nat2Z.inj_succ in Hkn.
    apply words_of_S in Hws. destruct Hws as (f2 & Hw & Hws).
    cbn [length Nat.add]. rewrite while1_S.
    rewrite (copy_bars_body_data v f f2 out so g x Hw) by lia.
    edestruct (IH fuel
                 (Tweak.BarsVars (add_1s_complement (Tweak.b_checksum v) x) g
                    (Tweak.b_part_word_count v + 1)
                    (Tweak.b_total_word_count v)
                    (u32 (Tweak.b_word_count v + 1)))
                 f2 f1 (out ++ ppb_frames x)%list so)
      as (g' & wc' & E'); [exact Hws | cbn; lia | cbn; lia | cbn; lia |].
    rewrite E'. cbn [Tweak.b_checksum Tweak.b_part_word_count
      Tweak.b_total_word_count map flat_map snd].
    rewrite <- !app_assoc. rewrite Nat2Z.inj_succ.
    replace (Tweak.b_part_word_count v + 1 + Z.of_nat (length data))
      with (Tweak.b_part_word_count v + Z.succ (Z.of_nat (length data)))
      by lia.
    eexists. eexists. reflexivity.
Qed.

(** [copy_bars] on a section that it accepts. *)
Lemma copy_bars_accepts (data : list (Z * Z))
  (f out rest : list byte) (so : list (string * list arg)) (g0 gk : Z) :
  words_of (S (S (length data))) f
  = Some ((g0, Z.of_nat (length data))
            :: (data ++ [(gk, checksum_of (map snd data))])%list,
          rest) ->
  g0 <> 0 ->
  exists so',
    Tweak.copy_bars (World f out so)
    = (Ret (if rpb_word (rpb_loop rest 0 0 0 0) =? u32 EOF then EOF else 0),
       World rest (out ++ section_frames (map snd data)) so').
Proof.
  intros Hws Hg. destruct (section_words _ _ _ _ _ _ _ Hws)
    as (f1 & f2 & Hw & Hd & Hk & L & Hn).
  unfold Tweak.copy_bars. cbn [fp]. unfold bind at 1.
  replace (S (length f))
    with (S (length data + S (length f - length data - 1)))%nat by lia.
  rewrite while1_S.
  rewrite (copy_bars_body_count (Tweak.BarsVars 0 0 0 0 0)
             f f1 out so g0 _ Hw Hg eq_refl).
  cbn [Tweak.b_checksum Tweak.b_word_count].
  edestruct (copy_bars_run data (S (length f - length data - 1))
               (Tweak.BarsVars 0 g0 1 (Z.of_nat (length data)) (u32 (0 + 1)))
               f1 f2 (out ++ ppb_frames (Z.of_nat (length data)))%list so)
    as (g' & wc' & E);
    [exact Hd | cbn; lia | cbn; lia | cbn; unfold word18 in Hn; lia |].
  rewrite E. cbn [Tweak.b_checksum Tweak.b_part_word_count
    Tweak.b_total_word_count].
  rewrite while1_S.
  edestruct (copy_bars_body_checksum
               (Tweak.BarsVars (checksum_from 0 (map snd data)) g'
                  (1 + Z.of_nat (length data)) (Z.of_nat (length data)) wc')
               f2 rest
               ((out ++ ppb_frames (Z.of_nat (length data))) ++
                flat_map ppb_frames (map snd data))%list so gk)
    as (v' & E');
    [exact Hk | cbn; lia | cbn; lia | cbn; unfold word18 in Hn; lia |].
  rewrite E'. cbn [Tweak.b_checksum].
  unfold section_frames. cbn [flat_map]. rewrite flat_map_app.
  cbn [flat_map]. rewrite app_nil_r, !length_map, <- !app_assoc.
  fold (checksum_of (map snd data)).
  destruct (rpb_word (rpb_loop rest 0 0 0 0) =? u32 EOF).
  - unfold ret. eexists. reflexivity.
  - unfold printf, ret, bind. cbn [fp fp_out stdout]. eexists. reflexivity.
Qed.

(** ** Sections in the form [ppb] writes them *)

(** The frames of [ppb] read back as the words written. *)
Lemma words_of_ppb_frames (ws : list Z) (rest : list byte) :
  Forall word18 ws ->
  words_of (length ws) (flat_map ppb_frames ws ++ rest)
  = Some (map (pair 0) ws, rest).
Proof.
  intros H. induction H as [| x ws Hx _ IH]; [reflexivity |].
  cbn [length flat_map words_of map]. rewrite <- app_assoc.
  unfold next_word. rewrite rpb_loop_ppb_frames.
  cbn [rpb_word rpb_gap_frames rpb_inner_frames rpb_fp].
  rewrite Z.mod_small by exact Hx.
  destruct (Z.eqb_spec x (u32 EOF)) as [E | _].
  { change (u32 EOF) with 4294967295 in E. unfold word18 in Hx. lia. }
  cbn [Z.eqb andb negb]. rewrite IH. reflexivity.
Qed.

Lemma words_of_section_frames (ws : list Z) (rest : list byte) :
  Forall word18 ws -> word18 (Z.of_nat (length ws)) ->
  words_of (S (S (length ws))) (section_frames ws ++ rest)
  = Some ((0, Z.of_nat (length ws))
            :: (map (pair 0) ws ++ [(0, checksum_of ws)])%list, rest).
Proof.
  intros Hws Hn. unfold section_frames.
  assert (Hall : Forall word18
                   (Z.of_nat (length ws) :: ws ++ [checksum_of ws])).
  { constructor; [exact Hn |]. apply Forall_app. split; [exact Hws |].
    constructor; [| constructor].
    apply checksum_from_word18; [unfold word18; lia | exact Hws]. }
  pose proof (words_of_ppb_frames _ rest Hall) as E.
  cbn [length] in E. rewrite length_app in E. cbn [length] in E.
  replace (length ws + 1)%nat with (S (length ws)) in E by lia.
  rewrite E. cbn [map]. rewrite map_app. reflexivity.
Qed.

Lemma written_word18 (tempo x : Z) : word18 x -> word18 (written tempo x).
Proof.
  intros Hx. unfold written, retempo.
  destruct (tempo =? u32 (-1)); [exact Hx |].
  destruct (Z.land x 0x38000 =? 0x38000); [| exact Hx].
  destruct (tempo_word tempo) as [E _]. rewrite E.
  pose proof (Z.mod_pos_bound tempo (2 ^ 15) ltac:(lia)).
  unfold word18. lia.
Qed.

Lemma Forall_written (tempo : Z) (l : list Z) :
  Forall word18 l -> Forall word18 (map (written tempo) l).
Proof.
  intros H. induction H as [| x l Hx _ IH]; cbn [map]; constructor;
    [apply written_word18; exact Hx | exact IH].
Qed.

Lemma written_idempotent (tempo x : Z) :
  written tempo (written tempo x) = written tempo x.
Proof.
  unfold written, retempo.
  destruct (tempo =? u32 (-1)); [reflexivity |].
  destruct (Z.land x 0x38000 =? 0x38000) eqn:E.
  - destruct (tempo_word tempo) as [_ E']. rewrite E', Z.eqb_refl.
    reflexivity.
  - rewrite E. reflexivity.
Qed.

Lemma map_written_idempotent (tempo : Z) (l : list Z) :
  map (written tempo) (map (written tempo) l) = map (written tempo) l.
Proof.
  induction l as [| x l IH]; [reflexivity |].
  cbn [map]. rewrite written_idempotent, IH. reflexivity.
Qed.

Lemma map_snd_pair (g : Z) (l : list Z) : map snd (map (pair g) l) = l.
Proof.
  induction l as [| x l IH]; [reflexivity |].
  cbn [map snd]. rewrite IH. reflexivity.
Qed.

(** X6. Without a tempo override ([tempo] is -1, as [main] sets it unless
    it has exactly three arguments) [copy_notes] copies a section whose
    checksum word is right word for word: the output gets the count, the
    data words, tempo words included, and the same checksum, three frames a
    word with no blank frame; the input is read up to the end of the
    checksum word and the value is 0. *)
Theorem copy_notes_verbatim (data : list (Z * Z))
  (f out rest : list byte) (so : list (string * list arg)) (g0 gk : Z) :
  words_of (S (S (length data))) f
  = Some ((g0, Z.of_nat (length data))
            :: (data ++ [(gk, checksum_of (map snd data))])%list,
          rest) ->
  exists so',
    Tweak.copy_notes (u32 (-1)) (World f out so)
    = (Ret 0, World rest (out ++ section_frames (map snd data)) so') /\
    words_of (S (S (length data))) (section_frames (map snd data) ++ rest)
    = Some ((0, Z.of_nat (length data))
              :: (map (pair 0) (map snd data)
                    ++ [(0, checksum_of (map snd data))])%list,
            rest).
Proof.
  intros Hws.
  destruct (copy_notes_accepts (u32 (-1)) data f out rest so g0 gk Hws)
    as [so' E].
  assert (Eid : map (written (u32 (-1))) (map snd data) = map snd data).
  { rewrite <- (map_id (map snd data)) at 2. apply map_ext. intros x.
    unfold written. rewrite Z.eqb_refl. reflexivity. }
  rewrite Eid in E. exists so'. split; [exact E |].
  destruct (section_words _ _ _ _ _ _ _ Hws)
    as (f1 & f2 & Hw & Hd & Hk & L & Hn).
  pose proof (words_of_word18 _ _ _ _ Hd) as Hall.
  pose proof (words_of_section_frames (map snd data) rest Hall) as E'.
  rewrite length_map in E'. apply E'. exact Hn.
Qed.

Lemma copy_notes_verbatim_witness :
  exists so',
    Tweak.copy_notes (u32 (-1))
      (World (flat_map ppb_frames [1; 0x38064; 0x38064]) [] [])
    = (Ret 0, World [] ([] ++ section_frames [0x38064]) so') /\
    words_of 3 (section_frames [0x38064] ++ [])
    = Some ([(0, 1); (0, 0x38064); (0, 0x38064)], []).
Proof.
  exact (copy_notes_verbatim [(0, 0x38064)]
           (flat_map ppb_frames [1; 0x38064; 0x38064]) [] [] [] 0 0
           eq_refl).
Defined.

(** X7. When the checksum word of a NOTES section differs from the
    checksum of its data words, [copy_notes] ends the program with the
    checksum error after it has written the count and every data word (the
    tempo words already replaced under an override): the output file is
    left with a section that has no checksum word. *)
Theorem copy_notes_checksum_mismatch (tempo : Z) (data : list (Z * Z))
  (f out rest : list byte) (so : list (string * list arg)) (g0 gk c : Z) :
  words_of (S (S (length data))) f
  = Some ((g0, Z.of_nat (length data)) :: (data ++ [(gk, c)])%list, rest) ->
  c <> checksum_of (map snd data) ->
  exists so',
    Tweak.copy_notes tempo (World f out so)
    = (Exit (ChecksumMismatchError c (checksum_of (map snd data))),
       World rest
         (out ++ ppb_frames (Z.of_nat (length data))
              ++ flat_map ppb_frames (map (written tempo) (map snd data)))
         so').
Proof.
  intros Hws Hc. destruct (section_words _ _ _ _ _ _ _ Hws)
    as (f1 & f2 & Hw & Hd & Hk & L & Hn).
  unfold Tweak.copy_notes. cbn [fp]. unfold bind at 1.
  destruct (copy_notes_to_checksum tempo data f f1 f2 out so g0 Hw Hd)
    as (wc' & so1 & E).
  rewrite E.
  destruct (length f - length data)%nat as [| fuel] eqn:Ef; [lia |].
  rewrite while1_S.
  rewrite (copy_notes_body_mismatch tempo _ f2 rest _ so1 gk c);
    cbn [Tweak.n_checksum Tweak.n_part_word_count Tweak.n_total_word_count
         Tweak.n_new_checksum];
    [| exact Hk | exact Hc | lia | lia | unfold word18 in Hn; lia].
  eexists. reflexivity.
Qed.

Lemma copy_notes_checksum_mismatch_witness :
  exists so',
    Tweak.copy_notes 100
      (World (flat_map ppb_frames [1; 0x38064; 5]) [] [])
    = (Exit (ChecksumMismatchError 5 (checksum_of [0x38064])),
       World []
         ([] ++ ppb_frames 1
             ++ flat_map ppb_frames (map (written 100) [0x38064]))
         so').
Proof.
  apply (copy_notes_checksum_mismatch 100 [(0, 0x38064)]
           (flat_map ppb_frames [1; 0x38064; 5]) [] [] [] 0 0 5 eq_refl).
  vm_compute. discriminate.
Defined.

(** X8. When the input ends inside a NOTES section, after the count and
    some of the data words or before the checksum word, with no stray
    frame of an unfinished word, [copy_notes] returns [EOF]: what it read
    is already written (tempo words replaced under an override) and no
    checksum follows. *)
Theorem copy_notes_end_of_stream (tempo : Z) (data : list (Z * Z))
  (f f1 f' out : list byte) (so : list (string * list arg)) (g0 n g : Z) :
  words_of (S (length data)) f = Some ((g0, n) :: data, f1) ->
  Z.of_nat (length data) <= n ->
  rpb_loop f1 0 0 0 0 = RpbResult (u32 EOF) g 0 f' ->
  exists so',
    Tweak.copy_notes tempo (World f out so)
    = (Ret EOF,
       World f'
         (out ++ ppb_frames n
              ++ flat_map ppb_frames (map (written tempo) (map snd data)))
         so').
Proof.
  intros Hws Hlen Heof. apply words_of_S in Hws.
  destruct Hws as (f0 & Hw & Hd).
  destruct (next_word_some _ _ _ _ Hw) as (_ & Hn & _ & L1).
  destruct (words_of_length _ _ _ _ Hd) as [_ L3].
  unfold Tweak.copy_notes. cbn [fp]. unfold bind at 1.
  replace (S (length f))
    with (S (length data + S (length f - length data - 1)))%nat by lia.
  rewrite while1_S.
  rewrite (copy_notes_body_count tempo (Tweak.NotesVars 0 0 0 0 0)
             f f0 out so g0 _ Hw eq_refl).
  cbn [Tweak.n_checksum Tweak.n_word_count Tweak.n_new_checksum].
  edestruct (copy_notes_run tempo data (S (length f - length data - 1))
               (Tweak.NotesVars 0 1 n (u32 (0 + 1)) 0)
               f0 f1 (out ++ ppb_frames n)%list so)
    as (wc' & so' & E);
    [exact Hd | cbn; lia | cbn; lia | cbn; unfold word18 in Hn; lia |].
  rewrite E. rewrite while1_S.
  rewrite (copy_notes_body_eof tempo _ f1 f' _ so' g Heof).
  unfold ret. rewrite <- app_assoc. eexists. reflexivity.
Qed.

Lemma copy_notes_end_of_stream_witness :
  exists so',
    Tweak.copy_notes 100
      (World (flat_map ppb_frames [2; 0x38064]) [] [])
    = (Ret EOF,
       World []
         ([] ++ ppb_frames 2
             ++ flat_map ppb_frames (map (written 100) [0x38064]))
         so').
Proof.
  apply (copy_notes_end_of_stream 100 [(0, 0x38064)]
           (flat_map ppb_frames [2; 0x38064]) [] [] [] [] 0 2 0 eq_refl).
  - vm_compute. discriminate.
  - reflexivity.
Defined.

(** X9. [copy_bars] copies a BARS section whose count follows a gap and
    whose checksum word is right word for word, three frames a word with no
    blank frame, and reads the input up to the end of the checksum word.
    Its value tells whether the stream goes on: [EOF] when fewer than three
    data frames are left, 0 when a further word follows. *)
Theorem copy_bars_verbatim (data : list (Z * Z))
  (f out rest : list byte) (so : list (string * list arg)) (g0 gk : Z) :
  words_of (S (S (length data))) f
  = Some ((g0, Z.of_nat (length data))
            :: (data ++ [(gk, checksum_of (map snd data))])%list,
          rest) ->
  g0 <> 0 ->
  exists so',
    Tweak.copy_bars (World f out so)
    = (Ret (if (data_frames rest <? 3)%nat then EOF else 0),
       World rest (out ++ section_frames (map snd data)) so') /\
    words_of (S (S (length data))) (section_frames (map snd data) ++ rest)
    = Some ((0, Z.of_nat (length data))
              :: (map (pair 0) (map snd data)
                    ++ [(0, checksum_of (map snd data))])%list,
            rest).
Proof.
  intros Hws Hg.
  destruct (copy_bars_accepts data f out rest so g0 gk Hws Hg) as [so' E].
  exists so'. split.
  - rewrite E. f_equal. f_equal.
    pose proof (rpb_loop_eof rest 0 0 0 0 ltac:(lia) ltac:(cbn; lia)) as Heof.
    rewrite Nat.add_0_r in Heof.
    destruct (Z.eqb_spec (rpb_word (rpb_loop rest 0 0 0 0)) (u32 EOF)) as [e | e];
      destruct (Nat.ltb_spec (data_frames rest) 3) as [l | l];
      try reflexivity.
    + apply Heof in e. lia.
    + apply Heof in l. congruence.
  - destruct (section_words _ _ _ _ _ _ _ Hws)
      as (f1 & f2 & Hw & Hd & Hk & L & Hn).
    pose proof (words_of_word18 _ _ _ _ Hd) as Hall.
    pose proof (words_of_section_frames (map snd data) rest Hall) as E'.
    rewrite length_map in E'. apply E'. exact Hn.
Qed.

Lemma copy_bars_verbatim_witness :
  exists so',
    Tweak.copy_bars
      (World (byte.of_Z 0 :: flat_map ppb_frames [1; 0x30000; 0x30000]) [] [])
    = (Ret (if (data_frames [] <? 3)%nat then EOF else 0),
       World [] ([] ++ section_frames [0x30000]) so') /\
    words_of 3 (section_frames [0x30000] ++ [])
    = Some ([(0, 1); (0, 0x30000); (0, 0x30000)], []).
Proof.
  apply (copy_bars_verbatim [(0, 0x30000)]
           (byte.of_Z 0 :: flat_map ppb_frames [1; 0x30000; 0x30000])
           [] [] [] 1 0 eq_refl).
  discriminate.
Defined.

(** X10. [copy_notes] is idempotent on what it accepts: the section it
    writes is accepted again under the same override, and the second copy
    is the first one byte for byte. *)
Theorem copy_notes_idempotent (tempo : Z) (data : list (Z * Z))
  (f rest rest' out' : list byte) (so : list (string * list arg))
  (g0 gk : Z) :
  words_of (S (S (length data))) f
  = Some ((g0, Z.of_nat (length data))
            :: (data ++ [(gk, checksum_of (map snd data))])%list,
          rest) ->
  let copy := fp_out (snd (Tweak.copy_notes tempo (World f [] []))) in
  exists so',
    Tweak.copy_notes tempo (World (copy ++ rest') out' so)
    = (Ret 0, World rest' (out' ++ copy) so').
Proof.
  intros Hws copy.
  destruct (copy_notes_accepts tempo data f [] rest [] g0 gk Hws) as [so1 E].
  subst copy. rewrite E. cbn [snd fp_out app].
  destruct (section_words _ _ _ _ _ _ _ Hws)
    as (f1 & f2 & Hw & Hd & Hk & L & Hn).
  pose proof (words_of_word18 _ _ _ _ Hd) as Hall.
  set (ws := map (written tempo) (map snd data)).
  assert (Hws' : Forall word18 ws).
  { subst ws. apply Forall_written. exact Hall. }
  assert (Hlen : length ws = length data).
  { subst ws. rewrite !length_map. reflexivity. }
  pose proof (words_of_section_frames ws rest' Hws') as E'.
  rewrite Hlen in E'. specialize (E' Hn).
  destruct (copy_notes_accepts tempo (map (pair 0) ws)
              (section_frames ws ++ rest') out' rest' so 0 0) as [so' E2].
  { rewrite length_map, Hlen, map_snd_pair. exact E'. }
  exists so'. rewrite E2, map_snd_pair. subst ws.
  rewrite map_written_idempotent. reflexivity.
Qed.

Lemma copy_notes_idempotent_witness :
  let copy :=
    fp_out (snd (Tweak.copy_notes 100
                   (World (flat_map ppb_frames [1; 0x38064; 0x38064]) [] []))) in
  exists so',
    Tweak.copy_notes 100 (World (copy ++ []) [] [])
    = (Ret 0, World [] ([] ++ copy) so').
Proof.
  exact (copy_notes_idempotent 100 [(0, 0x38064)]
           (flat_map ppb_frames [1; 0x38064; 0x38064]) [] [] [] [] 0 0
           eq_refl).
Defined.

(** ** [main] of tweak.c on whole tapes *)

Lemma section_of_words (f rest : list byte) (g : Z) (ws : list Z) :
  section_of f = Some (g, ws, rest) ->
  exists data gk,
    ws = map snd data /\
    words_of (S (S (length data))) f
    = Some ((g, Z.of_nat (length data))
              :: (data ++ [(gk, checksum_of (map snd data))])%list,
            rest).
Proof.
  unfold section_of. intros H.
  destruct (next_word f) as [[[g0 n] f1] |] eqn:Hw; [| discriminate].
  destruct (words_of (Z.to_nat n) f1) as [[data f2] |] eqn:Hd;
    [| discriminate].
  destruct (next_word f2) as [[[gk c] f3] |] eqn:Hk; [| discriminate].
  destruct (Z.eqb_spec c (checksum_of (map snd data))) as [-> | _];
    [| discriminate].
  injection H as <- <- <-.
  destruct (next_word_some _ _ _ _ Hw) as (_ & Hn & _ & _).
  destruct (words_of_length _ _ _ _ Hd) as [Hlen _].
  assert (En : Z.of_nat (length data) = n)
    by (unfold word18 in Hn; lia).
  exists data, gk. split; [reflexivity |].
  rewrite En. rewrite <- Hlen in Hd.
  assert (H1 : words_of 1 f2
               = Some ([(gk, checksum_of (map snd data))], f3)).
  { cbn [words_of]. rewrite Hk. reflexivity. }
  pose proof (words_of_app _ _ _ _ _ _ _ Hd H1) as H2.
  replace (length data + 1)%nat with (S (length data)) in H2 by lia.
  change (words_of (S (S (length data))) f)
    with (match next_word f with
          | Some (g, x, f') =>
              match words_of (S (length data)) f' with
              | Some (ws, f'') => Some ((g, x) :: ws, f'')
              | None => None
              end
          | None => None
          end).
  rewrite Hw, H2. reflexivity.
Qed.

Lemma section_of_next_word (f rest : list byte) (g : Z) (ws : list Z) :
  section_of f = Some (g, ws, rest) ->
  exists n f1, next_word f = Some (g, n, f1).
Proof.
  unfold section_of. intros H.
  destruct (next_word f) as [[[g0 n] f1] |] eqn:Hw; [| discriminate].
  destruct (words_of (Z.to_nat n) f1) as [[data f2] |]; [| discriminate].
  destruct (next_word f2) as [[[gk c] f3] |]; [| discriminate].
  destruct (c =? checksum_of (map snd data)); [| discriminate].
  injection H as <- _ _. exists n, f1. reflexivity.
Qed.

(** [peek_gap] in front of a word and at the end of the stream. *)
Lemma peek_gap_word (f f' out : list byte) (so : list (string * list arg))
  (g x : Z) :
  next_word f = Some (g, x, f') ->
  peek_gap (World f out so) = (Ret (0, g), World f out so).
Proof.
  intros Hw. destruct (next_word_some _ _ _ _ Hw) as (E & _ & Hx & _).
  unfold peek_gap, rpb. cbn [fp fp_out stdout]. rewrite E.
  cbn [rpb_word rpb_gap_frames rpb_inner_frames rpb_fp].
  apply Z.eqb_neq in Hx. rewrite Hx. reflexivity.
Qed.

Lemma peek_gap_eof (f out : list byte) (so : list (string * list arg)) :
  rpb_word (rpb_loop f 0 0 0 0) = u32 EOF ->
  peek_gap (World f out so)
  = (Ret (u32 EOF, rpb_gap_frames (rpb_loop f 0 0 0 0)), World f out so).
Proof.
  intros E. unfold peek_gap, rpb. cbn [fp fp_out stdout]. rewrite E.
  rewrite Z.eqb_refl. reflexivity.
Qed.

Lemma data_frames_eof (f : list byte) :
  (rpb_word (rpb_loop f 0 0 0 0) =? u32 EOF) = (data_frames f <? 3)%nat.
Proof.
  pose proof (rpb_loop_eof f 0 0 0 0 ltac:(lia) ltac:(cbn; lia)) as Heof.
  rewrite Nat.add_0_r in Heof.
  destruct (Z.eqb_spec (rpb_word (rpb_loop f 0 0 0 0)) (u32 EOF)) as [e | e];
    destruct (Nat.ltb_spec (data_frames f) 3) as [l | l];
    try reflexivity.
  - apply Heof in e. lia.
  - apply Heof in l. congruence.
Qed.

Lemma voice_of_data_frames (f rest : list byte) (v : voice_data) :
  voice_of f = Some (v, rest) -> (data_frames f <? 3)%nat = false.
Proof.
  unfold voice_of. intros H.
  destruct (section_of f) as [[[g ws] f1] |] eqn:Hs; [| discriminate].
  destruct (section_of_next_word _ _ _ _ Hs) as (n & f' & Hw).
  destruct (next_word_some _ _ _ _ Hw) as (E & _ & Hx & _).
  rewrite <- data_frames_eof, E. cbn [rpb_word].
  apply Z.eqb_neq. exact Hx.
Qed.

(** One turn of the voice loop on a voice it accepts. *)
Lemma main_body_voice (tempo gap_length voice : Z) (v : voice_data)
  (f rest out : list byte) (so : list (string * list arg)) :
  voice_of f = Some (v, rest) ->
  1 <= voice <= 4 ->
  exists so',
    Tweak.main_body tempo gap_length voice (World f out so)
    = if (data_frames rest <? 3)%nat
      then (Ret (Break voice),
            World rest (out ++ voice_frames tempo v) so')
      else (Ret (Continue (voice + 1)),
            World rest
              (out ++ voice_frames tempo v
                   ++ repeat (byte.of_Z 0) (Z.to_nat gap_length))
              so').
Proof.
  unfold voice_of. intros Hv Hvoice.
  destruct (section_of f) as [[[g0 notes] f1] |] eqn:Hn; [| discriminate].
  destruct (section_of f1) as [[[g bars] f2] |] eqn:Hb; [| discriminate].
  destruct (Z.eqb_spec g 0) as [| Hg]; [discriminate |].
  injection Hv as <- <-.
  destruct (section_of_words _ _ _ _ Hn) as (dn & gkn & -> & Hwn).
  destruct (section_of_words _ _ _ _ Hb) as (db & gkb & -> & Hwb).
  destruct (section_of_next_word _ _ _ _ Hb) as (nb & fb & Hpeek).
  unfold Tweak.main_body.
  destruct (Z.leb_spec voice 4) as [_ | ?]; [| lia]. cbn [negb].
  unfold bind at 1.
  assert (Ewhen : exists so1,
            when (voice >? 1) (puts "\n") (World f out so)
            = (Ret tt, World f out so1)).
  { destruct (voice >? 1); unfold when, puts, printf, ret;
      cbn [fp fp_out stdout]; eexists; reflexivity. }
  destruct Ewhen as [so1 Ewhen]. rewrite Ewhen.
  unfold bind at 1. unfold printf at 1. cbn [fp fp_out stdout].
  destruct (copy_notes_accepts tempo dn f out f1
              (so1 ++ [("VOICE %d", [I voice])])%list g0 gkn Hwn)
    as [so2 En].
  rewrite (bind_run _ _ _ _ _ En).
  change (0 =? EOF) with false. cbv iota.
  rewrite (bind_run _ _ _ _ _ (peek_gap_word _ _ _ _ _ _ Hpeek)).
  cbv iota beta. change (0 =? u32 EOF) with false. cbv iota.
  unfold bind at 1. unfold Tweak.write_gap at 1. cbn [fp fp_out stdout].
  unfold bind at 1. unfold printf at 1. cbn [fp fp_out stdout].
  edestruct (copy_bars_accepts db f1) as [so3 Eb]; [exact Hwb | exact Hg |].
  rewrite (bind_run _ _ _ _ _ Eb).
  rewrite data_frames_eof.
  unfold voice_frames, gap_bytes. cbn [v_notes v_inner_gap v_bars].
  destruct (data_frames f2 <? 3)%nat.
  - change (EOF =? EOF) with true. cbv iota. unfold ret.
    rewrite <- !app_assoc. eexists. reflexivity.
  - change (0 =? EOF) with false. cbv iota.
    unfold bind, Tweak.write_gap, ret. cbn [fp fp_out stdout].
    rewrite (u8_small (voice + 1)) by lia.
    rewrite <- !app_assoc. eexists. reflexivity.
Qed.

(** The voice loop on voices followed by a further word. *)
Lemma tweak_voices_run (tempo gap_length : Z) (k : nat) :
  forall (vs : list voice_data) (voice : Z) (fuel : nat)
    (f rest out : list byte) (so : list (string * list arg)),
  voices_of k f = Some (vs, rest) ->
  (3 <= data_frames rest)%nat ->
  1 <= voice -> voice + Z.of_nat k <= 5 ->
  exists so',
    while1 (k + fuel) (Tweak.main_body tempo gap_length) voice
      (World f out so)
    = while1 fuel (Tweak.main_body tempo gap_length) (voice + Z.of_nat k)
        (World rest
           (out ++ flat_map
                     (fun v => (voice_frames tempo v
                                ++ repeat (byte.of_Z 0) (Z.to_nat gap_length))%list)
                     vs)
           so').
Proof.
  induction k as [| k IH]; intros vs voice fuel f rest out so Hvs Hrest Hv Hk.
  - cbn [voices_of] in Hvs. injection Hvs as <- <-.
    cbn [flat_map Nat.add Z.of_nat]. rewrite Z.add_0_r, app_nil_r.
    exists so. reflexivity.
  - cbn [voices_of] in Hvs.
    destruct (voice_of f) as [[v f1] |] eqn:Hv1; [| discriminate].
    destruct (voices_of k f1) as [[vs' rest'] |] eqn:Hvs'; [| discriminate].
    injection Hvs as <- <-.
    assert (Hf1 : (data_frames f1 <? 3)%nat = false).
    { destruct k as [| k].
      - cbn [voices_of] in Hvs'. injection Hvs' as _ ->.
        apply Nat.ltb_ge. exact Hrest.
      - cbn [voices_of] in Hvs'.
        destruct (voice_of f1) as [[v' f'] |] eqn:Hv'; [| discriminate].
        exact (voice_of_data_frames _ _ _ Hv'). }
    cbn [Nat.add]. rewrite while1_S.
    destruct (main_body_voice tempo gap_length voice v f f1 out so Hv1)
      as [so1 E]; [lia |].
    rewrite E, Hf1.
    destruct (IH vs' (voice + 1) fuel f1 rest'
                (out ++ voice_frames tempo v
                     ++ repeat (byte.of_Z 0) (Z.to_nat gap_length))%list
                so1 Hvs' Hrest) as [so' E']; [lia | lia |].
    rewrite E'. cbn [flat_map]. rewrite <- !app_assoc.
    replace (voice + 1 + Z.of_nat k) with (voice + Z.of_nat (S k)) by lia.
    exists so'. reflexivity.
Qed.

(** The voice loop on voices followed by the end of the stream. *)
Lemma tweak_voices_to_end (tempo gap_length : Z) (k : nat) :
  forall (vs : list voice_data) (voice : Z) (fuel : nat)
    (f rest out : list byte) (so : list (string * list arg)),
  voices_of (S k) f = Some (vs, rest) ->
  (data_frames rest < 3)%nat ->
  1 <= voice -> voice + Z.of_nat k <= 4 -> (k < fuel)%nat ->
  exists v' so',
    while1 fuel (Tweak.main_body tempo gap_length) voice (World f out so)
    = (Ret (None, v'),
       World rest (out ++ voices_frames tempo gap_length vs) so').
Proof.
  induction k as [| k IH];
    intros vs voice fuel f rest out so Hvs Hrest Hv Hk Hfuel;
    (destruct fuel as [| fuel]; [lia |]);
    cbn [voices_of] in Hvs;
    (destruct (voice_of f) as [[v f1] |] eqn:Hv1; [| discriminate]).
  - injection Hvs as <- <-. rewrite while1_S.
    destruct (main_body_voice tempo gap_length voice v f f1 out so Hv1)
      as [so1 E]; [lia |].
    rewrite E. apply Nat.ltb_lt in Hrest. rewrite Hrest.
    cbn [voices_frames]. rewrite app_nil_r. eexists. eexists. reflexivity.
  - destruct (voice_of f1) as [[v2 f2] |] eqn:Hv2; [| discriminate].
    destruct (voices_of k f2) as [[vs' rest'] |] eqn:Hvs'; [| discriminate].
    injection Hvs as <- <-. rewrite while1_S.
    destruct (main_body_voice tempo gap_length voice v f f1 out so Hv1)
      as [so1 E]; [lia |].
    rewrite E, (voice_of_data_frames _ _ _ Hv2).
    destruct (IH (v2 :: vs') (voice + 1) fuel f1 rest'
                (out ++ voice_frames tempo v
                     ++ repeat (byte.of_Z 0) (Z.to_nat gap_length))%list
                so1) as (v' & so' & E'); [| exact Hrest | lia | lia | lia |].
    { cbn [voices_of]. rewrite Hv2, Hvs'. reflexivity. }
    rewrite E'. cbn [voices_frames]. rewrite <- !app_assoc.
    eexists. eexists. reflexivity.
Qed.

Lemma voices_of_peek (k : nat) (f rest out : list byte)
  (vs : list voice_data) (so : list (string * list arg)) :
  voices_of (S k) f = Some (vs, rest) ->
  peek_gap (World f out so)
  = (Ret (0, rpb_gap_frames (rpb_loop f 0 0 0 0)), World f out so).
Proof.
  cbn [voices_of]. unfold voice_of. intros H.
  destruct (section_of f) as [[[g ws] f1] |] eqn:Hs; [| discriminate].
  destruct (section_of_next_word _ _ _ _ Hs) as (n & f' & Hw).
  rewrite (peek_gap_word _ _ _ _ _ _ Hw).
  destruct (next_word_some _ _ _ _ Hw) as (E & _). rewrite E. reflexivity.
Qed.

(** [main] of tweak.c on a tape that it accepts. *)
Lemma tweak_main_accepts (argc atoi3 atoi4 : Z) (k : nat)
  (vs : list voice_data) (f rest out : list byte)
  (so : list (string * list arg)) :
  3 <= argc <= 5 ->
  (1 <= k <= 4)%nat ->
  voices_of k f = Some (vs, rest) ->
  (data_frames rest < 3)%nat ->
  let tempo := if argc =? 4 then u32 atoi3 else u32 (-1) in
  let gap_length := if argc =? 5 then atoi4 else 18 in
  let leader := rpb_gap_frames (rpb_loop f 0 0 0 0) in
  let trailer := rpb_gap_frames (rpb_loop rest 0 0 0 0) in
  exists so',
    Tweak.main argc atoi3 atoi4 (World f out so)
    = (Ret 0,
       World rest
         (out ++ gap_bytes leader
              ++ voices_frames tempo gap_length vs
              ++ gap_bytes trailer)
         so').
Proof.
  intros Hargc Hk Hvs Hrest tempo gap_length leader trailer.
  destruct k as [| k]; [lia |].
  unfold Tweak.main.
  destruct (Z.ltb_spec argc 3) as [? | _]; [lia |].
  rewrite Z.gtb_ltb. destruct (Z.ltb_spec 5 argc) as [? | _]; [lia |].
  cbn [orb].
  rewrite (bind_run _ _ _ _ _ (voices_of_peek k f rest out vs so Hvs)).
  cbv iota beta. change (0 =? u32 EOF) with false. cbv iota.
  unfold bind at 1. unfold printf at 1. cbn [fp fp_out stdout].
  unfold bind at 1. unfold Tweak.write_gap at 1. cbn [fp fp_out stdout].
  fold leader. fold (gap_bytes leader).
  destruct (tweak_voices_to_end tempo gap_length k vs 1 5%nat f rest
              (out ++ gap_bytes leader)%list
              (so ++ [("[leader: %d frames]\n", [I leader])])%list
              Hvs Hrest) as (v' & so1 & E); [lia | lia | lia |].
  fold tempo. change Tweak.DEFAULT_GAP_LENGTH with 18. fold gap_length.
  rewrite (bind_run _ _ _ _ _ E). cbv iota beta.
  assert (Heof : rpb_word (rpb_loop rest 0 0 0 0) = u32 EOF).
  { apply Z.eqb_eq. rewrite data_frames_eof. apply Nat.ltb_lt. exact Hrest. }
  rewrite (bind_run _ _ _ _ _ (peek_gap_eof _ _ _ Heof)).
  cbv iota beta. rewrite Z.eqb_refl. cbn [negb].
  unfold bind, Tweak.write_gap, printf, ret. cbn [fp fp_out stdout].
  fold trailer. fold (gap_bytes trailer). rewrite <- !app_assoc.
  eexists. reflexivity.
Qed.

(** The words and the gap of a section that is accepted. *)
Lemma section_of_word18 (f rest : list byte) (g : Z) (ws : list Z) :
  section_of f = Some (g, ws, rest) ->
  Forall word18 ws /\ word18 (Z.of_nat (length ws)) /\ 0 <= g < 2 ^ 32.
Proof.
  intros Hs. destruct (section_of_words _ _ _ _ Hs) as (data & gk & -> & Hws).
  destruct (section_words _ _ _ _ _ _ _ Hws)
    as (f1 & f2 & Hw & Hd & Hk & L & Hn).
  split; [exact (words_of_word18 _ _ _ _ Hd) |].
  split; [rewrite length_map; exact Hn |].
  destruct (next_word_some _ _ _ _ Hw) as (E & _).
  pose proof (rpb_loop_counts f 0 0 0 0 ltac:(lia) ltac:(lia) ltac:(lia))
    as [Hg _].
  rewrite E in Hg. cbn [rpb_gap_frames] in Hg. rewrite Hg. apply u32_range.
Qed.






(** X12. A tape with a further word after its fourth voice is copied up to
    there, the leader, four voices and [gap_length] blank frames after each
    of them, and then refused: tweak.c returns 1, and the output has no
    trailer. *)
Theorem tweak_fifth_voice (argc atoi3 atoi4 : Z)
  (vs : list voice_data) (f rest out : list byte)
  (so : list (string * list arg)) :
  3 <= argc <= 5 ->
  voices_of 4 f = Some (vs, rest) ->
  (3 <= data_frames rest)%nat ->
  let tempo := if argc =? 4 then u32 atoi3 else u32 (-1) in
  let gap_length := if argc =? 5 then atoi4 else 18 in
  let leader := rpb_gap_frames (rpb_loop f 0 0 0 0) in
  exists so',
    Tweak.main argc atoi3 atoi4 (World f out so)
    = (Ret 1,
       World rest
         (out ++ gap_bytes leader
              ++ flat_map
                   (fun v => (voice_frames tempo v
                              ++ repeat (byte.of_Z 0) (Z.to_nat gap_length))%list)
                   vs)
         so').
Proof.
  intros Hargc Hvs Hrest tempo gap_length leader.
  unfold Tweak.main.
  destruct (Z.ltb_spec argc 3) as [? | _]; [lia |].
  rewrite Z.gtb_ltb. destruct (Z.ltb_spec 5 argc) as [? | _]; [lia |].
  cbn [orb].
  rewrite (bind_run _ _ _ _ _ (voices_of_peek 3 f rest out vs so Hvs)).
  cbv iota beta. change (0 =? u32 EOF) with false. cbv iota.
  unfold bind at 1. unfold printf at 1. cbn [fp fp_out stdout].
  unfold bind at 1. unfold Tweak.write_gap at 1. cbn [fp fp_out stdout].
  fold leader. fold (gap_bytes leader).
  fold tempo. change Tweak.DEFAULT_GAP_LENGTH with 18. fold gap_length.
  destruct (tweak_voices_run tempo gap_length 4 vs 1 1%nat f rest
              (out ++ gap_bytes leader)%list
              (so ++ [("[leader: %d frames]\n", [I leader])])%list
              Hvs Hrest) as (so1 & E); [lia | lia |].
  unfold bind at 1. change 5%nat with (4 + 1)%nat. rewrite E.
  change (1 + Z.of_nat 4) with 5. rewrite while1_S.
  unfold Tweak.main_body at 1. change (negb (5 <=? 4)) with true. cbv iota.
  unfold ret at 1. cbv iota beta.
  assert (Hne : (rpb_word (rpb_loop rest 0 0 0 0) =? u32 EOF) = false).
  { rewrite data_frames_eof. apply Nat.ltb_ge. exact Hrest. }
  unfold bind at 1. unfold peek_gap, rpb. cbn [fp fp_out stdout].
  rewrite Hne. cbn [negb]. unfold ret. rewrite <- !app_assoc.
  eexists. reflexivity.
Qed.

Lemma tweak_fifth_voice_witness :
  let voice_in := (byte.of_Z 0 :: flat_map ppb_frames [1; 0x38064; 0x38064]
                   ++ byte.of_Z 0 :: flat_map ppb_frames [1; 0x30000; 0x30000])%list in
  let f := (voice_in ++ voice_in ++ voice_in ++ voice_in ++ voice_in)%list in
  exists so',
    Tweak.main 3 0 0 (World f [] [])
    = (Ret 1,
       World voice_in
         ([] ++ gap_bytes 1
             ++ flat_map
                  (fun v => (voice_frames (u32 (-1)) v
                             ++ repeat (byte.of_Z 0) (Z.to_nat 18))%list)
                  (repeat (Voice [0x38064] 1 [0x30000]) 4))
         so').
Proof.
  intros voice_in f.
  apply (tweak_fifth_voice 3 0 0 (repeat (Voice [0x38064] 1 [0x30000]) 4)
           f voice_in [] []).
  - lia.
  - reflexivity.
  - vm_compute. lia.
Defined.

Lemma section_of_data_frames (f rest : list byte) (g : Z) (ws : list Z) :
  section_of f = Some (g, ws, rest) -> (3 <= data_frames f)%nat.
Proof.
  intros Hs. destruct (section_of_next_word _ _ _ _ Hs) as (n & f' & Hw).
  destruct (next_word_some _ _ _ _ Hw) as (E & _ & Hx & _).
  apply Nat.ltb_ge. rewrite <- data_frames_eof, E. cbn [rpb_word].
  apply Z.eqb_neq. exact Hx.
Qed.

(** X13. A tape that ends after the NOTES section of a voice, with no BARS
    section, is refused after that section has been copied: tweak.c
    returns 1, and the output has the leader, the voices before, each with
    [gap_length] blank frames after it, and the NOTES section. *)
Theorem tweak_missing_bars (argc atoi3 atoi4 : Z) (k : nat)
  (vs : list voice_data) (notes : list Z) (g : Z)
  (f f1 rest out : list byte) (so : list (string * list arg)) :
  3 <= argc <= 5 ->
  (k <= 3)%nat ->
  voices_of k f = Some (vs, f1) ->
  section_of f1 = Some (g, notes, rest) ->
  (data_frames rest < 3)%nat ->
  let tempo := if argc =? 4 then u32 atoi3 else u32 (-1) in
  let gap_length := if argc =? 5 then atoi4 else 18 in
  let leader := rpb_gap_frames (rpb_loop f 0 0 0 0) in
  exists so',
    Tweak.main argc atoi3 atoi4 (World f out so)
    = (Ret 1,
       World rest
         (out ++ gap_bytes leader
              ++ flat_map
                   (fun v => (voice_frames tempo v
                              ++ repeat (byte.of_Z 0) (Z.to_nat gap_length))%list)
                   vs
              ++ section_frames (map (written tempo) notes))
         so').
Proof.
  intros Hargc Hk Hvs Hs Hrest tempo gap_length leader.
  pose proof (section_of_data_frames _ _ _ _ Hs) as Hf1.
  assert (Hpeek : peek_gap (World f out so)
                  = (Ret (0, leader), World f out so)).
  { destruct k as [| k].
    - cbn [voices_of] in Hvs. injection Hvs as _ <-.
      destruct (section_of_next_word _ _ _ _ Hs) as (n & f' & Hw).
      rewrite (peek_gap_word _ _ _ _ _ _ Hw). subst leader.
      destruct (next_word_some _ _ _ _ Hw) as (E & _). rewrite E.
      reflexivity.
    - exact (voices_of_peek k f f1 out vs so Hvs). }
  unfold Tweak.main.
  destruct (Z.ltb_spec argc 3) as [? | _]; [lia |].
  rewrite Z.gtb_ltb. destruct (Z.ltb_spec 5 argc) as [? | _]; [lia |].
  cbn [orb]. rewrite (bind_run _ _ _ _ _ Hpeek).
  cbv iota beta. change (0 =? u32 EOF) with false. cbv iota.
  unfold bind at 1. unfold printf at 1. cbn [fp fp_out stdout].
  unfold bind at 1. unfold Tweak.write_gap at 1. cbn [fp fp_out stdout].
  fold (gap_bytes leader).
  fold tempo. change Tweak.DEFAULT_GAP_LENGTH with 18. fold gap_length.
  destruct (tweak_voices_run tempo gap_length k vs 1 (5 - k)%nat f f1
              (out ++ gap_bytes leader)%list
              (so ++ [("[leader: %d frames]\n", [I leader])])%list
              Hvs Hf1) as (so1 & E); [lia | lia |].
  unfold bind at 1.
  replace (while1 5 (Tweak.main_body tempo gap_length) 1)
    with (while1 (k + (5 - k)) (Tweak.main_body tempo gap_length) 1)
    by (f_equal; lia).
  rewrite E. destruct (5 - k)%nat as [| fuel] eqn:Ef; [lia |].
  rewrite while1_S.
  destruct (section_of_words _ _ _ _ Hs) as (dn & gkn & -> & Hwn).
  unfold Tweak.main_body.
  destruct (Z.leb_spec (1 + Z.of_nat k) 4) as [_ | ?]; [| lia]. cbn [negb].
  unfold bind at 1.
  match goal with
  | |- context [when ?c ?s ?w] =>
      assert (Ewhen : exists so2,
                when c s w = (Ret tt, World (fp w) (fp_out w) so2))
        by (destruct c; unfold when, puts, printf, ret;
            cbn [fp fp_out stdout]; eexists; reflexivity)
  end.
  destruct Ewhen as [so2 Ewhen]. cbn [fp fp_out] in Ewhen. rewrite Ewhen.
  unfold bind at 1. unfold printf at 1. cbn [fp fp_out stdout].
  edestruct (copy_notes_accepts tempo dn f1) as [so3 En]; [exact Hwn |].
  rewrite (bind_run _ _ _ _ _ En).
  change (0 =? EOF) with false. cbv iota.
  assert (Heof : rpb_word (rpb_loop rest 0 0 0 0) = u32 EOF).
  { apply Z.eqb_eq. rewrite data_frames_eof. apply Nat.ltb_lt. exact Hrest. }
  rewrite (bind_run _ _ _ _ _ (peek_gap_eof _ _ _ Heof)).
  cbv iota beta. rewrite Z.eqb_refl. unfold ret. rewrite <- !app_assoc.
  eexists. reflexivity.
Qed.

Lemma tweak_missing_bars_witness :
  let f := (byte.of_Z 0 :: flat_map ppb_frames [1; 0x38064; 0x38064])%list in
  exists so',
    Tweak.main 4 100 0 (World f [] [])
    = (Ret 1,
       World []
         ([] ++ gap_bytes 1
             ++ flat_map
                  (fun v => (voice_frames 100 v
                             ++ repeat (byte.of_Z 0) (Z.to_nat 18))%list)
                  []
             ++ section_frames (map (written 100) [0x38064]))
         so').
Proof.
  intros f.
  apply (tweak_missing_bars 4 100 0 0 [] [0x38064] 1 f f [] [] []).
  - lia.
  - lia.
  - reflexivity.
  - reflexivity.
  - vm_compute. lia.
Defined.

(** ** The NOTES section of decodehcint.c *)

Lemma articulation_cases (a : Z) :
  (a = 0 \/ a = 1 \/ a = 2 \/ a = 4 \/ a = 8) \/
  (a <> 0 /\ a <> 1 /\ a <> 2 /\ a <> 4 /\ a <> 8).
Proof. lia. Qed.

(** A data word that decodes only adds lines of output. *)
Lemma read_notes_word_decodable (x : Z) (w : world) :
  decodable x = true ->
  exists so',
    Decodehcint.read_notes_word x w = (Ret tt, World (fp w) (fp_out w) so').
Proof.
  unfold decodable, Decodehcint.read_notes_word. intros H.
  destruct (x =? 0x30000).
  { unfold puts, printf. eexists. reflexivity. }
  destruct (Z.land x 0x38000 =? 0x38000).
  { unfold bind, Decodehcint.lift in *.
    destruct (Decodehcint.decode_tempo_quarter x); [| discriminate].
    unfold ret, printf. cbn [fp fp_out stdout]. eexists. reflexivity. }
  unfold Decodehcint.lift in *.
  destruct (Decodehcint.parse_note x) as [note |]; [| discriminate].
  unfold bind at 1. unfold ret at 1. cbv iota beta.
  unfold bind at 1 in H. unfold ret at 1 in H. cbv iota beta in H.
  destruct (Decodehcint.pitch note >? 1).
  - destruct (articulation_cases (Decodehcint.articulation note))
      as [Ha | (H0 & H1 & H2 & H4 & H8)].
    + destruct (articulation_name_ret _ w Ha) as [name E].
      unfold bind. rewrite E. unfold printf, ret. cbn [fp fp_out stdout].
      eexists. reflexivity.
    + unfold bind in H.
      rewrite (articulation_name_exit _ _ H0 H1 H2 H4 H8) in H.
      discriminate.
  - unfold bind, printf, ret. cbn [fp fp_out stdout]. eexists. reflexivity.
Qed.

(** The first turn of [read_notes] reads the count. *)
Lemma read_notes_body_count (v : Decodehcint.notes_vars)
  (f f' out : list byte) (so : list (string * list arg)) (g x : Z) :
  next_word f = Some (g, x, f') ->
  Decodehcint.n_part_word_count v = 0 ->
  exists so',
    Decodehcint.read_notes_body v (World f out so)
    = (Ret (Continue
              (Decodehcint.NotesVars (Decodehcint.n_checksum v) 1 x
                 (u32 (Decodehcint.n_word_count v + 1))
                 (Decodehcint.n_notes v) (u32 (x - 1)))),
       World f' out so').
Proof.
  intros Hw Hk. unfold Decodehcint.read_notes_body. unfold bind at 1.
  destruct (decode_read_next_word f f' out so g x
              (Decodehcint.n_word_count v) 0 Hw) as [so1 E].
  rewrite E. cbv iota beta zeta. change (0 =? u32 EOF) with false.
  rewrite Hk. change (u32 (0 + 1)) with 1. change (1 >? 1) with false.
  change (1 =? 1) with true. cbn [andb]. cbv iota.
  unfold bind, ret, printf. cbn [fp fp_out stdout]. eexists. reflexivity.
Qed.

(** Runs a turn of [read_notes] on a data word up to the store. *)
Ltac read_notes_data_turn v E :=
  unfold Decodehcint.read_notes_body; unfold bind at 1; rewrite E;
  cbv iota beta zeta; change (0 =? u32 EOF) with false; cbv iota;
  rewrite (u32_small (Decodehcint.n_part_word_count v + 1)) by lia;
  rewrite (u32_small (Decodehcint.n_total_word_count v + 2)) by lia;
  rewrite (u32_small (Decodehcint.n_part_word_count v + 1 - 2)) by lia;
  rewrite Z.gtb_ltb;
  (destruct (Z.ltb_spec 1 (Decodehcint.n_part_word_count v + 1)); [| lia]);
  (destruct (Z.ltb_spec (Decodehcint.n_part_word_count v + 1)
              (Decodehcint.n_total_word_count v + 2)); [| lia]);
  cbn [andb]; unfold bind at 1; unfold Decodehcint.store;
  replace (Decodehcint.n_part_word_count v + 1 - 2)
    with (Decodehcint.n_part_word_count v - 1) by lia;
  (destruct (Z.leb_spec 0 (Decodehcint.n_part_word_count v - 1)); [| lia]).

(** A turn of [read_notes] on a data word that decodes: the word is stored
    at the index that is the number of data words before it. *)
Lemma read_notes_body_data (v : Decodehcint.notes_vars)
  (f f' out : list byte) (so : list (string * list arg)) (g x : Z) :
  next_word f = Some (g, x, f') ->
  1 <= Decodehcint.n_part_word_count v <= Decodehcint.n_total_word_count v ->
  Decodehcint.n_total_word_count v < 2 ^ 18 ->
  Decodehcint.n_part_word_count v - 1
  < Z.of_nat (length (Decodehcint.n_notes v)) ->
  decodable x = true ->
  exists so',
    Decodehcint.read_notes_body v (World f out so)
    = (Ret (Continue
              (Decodehcint.NotesVars
                 (add_1s_complement (Decodehcint.n_checksum v) x)
                 (Decodehcint.n_part_word_count v + 1)
                 (Decodehcint.n_total_word_count v)
                 (u32 (Decodehcint.n_word_count v + 1))
                 (<[Z.to_nat (Decodehcint.n_part_word_count v - 1) := x]>
                    (Decodehcint.n_notes v))
                 (Decodehcint.n_notes_count v))),
       World f' out so').
Proof.
  intros Hw Hk Hn Hi Hx.
  destruct (decode_read_next_word f f' out so g x
              (Decodehcint.n_word_count v) 0 Hw) as [so1 E].
  read_notes_data_turn v E.
  destruct (Z.ltb_spec (Decodehcint.n_part_word_count v - 1)
              (Z.of_nat (length (Decodehcint.n_notes v)))); [| lia].
  cbn [andb]. unfold bind at 1. unfold ret at 1. cbv iota beta.
  unfold ret at 1. cbv iota beta.
  destruct (Z.eqb_spec (Decodehcint.n_part_word_count v + 1) 1); [lia |].
  destruct (Z.eqb_spec (Decodehcint.n_part_word_count v + 1)
              (Decodehcint.n_total_word_count v + 2)); [lia |].
  unfold bind at 1.
  destruct (read_notes_word_decodable x (World f' out so1) Hx) as [so2 E2].
  rewrite E2. unfold ret. cbn [fp fp_out]. eexists. reflexivity.
Qed.

(** A turn of [read_notes] on a data word when the buffer is full: the
    store is outside the buffer. *)
Lemma read_notes_body_overflow (v : Decodehcint.notes_vars)
  (f f' out : list byte) (so : list (string * list arg)) (g x : Z) :
  next_word f = Some (g, x, f') ->
  1 <= Decodehcint.n_part_word_count v <= Decodehcint.n_total_word_count v ->
  Decodehcint.n_total_word_count v < 2 ^ 18 ->
  Z.of_nat (length (Decodehcint.n_notes v))
  <= Decodehcint.n_part_word_count v - 1 ->
  exists so',
    Decodehcint.read_notes_body v (World f out so)
    = (Fault (OutOfBounds (Decodehcint.n_part_word_count v - 1)),
       World f' out so').
Proof.
  intros Hw Hk Hn Hi.
  destruct (decode_read_next_word f f' out so g x
              (Decodehcint.n_word_count v) 0 Hw) as [so1 E].
  read_notes_data_turn v E.
  destruct (Z.ltb_spec (Decodehcint.n_part_word_count v - 1)
              (Z.of_nat (length (Decodehcint.n_notes v)))); [lia |].
  cbn [andb]. unfold bind, crash. eexists. reflexivity.
Qed.

(** The last turn of [read_notes] compares the checksum word with the
    checksum of the data words. *)
Lemma read_notes_body_checksum (v : Decodehcint.notes_vars)
  (f f' out : list byte) (so : list (string * list arg)) (g x : Z) :
  next_word f = Some (g, x, f') ->
  1 <= Decodehcint.n_part_word_count v ->
  Decodehcint.n_part_word_count v = Decodehcint.n_total_word_count v + 1 ->
  Decodehcint.n_total_word_count v < 2 ^ 18 ->
  exists so',
    Decodehcint.read_notes_body v (World f out so)
    = (if x =? Decodehcint.n_checksum v
       then Ret (Break
                   (Decodehcint.NotesVars (Decodehcint.n_checksum v)
                      (Decodehcint.n_part_word_count v + 1)
                      (Decodehcint.n_total_word_count v)
                      (u32 (Decodehcint.n_word_count v + 1))
                      (Decodehcint.n_notes v) (Decodehcint.n_notes_count v)))
       else Exit (ChecksumMismatchError x (Decodehcint.n_checksum v)),
       World f' out so').
Proof.
  intros Hw Hk Hkn Hn.
  destruct (decode_read_next_word f f' out so g x
              (Decodehcint.n_word_count v) 0 Hw) as [so1 E].
  unfold Decodehcint.read_notes_body. unfold bind at 1. rewrite E.
  cbv iota beta zeta. change (0 =? u32 EOF) with false. cbv iota.
  rewrite (u32_small (Decodehcint.n_part_word_count v + 1)) by lia.
  rewrite (u32_small (Decodehcint.n_total_word_count v + 2)) by lia.
  rewrite Z.gtb_ltb.
  destruct (Z.ltb_spec 1 (Decodehcint.n_part_word_count v + 1)); [| lia].
  destruct (Z.ltb_spec (Decodehcint.n_part_word_count v + 1)
              (Decodehcint.n_total_word_count v + 2)); [lia |].
  cbn [andb]. unfold bind at 1. unfold ret at 1. cbv iota beta.
  destruct (Z.eqb_spec (Decodehcint.n_part_word_count v + 1) 1); [lia |].
  destruct (Z.eqb_spec (Decodehcint.n_part_word_count v + 1)
              (Decodehcint.n_total_word_count v + 2)); [| lia].
  unfold Decodehcint.verify_checksum.
  destruct (x =? Decodehcint.n_checksum v);
    unfold bind, puts, printf, ret, exit; cbn [fp fp_out stdout];
    eexists; reflexivity.
Qed.

(** The buffer after the words [ws] have been stored from index [i] on. *)
Lemma insert_run (ws : list Z) :
  forall (i : nat) (notes : list Z),
  (i + length ws <= length notes)%nat ->
  fold_left (fun l p => <[fst p := snd p]> l)
    (combine (seq i (length ws)) ws) notes
  = (take i notes ++ ws ++ drop (i + length ws) notes)%list.
Proof.
  induction ws as [| x ws IH]; intros i notes Hlen.
  - cbn [length seq combine fold_left app]. rewrite Nat.add_0_r.
    symmetry. apply take_drop.
  - cbn [length] in Hlen. cbn [length seq combine fold_left fst snd].
    rewrite IH by (rewrite length_insert; lia).
    rewrite (insert_take_drop notes i x) by lia.
    replace (take i notes ++ x :: drop (S i) notes)%list
      with ((take i notes ++ [x]) ++ drop (S i) notes)%list
      by (rewrite <- app_assoc; reflexivity).
    assert (Hl : S i = length (take i notes ++ [x])).
    { rewrite length_app, length_take. cbn [length]. lia. }
    rewrite (take_app_length' _ _ _ Hl).
    rewrite (drop_app_add' _ _ _ (length ws) Hl).
    rewrite drop_drop, <- !app_assoc.
    replace (S i + length ws)%nat with (i + S (length ws))%nat by lia.
    reflexivity.
Qed.

(** The turns of [read_notes] on data words that decode and fit. *)
Lemma read_notes_run (data : list (Z * Z)) :
  forall (fuel : nat) (v : Decodehcint.notes_vars) (f f1 out : list byte)
    (so : list (string * list arg)) (i : nat),
  words_of (length data) f = Some (data, f1) ->
  Forall (fun x => decodable x = true) (map snd data) ->
  Decodehcint.n_part_word_count v = 1 + Z.of_nat i ->
  1 + Z.of_nat i + Z.of_nat (length data)
  <= Decodehcint.n_total_word_count v + 1 ->
  Decodehcint.n_total_word_count v < 2 ^ 18 ->
  0 <= Decodehcint.n_word_count v < 2 ^ 32 ->
  (i + length data <= length (Decodehcint.n_notes v))%nat ->
  exists so',
    while1 (length data + fuel) Decodehcint.read_notes_body v (World f out so)
    = while1 fuel Decodehcint.read_notes_body
        (Decodehcint.NotesVars
           (checksum_from (Decodehcint.n_checksum v) (map snd data))
           (1 + Z.of_nat i + Z.of_nat (length data))
           (Decodehcint.n_total_word_count v)
           (u32 (Decodehcint.n_word_count v + Z.of_nat (length data)))
           (fold_left (fun l p => <[fst p := snd p]> l)
              (combine (seq i (length data)) (map snd data))
              (Decodehcint.n_notes v))
           (Decodehcint.n_notes_count v))
        (World f1 out so').
Proof.
  induction data as [| [g x] data IH];
    intros fuel v f f1 out so i Hws Hdec Hk Hkn Hn Hwc Hfit.
  - cbn [words_of length] in Hws. injection Hws as <-.
    cbn [length map seq combine fold_left checksum_from Nat.add Z.of_nat].
    rewrite !Z.add_0_r, (u32_small _ Hwc), <- Hk. destruct v.
    exists so. reflexivity.
  - cbn [length] in Hws, Hkn, Hfit. rewrite Nat2Z.inj_succ in Hkn.
    apply words_of_S in Hws. destruct Hws as (f2 & Hw & Hws).
    cbn [map snd] in Hdec. inversion Hdec as [| ? ? Hx Hdec']; subst.
    cbn [length Nat.add]. rewrite while1_S.
    destruct (read_notes_body_data v f f2 out so g x Hw) as [so1 E];
      [lia | lia | lia | exact Hx |].
    rewrite E.
    edestruct (IH fuel
                 (Decodehcint.NotesVars
                    (add_1s_complement (Decodehcint.n_checksum v) x)
                    (Decodehcint.n_part_word_count v + 1)
                    (Decodehcint.n_total_word_count v)
                    (u32 (Decodehcint.n_word_count v + 1))
                    (<[Z.to_nat (Decodehcint.n_part_word_count v - 1) := x]>
                       (Decodehcint.n_notes v))
                    (Decodehcint.n_notes_count v))
                 f2 f1 out so1 (S i)) as [so' E'];
      [exact Hws | exact Hdec' | cbn; lia | cbn; lia | cbn; lia
      | cbn; apply u32_range | cbn; rewrite length_insert; lia |].
    rewrite E'. cbn [Decodehcint.n_checksum Decodehcint.n_part_word_count
      Decodehcint.n_total_word_count Decodehcint.n_word_count
      Decodehcint.n_notes Decodehcint.n_notes_count
      map snd seq combine fold_left fst checksum_from].
    rewrite u32_succ.
    replace (Z.to_nat (Decodehcint.n_part_word_count v - 1)) with i by lia.
    exists so'. f_equal. f_equal; try lia; f_equal; lia.
Qed.

(** [read_notes] on a section that it accepts. *)
Lemma read_notes_accepts (word_count notes_count : Z) (notes : list Z)
  (data : list (Z * Z)) (f out rest : list byte)
  (so : list (string * list arg)) (g0 gk : Z) :
  words_of (S (S (length data))) f
  = Some ((g0, Z.of_nat (length data))
            :: (data ++ [(gk, checksum_of (map snd data))])%list,
          rest) ->
  Forall (fun x => decodable x = true) (map snd data) ->
  (length data <= length notes)%nat ->
  exists v so',
    Decodehcint.read_notes word_count notes notes_count (World f out so)
    = (Ret (0, v), World rest out so') /\
    Decodehcint.n_notes v = (map snd data ++ drop (length data) notes)%list /\
    Decodehcint.n_notes_count v = u32 (Z.of_nat (length data) - 1) /\
    Decodehcint.n_word_count v
    = u32 (word_count + Z.of_nat (length data) + 2).
Proof.
  intros Hws Hdec Hfit. destruct (section_words _ _ _ _ _ _ _ Hws)
    as (f1 & f2 & Hw & Hd & Hk & L & Hn).
  unfold Decodehcint.read_notes. unfold bind at 1.
  unfold puts, printf. cbn [fp fp_out stdout]. unfold bind at 1.
  replace (S (length f))
    with (S (length data + S (length f - length data - 1)))%nat by lia.
  rewrite while1_S.
  edestruct (read_notes_body_count
               (Decodehcint.NotesVars 0 0 0 word_count notes notes_count)
               f f1 out) as [so1 E1]; [exact Hw | reflexivity |].
  rewrite E1.
  cbn [Decodehcint.n_checksum Decodehcint.n_word_count Decodehcint.n_notes].
  edestruct (read_notes_run data (S (length f - length data - 1))
               (Decodehcint.NotesVars 0 1 (Z.of_nat (length data))
                  (u32 (word_count + 1)) notes
                  (u32 (Z.of_nat (length data) - 1)))
               f1 f2 out so1 O) as [so2 E2];
    [exact Hd | exact Hdec | reflexivity | cbn; lia
    | cbn; unfold word18 in Hn; lia | cbn; apply u32_range
    | cbn; lia |].
  rewrite E2.
  cbn [Decodehcint.n_checksum Decodehcint.n_word_count Decodehcint.n_notes
       Decodehcint.n_total_word_count Decodehcint.n_notes_count].
  rewrite while1_S.
  edestruct (read_notes_body_checksum
               (Decodehcint.NotesVars (checksum_from 0 (map snd data))
                  (1 + Z.of_nat 0 + Z.of_nat (length data))
                  (Z.of_nat (length data))
                  (u32 (u32 (word_count + 1) + Z.of_nat (length data)))
                  (fold_left (fun l p => <[fst p := snd p]> l)
                     (combine (seq 0 (length data)) (map snd data)) notes)
                  (u32 (Z.of_nat (length data) - 1)))
               f2 rest out so2 gk) as [so3 E3];
    [exact Hk | cbn; lia | cbn; lia | cbn; unfold word18 in Hn; lia |].
  rewrite E3. cbn [Decodehcint.n_checksum]. unfold checksum_of.
  rewrite Z.eqb_refl. unfold ret. cbv iota beta.
  eexists. eexists. split; [reflexivity |].
  cbn [Decodehcint.n_notes Decodehcint.n_notes_count Decodehcint.n_word_count].
  split; [| split; [reflexivity |]].
  - pose proof (insert_run (map snd data) 0 notes) as Hi.
    rewrite length_map in Hi. rewrite Hi by lia. reflexivity.
  - unfold u32. rewrite Z.add_mod_idemp_l by lia.
    rewrite <- Z.add_assoc, Z.add_mod_idemp_l by lia. f_equal. lia.
Qed.

(** X14. [read_notes] on a NOTES section whose checksum word is right,
    whose data words all decode and whose count is at most the length of
    the buffer: it returns 0 with the input read up to the end of the
    checksum word and nothing written to the output file; the buffer holds
    the data words from index 0 on and is unchanged behind them;
    [*notes_count] is the count minus one, modulo [2^32], so a section with
    count 0 leaves [2^32 - 1] there; [*word_count] has grown by the count
    plus two. *)
Theorem read_notes_section (word_count notes_count : Z) (notes : list Z)
  (data : list (Z * Z)) (f out rest : list byte)
  (so : list (string * list arg)) (g0 gk : Z) :
  words_of (S (S (length data))) f
  = Some ((g0, Z.of_nat (length data))
            :: (data ++ [(gk, checksum_of (map snd data))])%list,
          rest) ->
  Forall (fun x => decodable x = true) (map snd data) ->
  (length data <= length notes)%nat ->
  exists v so',
    Decodehcint.read_notes word_count notes notes_count (World f out so)
    = (Ret (0, v), World rest out so') /\
    Decodehcint.n_notes v = (map snd data ++ drop (length data) notes)%list /\
    Decodehcint.n_notes_count v = u32 (Z.of_nat (length data) - 1) /\
    Decodehcint.n_word_count v
    = u32 (word_count + Z.of_nat (length data) + 2).
Proof. apply read_notes_accepts. Qed.

Lemma read_notes_section_witness :
  exists v so',
    Decodehcint.read_notes 0 [7; 7; 7] 0
      (World (flat_map ppb_frames [2; 0x38064; 0x30000; 0x28065]) [] [])
    = (Ret (0, v), World [] [] so') /\
    Decodehcint.n_notes v = ([0x38064; 0x30000] ++ [7])%list /\
    Decodehcint.n_notes_count v = u32 (2 - 1) /\
    Decodehcint.n_word_count v = u32 (0 + 2 + 2).
Proof.
  apply (read_notes_section 0 0 [7; 7; 7] [(0, 0x38064); (0, 0x30000)]
           (flat_map ppb_frames [2; 0x38064; 0x30000; 0x28065]) [] [] []
           0 0 eq_refl).
  - repeat constructor.
  - cbn. lia.
Defined.

Lemma length_insert_run (ws : list Z) (notes : list Z) :
  (length ws <= length notes)%nat ->
  length (fold_left (fun l p => <[fst p := snd p]> l)
            (combine (seq 0 (length ws)) ws) notes)
  = length notes.
Proof.
  intros H. rewrite insert_run by lia.
  rewrite !length_app, length_take, length_drop. lia.
Qed.

(** X15. [read_notes] does not compare the count of a section with the
    size of the buffer: when the section has more data words than the
    buffer has places, and those that fit decode, the word after them is
    stored one place behind the end of the buffer. [main] passes a buffer of
    8192 words, so a section with a count above 8192 and that many words on
    the tape writes outside the allocation. *)
Theorem read_notes_buffer_overflow (word_count notes_count : Z)
  (notes : list Z) (pre : list (Z * Z)) (f f' out : list byte)
  (so : list (string * list arg)) (g0 n g x : Z) :
  words_of (S (S (length pre))) f
  = Some ((g0, n) :: (pre ++ [(g, x)])%list, f') ->
  length pre = length notes ->
  Forall (fun x => decodable x = true) (map snd pre) ->
  Z.of_nat (length notes) < n ->
  exists so',
    Decodehcint.read_notes word_count notes notes_count (World f out so)
    = (Fault (OutOfBounds (Z.of_nat (length notes))), World f' out so').
Proof.
  intros Hws Hlen Hdec Hn. destruct (section_words _ _ _ _ _ _ _ Hws)
    as (f1 & f2 & Hw & Hd & Hk & L & Hn18).
  unfold Decodehcint.read_notes. unfold bind at 1.
  unfold puts, printf. cbn [fp fp_out stdout]. unfold bind at 1.
  replace (S (length f))
    with (S (length pre + S (length f - length pre - 1)))%nat by lia.
  rewrite while1_S.
  edestruct (read_notes_body_count
               (Decodehcint.NotesVars 0 0 0 word_count notes notes_count)
               f f1 out) as [so1 E1]; [exact Hw | reflexivity |].
  rewrite E1.
  cbn [Decodehcint.n_checksum Decodehcint.n_word_count Decodehcint.n_notes].
  edestruct (read_notes_run pre (S (length f - length pre - 1))
               (Decodehcint.NotesVars 0 1 n (u32 (word_count + 1)) notes
                  (u32 (n - 1)))
               f1 f2 out so1 O) as [so2 E2];
    [exact Hd | exact Hdec | reflexivity | cbn; lia
    | cbn; unfold word18 in Hn18; lia | cbn; apply u32_range
    | cbn; lia |].
  rewrite E2.
  cbn [Decodehcint.n_checksum Decodehcint.n_word_count Decodehcint.n_notes
       Decodehcint.n_total_word_count Decodehcint.n_notes_count].
  rewrite while1_S.
  pose proof (length_insert_run (map snd pre) notes) as Hl.
  rewrite length_map in Hl. specialize (Hl ltac:(lia)).
  edestruct (read_notes_body_overflow
               (Decodehcint.NotesVars (checksum_from 0 (map snd pre))
                  (1 + Z.of_nat 0 + Z.of_nat (length pre)) n
                  (u32 (u32 (word_count + 1) + Z.of_nat (length pre)))
                  (fold_left (fun l p => <[fst p := snd p]> l)
                     (combine (seq 0 (length pre)) (map snd pre)) notes)
                  (u32 (n - 1)))
               f2 f' out so2 g x) as [so3 E3];
    [exact Hk | cbn; lia | cbn; unfold word18 in Hn18; lia
    | cbn [Decodehcint.n_notes Decodehcint.n_part_word_count];
      rewrite Hl; lia |].
  rewrite E3. cbn [Decodehcint.n_part_word_count].
  replace (1 + Z.of_nat 0 + Z.of_nat (length pre) - 1)
    with (Z.of_nat (length notes)) by lia.
  eexists. reflexivity.
Qed.

Lemma read_notes_buffer_overflow_witness :
  exists so',
    Decodehcint.read_notes 0 [7] 0
      (World (flat_map ppb_frames [2; 0x38064; 0x30000]) [] [])
    = (Fault (OutOfBounds (Z.of_nat (length [7]))), World [] [] so').
Proof.
  apply (read_notes_buffer_overflow 0 0 [7] [(0, 0x38064)]
           (flat_map ppb_frames [2; 0x38064; 0x30000]) [] [] []
           0 2 0 0x30000 eq_refl eq_refl).
  - repeat constructor.
  - cbn. lia.
Defined.

(** ** The BARS section of decodehcint.c, continued *)

(** The first turn of [read_bars] reads the count. *)
Lemma read_bars_body_count (notes : list Z) (notes_count : Z)
  (v : Decodehcint.bars_vars) (f f' out : list byte)
  (so : list (string * list arg)) (g x : Z) :
  next_word f = Some (g, x, f') ->
  g <> 0 ->
  Decodehcint.b_part_word_count v = 0 ->
  exists so',
    Decodehcint.read_bars_body notes notes_count v (World f out so)
    = (Ret (Continue
              (Decodehcint.BarsVars (Decodehcint.b_checksum v) g 1 x
                 (u32 (Decodehcint.b_word_count v + 1)))),
       World f' out so').
Proof.
  intros Hw Hg Hk. unfold Decodehcint.read_bars_body. unfold bind at 1.
  destruct (decode_read_next_word f f' out so g x
              (Decodehcint.b_word_count v) 0 Hw) as [so1 E].
  rewrite E. cbv iota beta zeta. change (0 =? u32 EOF) with false.
  rewrite Hk. change (u32 (0 + 1)) with 1. change (1 >? 1) with false.
  change (1 =? 1) with true. cbn [andb]. cbv iota.
  apply Z.eqb_neq in Hg. rewrite Hg.
  unfold bind, ret, printf. cbn [fp fp_out stdout]. eexists. reflexivity.
Qed.

(** A turn of [read_bars] on a data word that is no separator: the word is
    an index into the notes, refused when it is not below [notes_count];
    the measure is then printed from that index on, and its first note is
    read even when the index is behind the end of the buffer. *)
Lemma read_bars_body_index (notes : list Z) (notes_count : Z)
  (v : Decodehcint.bars_vars) (f f' out : list byte)
  (so : list (string * list arg)) (g x : Z) :
  next_word f = Some (g, x, f') ->
  1 <= Decodehcint.b_part_word_count v <= Decodehcint.b_total_word_count v ->
  Decodehcint.b_total_word_count v < 2 ^ 18 ->
  x <> 0x30000 ->
  (notes_count <= x ->
   exists so',
     Decodehcint.read_bars_body notes notes_count v (World f out so)
     = (Exit (NoteIndexError x), World f' out so')) /\
  (x < notes_count -> Z.of_nat (length notes) <= x ->
   exists so',
     Decodehcint.read_bars_body notes notes_count v (World f out so)
     = (Fault (OutOfBounds x), World f' out so')).
Proof.
  intros Hw Hk Hn Hx.
  destruct (next_word_some _ _ _ _ Hw) as (_ & Hx18 & _ & _).
  destruct (decode_read_next_word f f' out so g x
              (Decodehcint.b_word_count v) 0 Hw) as [so1 E].
  assert (Hturn : Decodehcint.read_bars_body notes notes_count v (World f out so)
          = (if x >=? notes_count then exit (NoteIndexError x)
             else
               printf "\t%d" [I (u32 (Decodehcint.b_part_word_count v + 1 - 1))] ;;
               while1 (S (length notes))
                 (Decodehcint.measure_body notes notes_count x) (x, 0) ;;
               printf "/\n" [] ;;
               ret (Continue
                      (Decodehcint.BarsVars
                         (add_1s_complement (Decodehcint.b_checksum v) x) g
                         (Decodehcint.b_part_word_count v + 1)
                         (Decodehcint.b_total_word_count v)
                         (u32 (Decodehcint.b_word_count v + 1))))
            ) (World f' out so1)).
  { unfold Decodehcint.read_bars_body. unfold bind at 1. rewrite E.
    cbv iota beta zeta. change (0 =? u32 EOF) with false. cbv iota.
    rewrite (u32_small (Decodehcint.b_part_word_count v + 1)) by lia.
    rewrite (u32_small (Decodehcint.b_total_word_count v + 2)) by lia.
    rewrite Z.gtb_ltb.
    destruct (Z.ltb_spec 1 (Decodehcint.b_part_word_count v + 1)); [| lia].
    destruct (Z.ltb_spec (Decodehcint.b_part_word_count v + 1)
                (Decodehcint.b_total_word_count v + 2)); [| lia].
    destruct (Z.eqb_spec (Decodehcint.b_part_word_count v + 1) 1); [lia |].
    destruct (Z.eqb_spec (Decodehcint.b_part_word_count v + 1)
                (Decodehcint.b_total_word_count v + 2)); [lia |].
    destruct (Z.eqb_spec x 0x30000); [congruence |].
    cbn [andb]. reflexivity. }
  rewrite Hturn. rewrite Z.geb_leb. split.
  - intros Hr. destruct (Z.leb_spec notes_count x); [| lia].
    unfold exit. eexists. reflexivity.
  - intros Hr Hlen. destruct (Z.leb_spec notes_count x); [lia |].
    unfold bind at 1. unfold printf at 1. cbn [fp fp_out stdout].
    unfold bind at 1. rewrite while1_S.
    unfold Decodehcint.measure_body. unfold bind at 1.
    unfold Decodehcint.load.
    destruct (Z.leb_spec 0 x); [| unfold word18 in Hx18; lia].
    rewrite (lookup_ge_None_2 notes (Z.to_nat x)) by lia.
    unfold crash. eexists. reflexivity.
Qed.

(** X16. [read_notes] leaves the count minus one in [*notes_count], and
    [read_bars] refuses an index that is not below it: after a NOTES
    section with at least one data word, a BARS word that is the index of
    the last data word, or a larger one, ends the program with the index
    error. *)
Theorem last_note_not_addressable (word_count notes_count : Z)
  (notes : list Z) (data : list (Z * Z)) (f rest f' out : list byte)
  (so : list (string * list arg)) (g0 gk g1 g2 m x : Z) :
  words_of (S (S (length data))) f
  = Some ((g0, Z.of_nat (length data))
            :: (data ++ [(gk, checksum_of (map snd data))])%list,
          rest) ->
  Forall (fun x => decodable x = true) (map snd data) ->
  (1 <= length data <= length notes)%nat ->
  words_of 2 rest = Some ([(g1, m); (g2, x)], f') ->
  g1 <> 0 -> 1 <= m -> x <> 0x30000 ->
  Z.of_nat (length data) - 1 <= x ->
  exists v w1 so',
    Decodehcint.read_notes word_count notes notes_count (World f out so)
    = (Ret (0, v), w1) /\
    Decodehcint.read_bars (Decodehcint.n_word_count v)
      (Decodehcint.n_notes v) (Decodehcint.n_notes_count v) w1
    = (Exit (NoteIndexError x), World f' out so').
Proof.
  intros Hws Hdec Hlen Hbars Hg1 Hm Hx Hlast.
  destruct (read_notes_accepts word_count notes_count notes data f out rest
              so g0 gk Hws Hdec) as (v & so1 & E & _ & Hnc & _); [lia |].
  apply words_of_S in Hbars. destruct Hbars as (fa & Hw1 & Hbars).
  apply words_of_S in Hbars. destruct Hbars as (fb & Hw2 & Hbars).
  cbn [words_of] in Hbars. injection Hbars as <-.
  destruct (next_word_some _ _ _ _ Hw1) as (_ & Hm18 & _ & L1).
  exists v, (World rest out so1).
  unfold Decodehcint.read_bars. unfold bind at 1.
  unfold puts, printf. cbn [fp fp_out stdout]. unfold bind at 1.
  destruct (length rest) as [| fuel] eqn:El; [lia |].
  rewrite while1_S.
  edestruct (read_bars_body_count (Decodehcint.n_notes v)
               (Decodehcint.n_notes_count v)
               (Decodehcint.BarsVars 0 0 0 0 (Decodehcint.n_word_count v))
               rest fa out) as [so2 E2]; [exact Hw1 | exact Hg1 | reflexivity |].
  rewrite E2. cbn [Decodehcint.b_checksum Decodehcint.b_word_count].
  rewrite while1_S.
  edestruct (read_bars_body_index (Decodehcint.n_notes v)
               (Decodehcint.n_notes_count v)
               (Decodehcint.BarsVars 0 g1 1 m
                  (u32 (Decodehcint.n_word_count v + 1)))
               fa fb out so2 g2 x) as [Hidx _];
    [exact Hw2 | cbn; lia | cbn; unfold word18 in Hm18; lia | exact Hx |].
  destruct Hidx as [so3 E3].
  { destruct (section_words _ _ _ _ _ _ _ Hws)
      as (? & ? & _ & _ & _ & _ & Hn18).
    rewrite Hnc. rewrite u32_small by (unfold word18 in Hn18; lia).
    exact Hlast. }
  rewrite E3. eexists. split; [exact E | reflexivity].
Qed.

Lemma last_note_not_addressable_witness :
  exists v w1 so',
    Decodehcint.read_notes 0 [7; 7; 7] 0
      (World (flat_map ppb_frames [2; 0x38064; 0x30000; 0x28065]
              ++ byte.of_Z 0 :: flat_map ppb_frames [1; 1])%list [] [])
    = (Ret (0, v), w1) /\
    Decodehcint.read_bars (Decodehcint.n_word_count v)
      (Decodehcint.n_notes v) (Decodehcint.n_notes_count v) w1
    = (Exit (NoteIndexError 1), World [] [] so').
Proof.
  apply (last_note_not_addressable 0 0 [7; 7; 7]
           [(0, 0x38064); (0, 0x30000)]
           (flat_map ppb_frames [2; 0x38064; 0x30000; 0x28065]
            ++ byte.of_Z 0 :: flat_map ppb_frames [1; 1])%list
           (byte.of_Z 0 :: flat_map ppb_frames [1; 1]) [] [] []
           0 0 1 0 1 1 eq_refl).
  - repeat constructor.
  - cbn. lia.
  - reflexivity.
  - discriminate.
  - lia.
  - discriminate.
  - cbn. lia.
Defined.

(** X17. A NOTES section with count 0 is accepted and leaves [2^32 - 1] in
    [*notes_count], so the index check of [read_bars] refuses nothing: a
    BARS word that is no separator and not below the length of the buffer
    is then read as a note behind the end of the buffer. *)
Theorem empty_notes_index_unchecked (word_count notes_count : Z)
  (notes : list Z) (f rest f' out : list byte)
  (so : list (string * list arg)) (g0 gk g1 g2 m x : Z) :
  words_of 2 f = Some ([(g0, 0); (gk, 0)], rest) ->
  words_of 2 rest = Some ([(g1, m); (g2, x)], f') ->
  g1 <> 0 -> 1 <= m -> x <> 0x30000 ->
  Z.of_nat (length notes) <= x ->
  exists v w1 so',
    Decodehcint.read_notes word_count notes notes_count (World f out so)
    = (Ret (0, v), w1) /\
    Decodehcint.n_notes_count v = 2 ^ 32 - 1 /\
    Decodehcint.read_bars (Decodehcint.n_word_count v)
      (Decodehcint.n_notes v) (Decodehcint.n_notes_count v) w1
    = (Fault (OutOfBounds x), World f' out so').
Proof.
  intros Hws Hbars Hg1 Hm Hx Hout.
  destruct (read_notes_accepts word_count notes_count notes [] f out rest
              so g0 gk Hws) as (v & so1 & E & En & Hnc & _);
    [constructor | cbn; lia |].
  cbn [length map app drop Z.of_nat] in En, Hnc.
  change (u32 (Z.of_nat 0 - 1)) with (2 ^ 32 - 1) in Hnc.
  change (drop 0 notes) with notes in En.
  apply words_of_S in Hbars. destruct Hbars as (fa & Hw1 & Hbars).
  apply words_of_S in Hbars. destruct Hbars as (fb & Hw2 & Hbars).
  cbn [words_of] in Hbars. injection Hbars as <-.
  destruct (next_word_some _ _ _ _ Hw1) as (_ & Hm18 & _ & L1).
  destruct (next_word_some _ _ _ _ Hw2) as (_ & Hx18 & _ & _).
  exists v, (World rest out so1).
  unfold Decodehcint.read_bars. unfold bind at 1.
  unfold puts, printf. cbn [fp fp_out stdout]. unfold bind at 1.
  destruct (length rest) as [| fuel] eqn:El; [lia |].
  rewrite while1_S.
  edestruct (read_bars_body_count (Decodehcint.n_notes v)
               (Decodehcint.n_notes_count v)
               (Decodehcint.BarsVars 0 0 0 0 (Decodehcint.n_word_count v))
               rest fa out) as [so2 E2]; [exact Hw1 | exact Hg1 | reflexivity |].
  rewrite E2. cbn [Decodehcint.b_checksum Decodehcint.b_word_count].
  rewrite while1_S.
  edestruct (read_bars_body_index (Decodehcint.n_notes v)
               (Decodehcint.n_notes_count v)
               (Decodehcint.BarsVars 0 g1 1 m
                  (u32 (Decodehcint.n_word_count v + 1)))
               fa fb out so2 g2 x) as [_ Hidx];
    [exact Hw2 | cbn; lia | cbn; unfold word18 in Hm18; lia | exact Hx |].
  destruct Hidx as [so3 E3].
  { rewrite Hnc. unfold word18 in Hx18. lia. }
  { rewrite En. exact Hout. }
  rewrite E3. eexists. split; [exact E |]. split; [exact Hnc | reflexivity].
Qed.

Lemma empty_notes_index_unchecked_witness :
  exists v w1 so',
    Decodehcint.read_notes 0 [7; 7; 7] 0
      (World (flat_map ppb_frames [0; 0]
              ++ byte.of_Z 0 :: flat_map ppb_frames [1; 5])%list [] [])
    = (Ret (0, v), w1) /\
    Decodehcint.n_notes_count v = 2 ^ 32 - 1 /\
    Decodehcint.read_bars (Decodehcint.n_word_count v)
      (Decodehcint.n_notes v) (Decodehcint.n_notes_count v) w1
    = (Fault (OutOfBounds 5), World [] [] so').
Proof.
  apply (empty_notes_index_unchecked 0 0 [7; 7; 7]
           (flat_map ppb_frames [0; 0]
            ++ byte.of_Z 0 :: flat_map ppb_frames [1; 5])%list
           (byte.of_Z 0 :: flat_map ppb_frames [1; 5]) [] [] []
           0 0 1 0 1 5 eq_refl eq_refl).
  - discriminate.
  - lia.
  - discriminate.
  - cbn. lia.
Defined.

(** ** The accesses to the notes buffer *)

Lemma in_bounds_ret {A : Type} (a : A) : in_bounds (ret a).
Proof. intros w i. discriminate. Qed.

Lemma in_bounds_exit {A : Type} (e : error) : in_bounds (@exit A e).
Proof. intros w i. discriminate. Qed.

Lemma in_bounds_printf (fmt : string) (args : list arg) :
  in_bounds (printf fmt args).
Proof. intros w i. discriminate. Qed.

Lemma in_bounds_bind {A B : Type} (m : M A) (k : A -> M B) :
  in_bounds m -> (forall a, in_bounds (k a)) -> in_bounds (bind m k).
Proof.
  intros Hm Hk w i. unfold bind. specialize (Hm w i).
  destruct (m w) as [[a | e | ft |] w']; cbn [fst] in *;
    try discriminate; [apply Hk |].
  intros E. apply Hm. injection E as ->. reflexivity.
Qed.

Lemma in_bounds_peek_gap : in_bounds peek_gap.
Proof. intros w i. unfold peek_gap, rpb. cbn. discriminate. Qed.

Lemma in_bounds_lift {A : Type} (o : option A) : in_bounds (Decodehcint.lift o).
Proof. intros w i. destruct o; discriminate. Qed.

Lemma in_bounds_while1 {L : Type} (body : L -> M (ctl L)) :
  (forall l, in_bounds (body l)) ->
  forall (fuel : nat) (l : L), in_bounds (while1 fuel body l).
Proof.
  intros Hb. induction fuel as [| fuel IH]; intros l w i; [discriminate |].
  rewrite while1_S. specialize (Hb l w i).
  destruct (body l w) as [[[l' | l' | r l'] | e | ft |] w'];
    cbn [fst] in *; try discriminate; [apply IH |].
  intros E. apply Hb. injection E as ->. reflexivity.
Qed.

(** Takes a program apart down to its calls. *)
Ltac in_bounds_step :=
  match goal with
  | |- in_bounds (bind _ _) => apply in_bounds_bind; [| intros ?]
  | |- in_bounds (ret _) => apply in_bounds_ret
  | |- in_bounds (exit _) => apply in_bounds_exit
  | |- in_bounds (printf _ _) => apply in_bounds_printf
  | |- in_bounds (puts _) => apply in_bounds_printf
  | |- in_bounds peek_gap => apply in_bounds_peek_gap
  | |- in_bounds (Decodehcint.lift _) => apply in_bounds_lift
  | |- in_bounds (when ?c _) => unfold when
  | |- in_bounds (if ?c then _ else _) => destruct c eqn:?
  | |- in_bounds (match ?x with _ => _ end) => destruct x
  | |- in_bounds _ => progress cbv zeta
  end.

Ltac in_bounds_tac := repeat in_bounds_step.

(** What [read_next_word] of decodehcint.c returns. *)
Lemma decode_read_next_word_cases (word_count peek : Z) (w : world) :
  match Decodehcint.read_next_word word_count peek w with
  | (Ret (res, x, wc, g), w') =>
      res = u32 EOF \/ next_word (fp w) = Some (g, x, fp w')
  | (Exit _, _) => True
  | _ => False
  end.
Proof.
  unfold Decodehcint.read_next_word, bind, rpb, next_word, when, printf,
    ret, exit.
  cbn [fp fp_out stdout].
  destruct (rpb_loop (fp w) 0 0 0 0) as [x0 g0 n0 f0].
  cbn [rpb_word rpb_gap_frames rpb_inner_frames rpb_fp].
  destruct (Z.eqb_spec n0 0) as [-> | Hn]; cbn [negb andb]; [| exact Logic.I].
  destruct (negb (g0 =? 0)); cbn [fp fp_out stdout];
    destruct (x0 =? u32 EOF); cbn [negb]; try (left; reflexivity);
    destruct (peek =? 0); cbn [fp fp_out stdout]; right; reflexivity.
Qed.

(** The loop that prints a measure stays below [notes_count]. *)
Lemma measure_in_bounds_from (notes : list Z) (notes_count word : Z) :
  0 <= word -> notes_count < Z.of_nat (length notes) ->
  notes_count < 2 ^ 32 ->
  forall (fuel : nat) (k : Z),
  0 <= k -> word + k <= notes_count ->
  in_bounds (while1 fuel (Decodehcint.measure_body notes notes_count word)
               (word + k, k)).
Proof.
  intros Hw Hnc H32. induction fuel as [| fuel IH]; intros k Hk Hle w i;
    [discriminate |].
  rewrite while1_S. unfold Decodehcint.measure_body. unfold bind at 1.
  unfold Decodehcint.load.
  destruct (Z.leb_spec 0 (word + k)); [| lia].
  destruct (lookup_lt_is_Some_2 notes (Z.to_nat (word + k)) ltac:(lia))
    as [x Ex].
  rewrite Ex. unfold ret at 1. cbv iota beta.
  rewrite (u32_small (word + k)) by lia.
  destruct (negb (x =? 0x30000) && (word + k <? notes_count)) eqn:Ec.
  - apply andb_prop in Ec. destruct Ec as [_ Ec]. apply Z.ltb_lt in Ec.
    unfold bind at 1. unfold Decodehcint.lift.
    destruct (Decodehcint.parse_note x) as [note |]; [| discriminate].
    unfold ret at 1. cbv iota beta. unfold bind at 1. unfold printf at 1.
    cbv iota beta. unfold ret at 1. cbv iota beta.
    rewrite (u32_small (k + 1)) by lia.
    replace (word + k + 1) with (word + (k + 1)) by lia.
    apply IH; lia.
  - discriminate.
Qed.

Lemma measure_in_bounds (notes : list Z) (notes_count word : Z) (fuel : nat) :
  0 <= word -> word < notes_count ->
  notes_count < Z.of_nat (length notes) -> notes_count < 2 ^ 32 ->
  in_bounds (while1 fuel (Decodehcint.measure_body notes notes_count word)
               (word, 0)).
Proof.
  intros Hw Hlt Hnc H32.
  pose proof (measure_in_bounds_from notes notes_count word Hw Hnc H32
                fuel 0 ltac:(lia) ltac:(lia)) as H.
  rewrite Z.add_0_r in H. exact H.
Qed.

Lemma read_bars_body_in_bounds (notes : list Z) (notes_count : Z)
  (v : Decodehcint.bars_vars) :
  notes_count < Z.of_nat (length notes) -> notes_count < 2 ^ 32 ->
  in_bounds (Decodehcint.read_bars_body notes notes_count v).
Proof.
  intros Hnc H32 w i. unfold Decodehcint.read_bars_body. unfold bind at 1.
  pose proof (decode_read_next_word_cases (Decodehcint.b_word_count v) 0 w)
    as C.
  destruct (Decodehcint.read_next_word (Decodehcint.b_word_count v) 0 w)
    as [[[[[res x] wc] g] | e | ft |] w'];
    try discriminate; [| contradiction].
  cbv iota beta zeta.
  destruct (Z.eqb_spec res (u32 EOF)) as [| Hres]; [discriminate |].
  destruct C as [| C]; [congruence |].
  destruct (next_word_some _ _ _ _ C) as (_ & Hx & _ & _). clear C.
  match goal with
  | |- fst (?m w') <> _ => assert (Hm : in_bounds m); [| apply Hm]
  end.
  unfold Decodehcint.verify_checksum.
  in_bounds_tac.
  apply measure_in_bounds; try assumption.
  - unfold word18 in Hx. lia.
  - match goal with
    | H : (x >=? notes_count) = false |- _ =>
        rewrite Z.geb_leb in H; apply Z.leb_gt in H; exact H
    end.
Qed.

(** X18. [read_bars] reads the notes only inside the buffer when
    [notes_count] is below the length of the buffer: the index check
    refuses every word that is not below [notes_count], and the loop that
    prints a measure stops at the latest when it has reached
    [notes_count]. After a NOTES section with at least one data word that
    fits the buffer this is the case, [notes_count] being the count minus
    one. *)
Theorem read_bars_in_bounds (word_count notes_count : Z) (notes : list Z)
  (w : world) (i : Z) :
  notes_count < Z.of_nat (length notes) -> notes_count < 2 ^ 32 ->
  fst (Decodehcint.read_bars word_count notes notes_count w)
  <> Fault (OutOfBounds i).
Proof.
  intros Hnc H32. revert w i.
  change (in_bounds (Decodehcint.read_bars word_count notes notes_count)).
  unfold Decodehcint.read_bars. apply in_bounds_bind; [apply in_bounds_printf |].
  intros _ w. revert w.
  change (in_bounds
            (fun w =>
               (r <- while1 (S (length (fp w)))
                       (Decodehcint.read_bars_body notes notes_count)
                       (Decodehcint.BarsVars 0 0 0 0 word_count) ;;
                match r with
                | (Some x, v) => ret (x, v)
                | (None, v) => ret (0, v)
                end) w)).
  intros w i.
  apply (in_bounds_bind
           (while1 (S (length (fp w)))
              (Decodehcint.read_bars_body notes notes_count)
              (Decodehcint.BarsVars 0 0 0 0 word_count))).
  - apply in_bounds_while1. intros l.
    apply read_bars_body_in_bounds; assumption.
  - intros [[x |] v]; apply in_bounds_ret.
Qed.

Lemma read_bars_in_bounds_witness :
  fst (Decodehcint.read_bars 0 [0x38064; 0x30000; 7] 1
         (World (byte.of_Z 0 :: flat_map ppb_frames [1; 0; 0]) [] []))
  <> Fault (OutOfBounds 0).
Proof.
  apply (read_bars_in_bounds 0 1 [0x38064; 0x30000; 7]).
  - cbn. lia.
  - lia.
Defined.

Lemma in_bounds_read_notes_word (x : Z) :
  in_bounds (Decodehcint.read_notes_word x).
Proof.
  unfold Decodehcint.read_notes_word. in_bounds_tac.
  intros w i. unfold Decodehcint.articulation_name.
  repeat match goal with
         | |- context [match ?a with _ => _ end] => destruct a
         end; discriminate.
Qed.

Lemma while1_invariant {L : Type} (Inv : L -> world -> Prop)
  (body : L -> M (ctl L)) :
  (forall l w, Inv l w ->
     match body l w with
     | (Ret (Continue l'), w') => Inv l' w'
     | (Fault (OutOfBounds _), _) => False
     | _ => True
     end) ->
  forall (fuel : nat) (l : L) (w : world),
  Inv l w -> forall i, fst (while1 fuel body l w) <> Fault (OutOfBounds i).
Proof.
  intros Hb. induction fuel as [| fuel IH]; intros l w Hl i; [discriminate |].
  rewrite while1_S. specialize (Hb l w Hl).
  destruct (body l w) as [[[l' | l' | r l'] | e | ft |] w'];
    cbn [fst]; try discriminate; [apply IH; exact Hb |].
  destruct ft; [discriminate | contradiction].
Qed.

Lemma read_notes_body_fit (v : Decodehcint.notes_vars) (w : world) :
  notes_fit v w ->
  match Decodehcint.read_notes_body v w with
  | (Ret (Continue v'), w') => notes_fit v' w'
  | (Fault (OutOfBounds _), _) => False
  | _ => True
  end.
Proof.
  intros Hfit. unfold Decodehcint.read_notes_body. unfold bind at 1.
  pose proof (decode_read_next_word_cases (Decodehcint.n_word_count v) 0 w)
    as C.
  destruct (Decodehcint.read_next_word (Decodehcint.n_word_count v) 0 w)
    as [[[[[res x] wc] g] | e | ft |] w'];
    try exact Logic.I; [| contradiction].
  cbv iota beta zeta.
  destruct (Z.eqb_spec res (u32 EOF)) as [| Hres]; [exact Logic.I |].
  destruct C as [| C]; [congruence |].
  destruct (next_word_some _ _ _ _ C) as (_ & Hx & _ & _).
  destruct Hfit as [[Hk Hfirst] | (Hk & Hfit & H18)].
  - rewrite Hk. change (u32 (0 + 1)) with 1. change (1 >? 1) with false.
    change (1 =? 1) with true. cbn [andb]. cbv iota.
    unfold bind, ret, printf. cbn [fp fp_out stdout].
    right. cbn [Decodehcint.n_part_word_count Decodehcint.n_total_word_count
                Decodehcint.n_notes].
    specialize (Hfirst _ _ _ C). unfold word18 in Hx. lia.
  - rewrite (u32_small (Decodehcint.n_part_word_count v + 1)) by lia.
    rewrite (u32_small (Decodehcint.n_total_word_count v + 2)) by lia.
    rewrite Z.gtb_ltb.
    destruct (Z.ltb_spec 1 (Decodehcint.n_part_word_count v + 1)); [| lia].
    destruct (Z.eqb_spec (Decodehcint.n_part_word_count v + 1) 1); [lia |].
    destruct (Z.ltb_spec (Decodehcint.n_part_word_count v + 1)
                (Decodehcint.n_total_word_count v + 2)) as [Hdata | Hlast];
      cbn [andb].
    + rewrite (u32_small (Decodehcint.n_part_word_count v + 1 - 2)) by lia.
      unfold bind at 1. unfold bind at 1. unfold Decodehcint.store.
      destruct (Z.leb_spec 0 (Decodehcint.n_part_word_count v + 1 - 2));
        [| lia].
      destruct (Z.ltb_spec (Decodehcint.n_part_word_count v + 1 - 2)
                  (Z.of_nat (length (Decodehcint.n_notes v)))); [| lia].
      cbn [andb]. unfold ret at 1. cbv iota beta. unfold ret at 1.
      cbv iota beta.
      destruct (Z.eqb_spec (Decodehcint.n_part_word_count v + 1)
                  (Decodehcint.n_total_word_count v + 2)); [lia |].
      unfold bind at 1.
      pose proof (in_bounds_read_notes_word x w') as Hin.
      destruct (Decodehcint.read_notes_word x w') as [[[] | e | ft |] w''];
        try exact Logic.I.
      * unfold ret. right.
        cbn [Decodehcint.n_part_word_count Decodehcint.n_total_word_count
             Decodehcint.n_notes].
        rewrite length_insert. lia.
      * destruct ft as [| j]; [exact Logic.I |].
        apply (Hin j). reflexivity.
    + unfold bind at 1. unfold ret at 1. cbv iota beta.
      destruct (Z.eqb_spec (Decodehcint.n_part_word_count v + 1)
                  (Decodehcint.n_total_word_count v + 2)); [| lia].
      unfold Decodehcint.verify_checksum, bind, puts, printf, ret, exit.
      destruct (x =? Decodehcint.n_checksum v); exact Logic.I.
Qed.

(** X19. [read_notes] writes only inside the buffer when the count word of
    the section is at most the length of the buffer: each data word goes to
    the index that is the number of data words before it, and no more data
    words are stored than the count says. *)
Theorem read_notes_in_bounds (word_count notes_count : Z) (notes : list Z)
  (w : world) (i : Z) :
  (forall g n f',
     next_word (fp w) = Some (g, n, f') -> n <= Z.of_nat (length notes)) ->
  fst (Decodehcint.read_notes word_count notes notes_count w)
  <> Fault (OutOfBounds i).
Proof.
  intros Hcount. unfold Decodehcint.read_notes. unfold bind at 1.
  unfold puts, printf. cbn [fp fp_out stdout]. unfold bind at 1.
  pose proof (while1_invariant notes_fit Decodehcint.read_notes_body
                read_notes_body_fit (S (length (fp w)))
                (Decodehcint.NotesVars 0 0 0 word_count notes notes_count)
                (World (fp w) (fp_out w) (stdout w ++ [("NOTES:", [])]))) as H.
  specialize (H (or_introl (conj eq_refl Hcount)) i).
  destruct (while1 (S (length (fp w))) Decodehcint.read_notes_body
              (Decodehcint.NotesVars 0 0 0 word_count notes notes_count)
              (World (fp w) (fp_out w) (stdout w ++ [("NOTES:", [])])))
    as [[[[r |] v] | e | ft |] w']; cbn [fst] in *; try discriminate.
  intros E. apply H. injection E as ->. reflexivity.
Qed.

Lemma read_notes_in_bounds_witness :
  fst (Decodehcint.read_notes 0 [7; 7] 0
         (World (flat_map ppb_frames [2; 0x38064; 0x30000; 0x28065]) [] []))
  <> Fault (OutOfBounds 0).
Proof.
  apply (read_notes_in_bounds 0 0 [7; 7]).
  intros g n f' H. vm_compute in H. injection H as _ <- _. vm_compute.
  discriminate.
Defined.

(** * ascii2fiodec.c *)

(** The octal literals of ascii2fiodec.c. *)
Lemma octal_literals_fiodec :
  octal 272 = 0xba /\ octal 274 = 0xbc /\ octal 277 = 0xbf /\
  octal 200 = 0x80 /\ octal 236 = 0x9e /\ octal 13 = 0xb /\
  octal 100 = 0x40 /\ octal 77 = 0x3f /\
  length Ascii2fiodec.upper = Z.to_nat (octal 100) /\
  length Ascii2fiodec.lower = Z.to_nat (octal 100).
Proof. repeat split; reflexivity. Qed.




(** One turn of the [-f] mode, for each of the 256 values of a byte and
    both cases: on a character it knows, what it puts has odd parity and is
    read back by the [-a] mode as that character, the NUL byte apart, which
    is found as an empty entry of [upper] and read back as nothing; on any
    other character the search leaves [upper] at index 64. *)
Lemma fiodec_turn_cases (uc : bool) (b : byte) :
  if known (byte.unsigned b) then
    exists uc' put,
      Ascii2fiodec.fiodec_turn uc (byte.unsigned b) = inl (uc', put) /\
      forallb odd_parity put = true /\
      forall rest,
        Ascii2fiodec.ascii_loop uc (put ++ rest)
        = ((if byte.unsigned b =? 0 then [] else [b])
           ++ Ascii2fiodec.ascii_loop uc' rest)%list
  else
    Ascii2fiodec.fiodec_turn uc (byte.unsigned b) = inr (OutOfBounds 64).
Proof.
  destruct uc, b;
    match goal with
    | |- if ?k then _ else _ =>
        let v := eval vm_compute in k in change k with v; cbv iota
    end;
    try reflexivity;
    match goal with
    | |- exists uc' put, ?t = _ /\ _ =>
        let v := eval vm_compute in t in change t with v
    end;
    eexists; eexists; (split; [reflexivity |]);
    (split; [reflexivity | intros rest; reflexivity]).
Qed.

(** The loop of the [-f] mode on characters it knows. *)
Lemma fiodec_loop_known (stdin : list byte) :
  Forall (fun b => known (byte.unsigned b) = true) stdin ->
  forall uc,
  exists uc' out,
    Ascii2fiodec.fiodec_loop uc stdin = (out, None) /\
    forallb odd_parity out = true /\
    forall rest,
      Ascii2fiodec.ascii_loop uc (out ++ rest)
      = (List.filter (fun b => negb (byte.unsigned b =? 0)) stdin
         ++ Ascii2fiodec.ascii_loop uc' rest)%list.
Proof.
  intros H. induction H as [| b stdin Hb _ IH]; intros uc.
  - exists uc, []. repeat split.
  - pose proof (fiodec_turn_cases uc b) as C. rewrite Hb in C.
    destruct C as (uc1 & put & E & Hp & Hr).
    destruct (IH uc1) as (uc' & out & E' & Hp' & Hr').
    exists uc', (put ++ out)%list. cbn [Ascii2fiodec.fiodec_loop].
    rewrite E, E'. split; [reflexivity |]. split.
    + rewrite forallb_app, Hp, Hp'. reflexivity.
    + intros rest. rewrite <- app_assoc, Hr, Hr'. cbn [List.filter].
      destruct (byte.unsigned b =? 0); cbn [negb app];
        rewrite ?app_assoc; reflexivity.
Qed.

(** X21. The [-a] mode undoes the [-f] mode: on a text of characters the
    [-f] mode knows (blank, tabulator, newline and the entries of the two
    tables), what the [-f] mode puts is read back by the [-a] mode as the
    text without its NUL bytes, followed by the [@], the byte 64, that the
    stop code 013 stands for. *)
Theorem fiodec_ascii_roundtrip (stdin : list byte) :
  Forall (fun b => known (byte.unsigned b) = true) stdin ->
  exists out,
    Ascii2fiodec.fiodec_mode stdin = (out, None) /\
    Ascii2fiodec.ascii_mode out
    = (List.filter (fun b => negb (byte.unsigned b =? 0)) stdin
       ++ [byte.of_Z 64])%list.
Proof.
  intros H. destruct (fiodec_loop_known stdin H false)
    as (uc' & out & E & _ & Hr).
  unfold Ascii2fiodec.fiodec_mode, Ascii2fiodec.ascii_mode. rewrite E.
  eexists. split; [reflexivity |]. rewrite Hr.
  destruct uc'; reflexivity.
Qed.

Lemma fiodec_ascii_roundtrip_witness :
  let stdin := map byte.of_Z [99; 52; 32; 68; 35; 10] in
  exists out,
    Ascii2fiodec.fiodec_mode stdin = (out, None) /\
    Ascii2fiodec.ascii_mode out
    = (List.filter (fun b => negb (byte.unsigned b =? 0)) stdin
       ++ [byte.of_Z 64])%list.
Proof.
  intros stdin. apply (fiodec_ascii_roundtrip stdin).
  repeat constructor.
Defined.

(** X22. Every byte the [-f] mode puts has an odd number of ones: the
    codes of the characters by [putpar], the case shifts 0272 and 0274,
    the codes of blank, tabulator and newline and the stop code as they are
    written in the source. The [-a] mode, which skips bytes of even parity,
    skips none of them. *)
Theorem fiodec_odd_parity (stdin : list byte) :
  forallb odd_parity (fst (Ascii2fiodec.fiodec_mode stdin)) = true.
Proof.
  assert (H : forall stdin uc,
            forallb odd_parity (fst (Ascii2fiodec.fiodec_loop uc stdin))
            = true).
  { clear stdin. induction stdin as [| b stdin IH]; intros uc; [reflexivity |].
    cbn [Ascii2fiodec.fiodec_loop].
    pose proof (fiodec_turn_cases uc b) as C.
    destruct (known (byte.unsigned b)).
    - destruct C as (uc1 & put & E & Hp & _). rewrite E.
      specialize (IH uc1).
      destruct (Ascii2fiodec.fiodec_loop uc1 stdin) as [out o].
      cbn [fst] in *. rewrite forallb_app, Hp, IH. reflexivity.
    - rewrite C. reflexivity. }
  unfold Ascii2fiodec.fiodec_mode. specialize (H stdin false).
  destruct (Ascii2fiodec.fiodec_loop false stdin) as [out [f |]];
    cbn [fst] in *; [exact H |].
  rewrite forallb_app, H. reflexivity.
Qed.




(** A data frame of [ppb] as a byte. *)
Lemma frame_value (a : Z) :
  0 <= a < 64 -> byte.unsigned (byte.of_Z (Z.lor 0x80 a)) = 128 + a.
Proof.
  intros Ha. rewrite byte.unsigned_of_Z. unfold byte.wrap.
  rewrite marker_lor by lia. apply Z.mod_small. lia.
Qed.

(** A turn of the dump on a data frame of [ppb]. *)
Lemma dump_turn_frame (col skp : Z) (v : Ascii2fiodec.dump_vars) (a : Z) :
  0 <= a < 64 -> 0 <= Ascii2fiodec.d_val v < 2 ^ 12 ->
  Ascii2fiodec.d_dot v <= 0 ->
  Ascii2fiodec.dump_turn col skp v
    (byte.unsigned (byte.of_Z (Z.lor 0x80 a)))
  = let val := Ascii2fiodec.d_val v * 64 + a in
    if Ascii2fiodec.d_cyc v + 1 >=? 3 then
      if Ascii2fiodec.d_nco v + 1 >? col then
        (Ascii2fiodec.DumpVars 0 0 0 0,
         (Ascii2fiodec.printf_06o val ++ Ascii2fiodec.newlin skp)%list)
      else
        (Ascii2fiodec.DumpVars 0 0 (Ascii2fiodec.d_nco v + 1) (-1),
         (Ascii2fiodec.printf_06o val ++ [byte.of_Z 32; byte.of_Z 32])%list)
    else
      (Ascii2fiodec.DumpVars (Ascii2fiodec.d_cyc v + 1) val
         (Ascii2fiodec.d_nco v) (-1), []).
Proof.
  intros Ha Hv Hd. unfold Ascii2fiodec.dump_turn.
  destruct (frame_bits a Ha) as [_ E40]. rewrite E40.
  rewrite frame_value by exact Ha.
  destruct (Z.ltb_spec (128 + a) 0x80); [lia |].
  change (0 =? 0) with true. cbn [negb].
  rewrite Z.gtb_ltb. destruct (Z.ltb_spec 0 (Ascii2fiodec.d_dot v)); [lia |].
  replace (128 + a - 0x80) with a by lia.
  rewrite (lor_shiftl (Ascii2fiodec.d_val v) a 6) by lia.
  change (2 ^ 6) with 64. cbv zeta. cbn [app]. reflexivity.
Qed.

(** The dump on the three frames of a word. *)
Lemma dump_loop_word (col skp nco dot x : Z) (rest : list byte) :
  word18 x -> dot <= 0 ->
  Ascii2fiodec.dump_loop col skp (Ascii2fiodec.DumpVars 0 0 nco dot)
    (ppb_frames x ++ rest)
  = (Ascii2fiodec.printf_06o x
     ++ (if nco + 1 >? col
         then Ascii2fiodec.newlin skp
              ++ Ascii2fiodec.dump_loop col skp
                   (Ascii2fiodec.DumpVars 0 0 0 0) rest
         else [byte.of_Z 32; byte.of_Z 32]
              ++ Ascii2fiodec.dump_loop col skp
                   (Ascii2fiodec.DumpVars 0 0 (nco + 1) (-1)) rest))%list.
Proof.
  intros Hx Hd.
  destruct (ppb_groups x) as (Ea & Eb & Ec).
  set (a := (x / 4096) mod 64) in *.
  set (b := (x / 64) mod 64) in *.
  set (c := x mod 64) in *.
  assert (Ha : 0 <= a < 64) by (apply Z.mod_pos_bound; lia).
  assert (Hb : 0 <= b < 64) by (apply Z.mod_pos_bound; lia).
  assert (Hc : 0 <= c < 64) by (apply Z.mod_pos_bound; lia).
  rewrite ppb_frames_eq, Ea, Eb, Ec. cbn [app Ascii2fiodec.dump_loop].
  rewrite (dump_turn_frame col skp _ a Ha) by (cbn; lia).
  cbn [Ascii2fiodec.d_cyc Ascii2fiodec.d_val Ascii2fiodec.d_nco
       Ascii2fiodec.d_dot]. cbv zeta.
  change (0 + 1 >=? 3) with false. cbv iota. cbn [app].
  rewrite (dump_turn_frame col skp _ b Hb) by (cbn; lia).
  cbn [Ascii2fiodec.d_cyc Ascii2fiodec.d_val Ascii2fiodec.d_nco
       Ascii2fiodec.d_dot]. cbv zeta.
  change (0 + 1 + 1 >=? 3) with false. cbv iota. cbn [app].
  rewrite (dump_turn_frame col skp _ c Hc) by (cbn; lia).
  cbn [Ascii2fiodec.d_cyc Ascii2fiodec.d_val Ascii2fiodec.d_nco
       Ascii2fiodec.d_dot]. cbv zeta.
  change (0 + 1 + 1 + 1 >=? 3) with true. cbv iota.
  assert (Ex : (0 * 64 + a) * 64 + b = a * 64 + b) by lia.
  assert (Ew : ((0 * 64 + a) * 64 + b) * 64 + c = x).
  { rewrite Ex. subst a b c. rewrite word_groups.
    apply Z.mod_small. exact Hx. }
  rewrite Ew.
  destruct (nco + 1 >? col); rewrite <- app_assoc; reflexivity.
Qed.

(** X24. The dump of ascii2fiodec.c reads the tape format of tweak.c: on
    words written by [ppb] one after the other it prints each word with
    six octal digits and no full stop, and after a word two blanks, or the
    newlines of [newlin] when the word finds [col] words on its line: lines
    of [col + 1] words when [col] is not negative, nine for the [col] of 8
    that [main] starts with. *)
Theorem dump_prints_words (col skp : Z) (words : list Z) :
  Forall word18 words ->
  Ascii2fiodec.dump_mode col skp (flat_map ppb_frames words)
  = dump_words col skp 0 words.
Proof.
  intros H. unfold Ascii2fiodec.dump_mode.
  assert (G : forall nco dot, dot <= 0 ->
            Ascii2fiodec.dump_loop col skp
              (Ascii2fiodec.DumpVars 0 0 nco dot) (flat_map ppb_frames words)
            = dump_words col skp nco words).
  { induction H as [| x words Hx _ IH]; intros nco dot Hd; [reflexivity |].
    cbn [flat_map dump_words]. rewrite dump_loop_word by assumption.
    destruct (nco + 1 >? col); rewrite IH by lia; reflexivity. }
  apply G. lia.
Qed.

Lemma dump_prints_words_witness :
  Ascii2fiodec.dump_mode 8 1 (flat_map ppb_frames [1; 0x38064])
  = dump_words 8 1 0 [1; 0x38064].
Proof.
  apply (dump_prints_words 8 1 [1; 0x38064]).
  repeat constructor; unfold word18; lia.
Defined.

(** ** The output of tweak.c as an input *)

(** A word of [ppb] behind blank frames. *)
Lemma next_word_gap (n : nat) (x : Z) (rest : list byte) :
  word18 x ->
  next_word (repeat (byte.of_Z 0) n ++ ppb_frames x ++ rest)
  = Some (u32 (Z.of_nat n), x, rest).
Proof.
  intros Hx. unfold next_word.
  rewrite rpb_loop_blank_run by lia. rewrite rpb_loop_ppb_frames.
  cbn [rpb_word rpb_gap_frames rpb_inner_frames rpb_fp].
  rewrite Z.mod_small by exact Hx. rewrite Z.add_0_l.
  destruct (Z.eqb_spec x (u32 EOF)) as [E | _].
  { change (u32 EOF) with 4294967295 in E. unfold word18 in Hx. lia. }
  reflexivity.
Qed.

(** A section of [ppb] behind blank frames. *)
Lemma section_of_frames (n : nat) (ws : list Z) (rest : list byte) :
  Forall word18 ws -> word18 (Z.of_nat (length ws)) ->
  section_of (repeat (byte.of_Z 0) n ++ section_frames ws ++ rest)
  = Some (u32 (Z.of_nat n), ws, rest).
Proof.
  intros Hws Hn. unfold section_of, section_frames.
  cbn [flat_map]. rewrite flat_map_app. cbn [flat_map].
  rewrite app_nil_r, <- !app_assoc.
  rewrite next_word_gap by exact Hn. rewrite Nat2Z.id.
  rewrite (words_of_ppb_frames ws _ Hws).
  pose proof (next_word_gap 0 (checksum_of ws) rest) as Hk.
  cbn [repeat app] in Hk. rewrite Hk.
  2: { apply checksum_from_word18; [unfold word18; lia | exact Hws]. }
  rewrite map_snd_pair, Z.eqb_refl. reflexivity.
Qed.

(** A voice of tweak.c behind blank frames. *)
Lemma voice_of_frames (n : nat) (tempo : Z) (v : voice_data)
  (rest : list byte) :
  writable v ->
  voice_of (repeat (byte.of_Z 0) n ++ voice_frames tempo v ++ rest)
  = Some (written_voice tempo v, rest).
Proof.
  intros (Hn & Hnl & Hb & Hbl & Hg). unfold voice_of, voice_frames.
  rewrite <- !app_assoc.
  rewrite section_of_frames;
    [| apply Forall_written; exact Hn | rewrite length_map; exact Hnl].
  unfold gap_bytes, Tweak.s32.
  destruct (Z.ltb_spec (v_inner_gap v) (2 ^ 31)); [| lia].
  rewrite section_of_frames by assumption.
  rewrite Z2Nat.id by lia. rewrite u32_small by lia.
  destruct (Z.eqb_spec (v_inner_gap v) 0); [lia |]. reflexivity.
Qed.

(** The voices of tweak.c behind blank frames. *)
Lemma voices_of_frames (tempo gap_length : Z) (vs : list voice_data) :
  Forall writable vs ->
  forall (v : voice_data) (n : nat) (rest : list byte),
  writable v ->
  voices_of (S (length vs))
    (repeat (byte.of_Z 0) n ++ voices_frames tempo gap_length (v :: vs) ++ rest)
  = Some (map (written_voice tempo) (v :: vs), rest).
Proof.
  intros H. induction H as [| v2 vs Hv2 _ IH]; intros v n rest Hv.
  - cbn [voices_frames length voices_of map]. rewrite app_nil_r.
    rewrite voice_of_frames by exact Hv. reflexivity.
  - change (voices_frames tempo gap_length (v :: v2 :: vs))
      with (voice_frames tempo v
            ++ repeat (byte.of_Z 0) (Z.to_nat gap_length)
            ++ voices_frames tempo gap_length (v2 :: vs))%list.
    change (voices_of (S (length (v2 :: vs))))
      with (fun f =>
              match voice_of f with
              | Some (v, f1) =>
                  match voices_of (S (length vs)) f1 with
                  | Some (vs, rest) => Some (v :: vs, rest)
                  | None => None
                  end
              | None => None
              end).
    cbv beta. rewrite <- !app_assoc.
    rewrite voice_of_frames by exact Hv.
    rewrite (IH v2 (Z.to_nat gap_length) rest Hv2). reflexivity.
Qed.

(** What tweak.c accepts can be written and read back, the size of the
    inner gaps apart. *)
Lemma voices_of_writable (k : nat) :
  forall (f rest : list byte) (vs : list voice_data),
  voices_of k f = Some (vs, rest) ->
  Forall (fun v => v_inner_gap v < 2 ^ 31) vs ->
  Forall writable vs /\ length vs = k.
Proof.
  induction k as [| k IH]; intros f rest vs Hvs Hg.
  - cbn [voices_of] in Hvs. injection Hvs as <- _. split; constructor.
  - cbn [voices_of] in Hvs.
    destruct (voice_of f) as [[v f1] |] eqn:Hv; [| discriminate].
    destruct (voices_of k f1) as [[vs' rest'] |] eqn:Hvs'; [| discriminate].
    injection Hvs as <- <-. inversion Hg as [| ? ? Hgv Hg']; subst.
    destruct (IH _ _ _ Hvs' Hg') as [Hw Hl].
    split; [| cbn [length]; rewrite Hl; reflexivity].
    constructor; [| exact Hw].
    unfold voice_of in Hv.
    destruct (section_of f) as [[[g0 notes] fa] |] eqn:Hn; [| discriminate].
    destruct (section_of fa) as [[[g bars] fb] |] eqn:Hb; [| discriminate].
    destruct (Z.eqb_spec g 0) as [| Hne]; [discriminate |].
    injection Hv as <- <-.
    destruct (section_of_word18 _ _ _ _ Hn) as (N1 & N2 & _).
    destruct (section_of_word18 _ _ _ _ Hb) as (B1 & B2 & B3).
    cbn [v_inner_gap] in Hgv.
    unfold writable. cbn [v_notes v_bars v_inner_gap].
    split; [exact N1 |]. split; [exact N2 |]. split; [exact B1 |].
    split; [exact B2 | lia].
Qed.

Lemma voice_frames_written (tempo : Z) (v : voice_data) :
  voice_frames tempo (written_voice tempo v) = voice_frames tempo v.
Proof.
  unfold voice_frames, written_voice. cbn [v_notes v_inner_gap v_bars].
  rewrite map_written_idempotent. reflexivity.
Qed.

Lemma voices_frames_written (tempo gap_length : Z) (vs : list voice_data) :
  voices_frames tempo gap_length (map (written_voice tempo) vs)
  = voices_frames tempo gap_length vs.
Proof.
  induction vs as [| v vs IH]; [reflexivity |].
  destruct vs as [| v2 vs].
  - cbn [map voices_frames]. rewrite voice_frames_written. reflexivity.
  - change (voices_frames tempo gap_length
              (map (written_voice tempo) (v :: v2 :: vs)))
      with (voice_frames tempo (written_voice tempo v)
            ++ repeat (byte.of_Z 0) (Z.to_nat gap_length)
            ++ voices_frames tempo gap_length
                 (map (written_voice tempo) (v2 :: vs)))%list.
    rewrite IH, voice_frames_written. reflexivity.
Qed.

Lemma rpb_loop_blanks (n : nat) :
  rpb_loop (repeat (byte.of_Z 0) n) 0 0 0 0
  = RpbResult (u32 EOF) (u32 (Z.of_nat n)) 0 [].
Proof.
  pose proof (rpb_loop_blank_run n [] 0 0 0 ltac:(lia)) as H.
  rewrite app_nil_r in H. rewrite H. reflexivity.
Qed.

(** X25. tweak.c accepts what it has written, and is idempotent: on a tape
    as in X11 whose leader, trailer and inner gaps are shorter than [2^31]
    frames, a second run with the same arguments on the output of the
    first returns 0 and writes that output again, byte for byte. *)
Theorem tweak_idempotent (argc atoi3 atoi4 : Z) (k : nat)
  (vs : list voice_data) (f rest out : list byte)
  (so : list (string * list arg)) :
  3 <= argc <= 5 ->
  (1 <= k <= 4)%nat ->
  voices_of k f = Some (vs, rest) ->
  (data_frames rest < 3)%nat ->
  rpb_gap_frames (rpb_loop f 0 0 0 0) < 2 ^ 31 ->
  rpb_gap_frames (rpb_loop rest 0 0 0 0) < 2 ^ 31 ->
  Forall (fun v => v_inner_gap v < 2 ^ 31) vs ->
  let first := fp_out (snd (Tweak.main argc atoi3 atoi4 (World f [] []))) in
  exists unread so',
    Tweak.main argc atoi3 atoi4 (World first out so)
    = (Ret 0, World unread (out ++ first) so').
Proof.
  intros Hargc Hk Hvs Hrest Hl Ht Hg first.
  destruct (tweak_main_accepts argc atoi3 atoi4 k vs f rest [] [] Hargc Hk
              Hvs Hrest) as [so1 E].
  subst first. rewrite E. cbn [snd fp_out app].
  set (tempo := if argc =? 4 then u32 atoi3 else u32 (-1)).
  set (gap_length := if argc =? 5 then atoi4 else 18).
  set (leader := rpb_gap_frames (rpb_loop f 0 0 0 0)) in *.
  set (trailer := rpb_gap_frames (rpb_loop rest 0 0 0 0)) in *.
  destruct (voices_of_writable k f rest vs Hvs Hg) as [Hw Hlen].
  assert (Hl0 : 0 <= leader < 2 ^ 31).
  { pose proof (rpb_loop_counts f 0 0 0 0 ltac:(lia) ltac:(lia) ltac:(lia))
      as [Hc _].
    pose proof (u32_range
                  (0 + Z.of_nat (count_blanks (fun seen => (seen =? 0)%nat) 0 f))).
    subst leader. rewrite Hc. lia. }
  assert (Ht0 : 0 <= trailer < 2 ^ 31).
  { pose proof (rpb_loop_counts rest 0 0 0 0 ltac:(lia) ltac:(lia) ltac:(lia))
      as [Hc _].
    pose proof (u32_range
                  (0 + Z.of_nat (count_blanks (fun seen => (seen =? 0)%nat) 0 rest))).
    subst trailer. rewrite Hc. lia. }
  destruct vs as [| v vs]; [cbn [length] in Hlen; lia |].
  inversion Hw as [| ? ? Hv Hw']; subst.
  assert (Egap : forall g, 0 <= g < 2 ^ 31 ->
            gap_bytes g = repeat (byte.of_Z 0) (Z.to_nat g)).
  { intros g Hgr. unfold gap_bytes, Tweak.s32.
    destruct (Z.ltb_spec g (2 ^ 31)); [reflexivity | lia]. }
  assert (Hparse :
            voices_of (S (length vs))
              (gap_bytes leader
               ++ voices_frames tempo gap_length (v :: vs)
               ++ gap_bytes trailer)
            = Some (map (written_voice tempo) (v :: vs), gap_bytes trailer)).
  { rewrite (Egap leader Hl0). apply voices_of_frames; assumption. }
  destruct (tweak_main_accepts argc atoi3 atoi4 (S (length vs))
              (map (written_voice tempo) (v :: vs))
              (gap_bytes leader
               ++ voices_frames tempo gap_length (v :: vs)
               ++ gap_bytes trailer)%list
              (gap_bytes trailer) out so Hargc) as [so2 E2].
  - cbn [length] in Hk. lia.
  - exact Hparse.
  - rewrite (Egap trailer Ht0). unfold data_frames.
    clear. induction (Z.to_nat trailer) as [| m IH]; [cbn; lia |].
    cbn [repeat List.filter]. exact IH.
  - exists (gap_bytes trailer), so2. rewrite E2.
    fold tempo. fold gap_length. rewrite voices_frames_written.
    f_equal. f_equal. f_equal.
    assert (E1 : rpb_gap_frames
                   (rpb_loop
                      (gap_bytes leader
                       ++ voices_frames tempo gap_length (v :: vs)
                       ++ gap_bytes trailer) 0 0 0 0) = leader).
    { rewrite (Egap leader Hl0).
      cbn [voices_frames]. unfold voice_frames at 1, section_frames at 1.
      cbn [flat_map]. rewrite <- !app_assoc.
      rewrite rpb_loop_blank_run by lia. rewrite rpb_loop_ppb_frames.
      cbn [rpb_gap_frames]. rewrite Z.add_0_l, Z2Nat.id by lia.
      apply u32_small. lia. }
    assert (E3 : rpb_gap_frames (rpb_loop (gap_bytes trailer) 0 0 0 0)
                 = trailer).
    { rewrite (Egap trailer Ht0), rpb_loop_blanks. cbn [rpb_gap_frames].
      rewrite Z2Nat.id by lia. apply u32_small. lia. }
    rewrite E1, E3. reflexivity.
Qed.

Lemma tweak_idempotent_witness :
  let f := (byte.of_Z 0 :: flat_map ppb_frames [1; 0x38064; 0x38064]
            ++ byte.of_Z 0 :: flat_map ppb_frames [1; 0x30000; 0x30000])%list in
  let first := fp_out (snd (Tweak.main 4 100 0 (World f [] []))) in
  exists unread so',
    Tweak.main 4 100 0 (World first [] [])
    = (Ret 0, World unread ([] ++ first) so').
Proof.
  intros f.
  apply (tweak_idempotent 4 100 0 1 [Voice [0x38064] 1 [0x30000]] f [] [] []).
  - lia.
  - lia.
  - reflexivity.
  - vm_compute. lia.
  - vm_compute. reflexivity.
  - vm_compute. reflexivity.
  - repeat constructor.
Defined.

(** ** A tape of tweak.c under the decoder *)

(** A turn of [read_notes] on the tempo word 0700000. *)
Lemma read_notes_body_tempo_zero (v : Decodehcint.notes_vars)
  (f f' out : list byte) (so : list (string * list arg)) (g : Z) :
  next_word f = Some (g, 0x38000, f') ->
  1 <= Decodehcint.n_part_word_count v <= Decodehcint.n_total_word_count v ->
  Decodehcint.n_total_word_count v < 2 ^ 18 ->
  Decodehcint.n_part_word_count v - 1
  < Z.of_nat (length (Decodehcint.n_notes v)) ->
  exists so',
    Decodehcint.read_notes_body v (World f out so)
    = (Fault DivisionByZero, World f' out so').
Proof.
  intros Hw Hk Hn Hi.
  destruct (decode_read_next_word f f' out so g 0x38000
              (Decodehcint.n_word_count v) 0 Hw) as [so1 E].
  read_notes_data_turn v E.
  destruct (Z.ltb_spec (Decodehcint.n_part_word_count v - 1)
              (Z.of_nat (length (Decodehcint.n_notes v)))); [| lia].
  cbn [andb]. unfold bind at 1. unfold ret at 1. cbv iota beta.
  unfold ret at 1. cbv iota beta.
  destruct (Z.eqb_spec (Decodehcint.n_part_word_count v + 1) 1); [lia |].
  destruct (Z.eqb_spec (Decodehcint.n_part_word_count v + 1)
              (Decodehcint.n_total_word_count v + 2)); [lia |].
  unfold bind at 1. unfold Decodehcint.read_notes_word.
  change (0x38000 =? 0x30000) with false.
  change (Z.land 0x38000 0x38000 =? 0x38000) with true. cbv iota.
  unfold bind, Decodehcint.lift.
  change (Decodehcint.decode_tempo_quarter 0x38000) with (@None Z).
  unfold crash. eexists. reflexivity.
Qed.

(** X28. tweak.c can write a tape that decodehcint.c cannot read: under a
    tempo override whose low fifteen bits are zero (0, or 32768) each
    tempo word becomes 0700000, and on the section [copy_notes] has
    written [read_notes] divides by zero at the first tempo word, the
    words before it being notes that decode. *)
Theorem tempo_zero_not_decodable (tempo word_count notes_count : Z)
  (notes : list Z) (pre post : list (Z * Z)) (g x g0 gk : Z)
  (f rest rest' out : list byte) (so : list (string * list arg)) :
  let data := (pre ++ (g, x) :: post)%list in
  words_of (S (S (length data))) f
  = Some ((g0, Z.of_nat (length data))
            :: (data ++ [(gk, checksum_of (map snd data))])%list,
          rest) ->
  tempo <> u32 (-1) -> Z.land tempo 0x7fff = 0 ->
  Z.land x 0x38000 = 0x38000 ->
  Forall (fun y => Z.land y 0x38000 <> 0x38000 /\ decodable y = true)
    (map snd pre) ->
  (length pre < length notes)%nat ->
  let copy := fp_out (snd (Tweak.copy_notes tempo (World f [] []))) in
  exists w',
    Decodehcint.read_notes word_count notes notes_count
      (World (copy ++ rest') out so)
    = (Fault DivisionByZero, w').
Proof.
  intros data Hws Ht Ht0 Hx Hpre Hfit copy.
  destruct (copy_notes_accepts tempo data f [] rest [] g0 gk Hws) as [so1 E].
  subst copy. rewrite E. cbn [snd fp_out app].
  destruct (section_words _ _ _ _ _ _ _ Hws)
    as (f1 & f2 & Hw & Hd & Hk & L & Hn).
  pose proof (words_of_word18 _ _ _ _ Hd) as Hall.
  assert (Ew : map (written tempo) (map snd data)
               = (map snd pre ++ 0x38000
                    :: map (written tempo) (map snd post))%list).
  { subst data. rewrite !map_app. cbn [map snd]. f_equal.
    - clear - Hpre Ht. induction Hpre as [| y l [Hy _] _ IH]; [reflexivity |].
      cbn [map]. rewrite IH. f_equal. unfold written, retempo.
      apply Z.eqb_neq in Ht, Hy. rewrite Ht, Hy. reflexivity.
    - f_equal. unfold written, retempo. apply Z.eqb_neq in Ht.
      rewrite Ht. apply Z.eqb_eq in Hx. rewrite Hx.
      rewrite Ht0. reflexivity. }
  assert (Hpre18 : Forall word18 (map snd pre)).
  { subst data. rewrite map_app in Hall. apply Forall_app in Hall.
    exact (proj1 Hall). }
  unfold section_frames. rewrite !length_map. rewrite Ew.
  cbn [flat_map]. rewrite !flat_map_app. cbn [flat_map].
  rewrite <- !app_assoc.
  match goal with
  | |- context [(ppb_frames 0x38000 ++ ?t)%list] => set (tail := t)
  end.
  set (f3 := (ppb_frames 0x38000 ++ tail)%list).
  set (fa := (flat_map ppb_frames (map snd pre) ++ f3)%list).
  pose proof (next_word_gap 0 (Z.of_nat (length data)) fa Hn) as Hcount.
  cbn [repeat app] in Hcount. change (u32 (Z.of_nat 0)) with 0 in Hcount.
  pose proof (words_of_ppb_frames (map snd pre) f3 Hpre18) as Hrun.
  rewrite length_map in Hrun.
  pose proof (next_word_gap 0 0x38000 tail ltac:(unfold word18; lia))
    as Htempo.
  cbn [repeat app] in Htempo. change (u32 (Z.of_nat 0)) with 0 in Htempo.
  fold f3 in Htempo.
  destruct (next_word_some _ _ _ _ Hcount) as (_ & _ & _ & L1).
  fold fa in Hrun.
  destruct (words_of_length _ _ _ _ Hrun) as [_ L2].
  assert (Hlen : length data = (length pre + S (length post))%nat).
  { subst data. rewrite length_app. reflexivity. }
  unfold Decodehcint.read_notes. unfold bind at 1.
  unfold puts, printf. cbn [fp fp_out stdout]. unfold bind at 1.
  set (stream := (ppb_frames (Z.of_nat (length data)) ++ fa)%list) in *.
  replace (S (length stream))
    with (S (length pre + S (length stream - length pre - 1)))%nat by lia.
  rewrite while1_S.
  edestruct (read_notes_body_count
               (Decodehcint.NotesVars 0 0 0 word_count notes notes_count)
               stream fa out) as [so2 E2]; [exact Hcount | reflexivity |].
  rewrite E2.
  cbn [Decodehcint.n_checksum Decodehcint.n_word_count Decodehcint.n_notes].
  edestruct (read_notes_run (map (pair 0) (map snd pre))
               (S (length stream - length pre - 1))
               (Decodehcint.NotesVars 0 1 (Z.of_nat (length data))
                  (u32 (word_count + 1)) notes
                  (u32 (Z.of_nat (length data) - 1)))
               fa f3 out so2 O) as [so3 E3].
  { rewrite !length_map. exact Hrun. }
  { rewrite map_snd_pair. clear - Hpre.
    induction Hpre as [| y l [_ Hy] _ IH]; constructor; assumption. }
  { reflexivity. }
  { cbn. rewrite !length_map. lia. }
  { cbn. unfold word18 in Hn. lia. }
  { cbn. apply u32_range. }
  { cbn. rewrite !length_map. lia. }
  rewrite !length_map in E3. rewrite E3.
  cbn [Decodehcint.n_checksum Decodehcint.n_word_count Decodehcint.n_notes
       Decodehcint.n_total_word_count Decodehcint.n_notes_count].
  rewrite while1_S.
  pose proof (length_insert_run (map snd pre) notes) as Hl.
  rewrite length_map in Hl. specialize (Hl ltac:(lia)).
  rewrite map_snd_pair.
  edestruct (read_notes_body_tempo_zero
               (Decodehcint.NotesVars (checksum_from 0 (map snd pre))
                  (1 + Z.of_nat 0 + Z.of_nat (length pre))
                  (Z.of_nat (length data))
                  (u32 (u32 (word_count + 1) + Z.of_nat (length pre)))
                  (fold_left (fun l p => <[fst p := snd p]> l)
                     (combine (seq 0 (length pre)) (map snd pre)) notes)
                  (u32 (Z.of_nat (length data) - 1)))
               f3 tail out so3 0) as [so4 E4];
    [exact Htempo | cbn; lia | cbn; unfold word18 in Hn; lia
    | cbn [Decodehcint.n_notes Decodehcint.n_part_word_count];
      rewrite Hl; lia |].
  rewrite E4. eexists. reflexivity.
Qed.

Lemma tempo_zero_not_decodable_witness :
  let copy :=
    fp_out (snd (Tweak.copy_notes 0
                   (World (flat_map ppb_frames [1; 0x38064; 0x38064]) [] []))) in
  exists w',
    Decodehcint.read_notes 0 [7; 7] 0 (World (copy ++ []) [] [])
    = (Fault DivisionByZero, w').
Proof.
  apply (tempo_zero_not_decodable 0 0 0 [7; 7] [] [] 0 0x38064 0 0
           (flat_map ppb_frames [1; 0x38064; 0x38064]) [] [] [] [] eq_refl).
  - discriminate.
  - reflexivity.
  - reflexivity.
  - constructor.
  - cbn. lia.
Defined.

(** The tempo word of an override whose low fifteen bits are not zero
    decodes. *)
Lemma tempo_word_decodable (tempo : Z) :
  Z.land tempo 0x7fff <> 0 ->
  decodable (Z.lor 0x38000 (Z.land tempo 0x7fff)) = true.
Proof.
  intros Ht. destruct (tempo_word tempo) as [Ev El].
  assert (Hr : 0 <= Z.land tempo 0x7fff < 2 ^ 15).
  { change 0x7fff with (Z.ones 15). rewrite Z.land_ones by lia.
    apply Z.mod_pos_bound. lia. }
  assert (Elow : Z.land (Z.lor 0x38000 (Z.land tempo 0x7fff)) 0x7fff
                 = Z.land tempo 0x7fff).
  { rewrite Z.land_lor_distr_l. change (Z.land 0x38000 0x7fff) with 0.
    rewrite Z.lor_0_l, <- Z.land_assoc, Z.land_diag. reflexivity. }
  unfold decodable, Decodehcint.read_notes_word.
  destruct (Z.eqb_spec (Z.lor 0x38000 (Z.land tempo 0x7fff)) 0x30000) as [E | _].
  { rewrite Ev in E. change 0x7fff with (Z.ones 15) in Hr.
    pose proof (Z.mod_pos_bound tempo (2 ^ 15) ltac:(lia)). lia. }
  rewrite El, Z.eqb_refl. unfold bind, Decodehcint.lift.
  destruct (Decodehcint.decode_tempo_quarter
              (Z.lor 0x38000 (Z.land tempo 0x7fff))) as [q |] eqn:Eq;
    [reflexivity |].
  apply decode_tempo_quarter_none in Eq. rewrite Elow in Eq. contradiction.
Qed.

Lemma written_decodable (tempo : Z) (l : list Z) :
  tempo = u32 (-1) \/ Z.land tempo 0x7fff <> 0 ->
  Forall (fun x => decodable x = true) l ->
  Forall (fun x => decodable x = true) (map (written tempo) l).
Proof.
  intros Ht H. induction H as [| x l Hx _ IH]; cbn [map]; constructor;
    [| exact IH].
  unfold written, retempo.
  destruct (Z.eqb_spec tempo (u32 (-1))) as [| Hne]; [exact Hx |].
  destruct (Z.land x 0x38000 =? 0x38000); [| exact Hx].
  apply tempo_word_decodable. destruct Ht as [Ht | Ht]; [contradiction |].
  exact Ht.
Qed.

(** X29. Without an override, or under one whose low fifteen bits are not
    zero, tweak.c keeps a NOTES section readable: when the data words of
    the section decode and fit the buffer, [read_notes] accepts the section
    [copy_notes] has written and leaves in the buffer the words
    [copy_notes] wrote. *)
Theorem tweak_notes_decodable (tempo word_count notes_count : Z)
  (notes : list Z) (data : list (Z * Z)) (g0 gk : Z)
  (f rest rest' out : list byte) (so : list (string * list arg)) :
  words_of (S (S (length data))) f
  = Some ((g0, Z.of_nat (length data))
            :: (data ++ [(gk, checksum_of (map snd data))])%list,
          rest) ->
  tempo = u32 (-1) \/ Z.land tempo 0x7fff <> 0 ->
  Forall (fun x => decodable x = true) (map snd data) ->
  (length data <= length notes)%nat ->
  let copy := fp_out (snd (Tweak.copy_notes tempo (World f [] []))) in
  exists v so',
    Decodehcint.read_notes word_count notes notes_count
      (World (copy ++ rest') out so)
    = (Ret (0, v), World rest' out so') /\
    Decodehcint.n_notes v
    = (map (written tempo) (map snd data) ++ drop (length data) notes)%list.
Proof.
  intros Hws Ht Hdec Hfit copy.
  destruct (copy_notes_accepts tempo data f [] rest [] g0 gk Hws) as [so1 E].
  subst copy. rewrite E. cbn [snd fp_out app].
  destruct (section_words _ _ _ _ _ _ _ Hws)
    as (f1 & f2 & Hw & Hd & Hk & L & Hn).
  pose proof (words_of_word18 _ _ _ _ Hd) as Hall.
  set (ws := map (written tempo) (map snd data)).
  assert (Hlen : length ws = length data).
  { subst ws. rewrite !length_map. reflexivity. }
  pose proof (words_of_section_frames ws rest'
                (Forall_written tempo _ Hall)) as E'.
  rewrite Hlen in E'. specialize (E' Hn).
  destruct (read_notes_accepts word_count notes_count notes
              (map (pair 0) ws) (section_frames ws ++ rest') out rest' so 0 0)
    as (v & so2 & E2 & En & _).
  - rewrite length_map, Hlen, map_snd_pair. exact E'.
  - rewrite map_snd_pair. apply written_decodable; assumption.
  - rewrite length_map, Hlen. exact Hfit.
  - exists v, so2. split; [exact E2 |].
    rewrite En, map_snd_pair, length_map, Hlen. reflexivity.
Qed.

Lemma tweak_notes_decodable_witness :
  let copy :=
    fp_out (snd (Tweak.copy_notes 100
                   (World (flat_map ppb_frames [1; 0x38064; 0x38064]) [] []))) in
  exists v so',
    Decodehcint.read_notes 0 [7; 7] 0 (World (copy ++ []) [] [])
    = (Ret (0, v), World [] [] so') /\
    Decodehcint.n_notes v
    = (map (written 100) (map snd [(0, 0x38064)]) ++ drop 1 [7; 7])%list.
Proof.
  apply (tweak_notes_decodable 100 0 0 [7; 7] [(0, 0x38064)] 0 0
           (flat_map ppb_frames [1; 0x38064; 0x38064]) [] [] [] [] eq_refl).
  - right. discriminate.
  - repeat constructor.
  - cbn. lia.
Defined.
